(** * gunicorn/http/message.py: the HTTP/1.x request parser

    A shallow embedding of [gunicorn.http.message] (classes [Message] and
    [Request]) and proofs about its body-framing decision, its connection
    policy, its request-line and PROXY-line validation, its trusted scheme
    headers and its header buffer limit.

    Text.  [bytes_to_str] decodes latin-1, so a Python [bytes] value and the
    [str] made from it hold the same numbers: both are lists of code points
    here, and [bytes_to_str] is the identity.  The [str] methods the parser
    calls ([lower], [upper], [strip], [split], [isnumeric], [int]) are
    written out for code points below 256, which is all that latin-1 text
    contains; [upper] is the only one that leaves that range. *)

From Stdlib Require Import List NArith ZArith Bool Ascii String Lia.
Import ListNotations.
Local Open Scope Z_scope.

(** ** Python text *)

Definition char := N.
Definition str := list char.
Definition bytes := list N.

Definition lit (s : string) : str := map N_of_ascii (list_ascii_of_string s).
Arguments lit s%_string.

Definition bytes_to_str (b : bytes) : str := b.

Definition len {A} (l : list A) : Z := Z.of_nat (List.length l).

Fixpoint str_eqb (a b : str) : bool :=
  match a, b with
  | [], [] => true
  | x :: a', y :: b' => N.eqb x y && str_eqb a' b'
  | _, _ => false
  end.

Definition in_range (lo hi c : N) : bool := (N.leb lo c && N.leb c hi)%bool.

(** [str.lower] on one latin-1 character: A-Z, and the accented capitals
    U+00C0..U+00DE without the multiplication sign U+00D7. *)
Definition lower_char (c : char) : char :=
  if (in_range 65 90 c || (in_range 192 222 c && negb (N.eqb c 215)))%bool
  then (c + 32)%N else c.

Definition lower (s : str) : str := map lower_char s.

(** [str.upper] on one latin-1 character.  Three characters leave latin-1:
    y-diaeresis becomes U+0178, the micro sign becomes U+039C and the sharp s
    becomes the two letters SS. *)
Definition upper_char (c : char) : str :=
  if (in_range 97 122 c || (in_range 224 254 c && negb (N.eqb c 247)))%bool
  then [(c - 32)%N]
  else if N.eqb c 255 then [376%N]
  else if N.eqb c 181 then [924%N]
  else if N.eqb c 223 then [83%N; 83%N]
  else [c].

Definition upper (s : str) : str := flat_map upper_char s.

(** [str.isspace] on one latin-1 character: TAB LF VT FF CR, the four
    separators U+001C..U+001F, the space, NEL U+0085 and NBSP U+00A0. *)
Definition isspace (c : char) : bool :=
  (in_range 9 13 c || in_range 28 32 c || N.eqb c 133 || N.eqb c 160)%bool.

(** [bytes.isspace] on one byte: the six ASCII white space characters. *)
Definition bytes_isspace (c : N) : bool :=
  (in_range 9 13 c || N.eqb c 32)%bool.

Fixpoint lstrip_by (p : char -> bool) (s : str) : str :=
  match s with
  | [] => []
  | c :: s' => if p c then lstrip_by p s' else s
  end.

Definition rstrip_by (p : char -> bool) (s : str) : str :=
  rev (lstrip_by p (rev s)).

Definition lstrip (s : str) : str := lstrip_by isspace s.
Definition rstrip (s : str) : str := rstrip_by isspace s.
Definition strip (s : str) : str := lstrip (rstrip s).

(** [s.rstrip(" \t")] *)
Definition rstrip_sp_tab (s : str) : str :=
  rstrip_by (fun c => (N.eqb c 32 || N.eqb c 9)%bool) s.

Definition is_digit (c : char) : bool := in_range 48 57 c.

(** [str.isnumeric] on one latin-1 character: the ten digits, the
    superscripts two, three and one, and the three vulgar fractions. *)
Definition isnumeric_char (c : char) : bool :=
  (is_digit c || N.eqb c 178 || N.eqb c 179 || N.eqb c 185
   || in_range 188 190 c)%bool.

Definition isnumeric (s : str) : bool :=
  match s with
  | [] => false
  | _ => forallb isnumeric_char s
  end.

(** [int(s)] in base 10; [None] stands for [ValueError].  White space is
    stripped on both sides, one sign may follow, then decimal digits, where
    single underscores may separate digits.  A text with more digits than
    [int_max_str_digits] raises [ValueError] as well; leading zeros count,
    the sign and the underscores do not. *)
Inductive int_state := IntStart | IntDigit | IntUnderscore.

Fixpoint int_digits (st : int_state) (acc : Z) (s : str) : option Z :=
  match s with
  | [] => match st with IntDigit => Some acc | _ => None end
  | c :: s' =>
      if is_digit c then int_digits IntDigit (10 * acc + Z.of_N (c - 48)) s'
      else if N.eqb c 95 then
        match st with
        | IntDigit => int_digits IntUnderscore acc s'
        | _ => None
        end
      else None
  end.

(** [sys.get_int_max_str_digits()], at the default of the interpreter
    (CPython 3.11, and the security releases of 3.7 to 3.10). *)
Definition int_max_str_digits : Z := 4300.

Definition count_digits (s : str) : Z := len (filter is_digit s).

Definition int (s : str) : option Z :=
  match strip s with
  | c :: r =>
      if int_max_str_digits <? count_digits (c :: r) then None
      else if N.eqb c 43 then int_digits IntStart 0 r
      else if N.eqb c 45 then option_map Z.opp (int_digits IntStart 0 r)
      else int_digits IntStart 0 (c :: r)
  | [] => None
  end.

(** [s.split()] and [s.split(None, maxsplit)]: split on runs of white
    space.  [cur] is the token being read, reversed; once [maxsplit] splits
    are done the rest of the text, without its leading white space, is the
    last item. *)
Fixpoint split_ws (sp : char -> bool) (maxsplit : option nat)
         (cur : option str) (s : str) : list str :=
  match s with
  | [] => match cur with Some t => [rev t] | None => [] end
  | c :: s' =>
      match cur with
      | Some t =>
          if sp c then rev t :: split_ws sp maxsplit None s'
          else split_ws sp maxsplit (Some (c :: t)) s'
      | None =>
          if sp c then split_ws sp maxsplit None s'
          else match maxsplit with
               | Some O => [s]
               | Some (S k) => split_ws sp (Some k) (Some [c]) s'
               | None => split_ws sp None (Some [c]) s'
               end
      end
  end.

Definition str_split (s : str) : list str := split_ws isspace None None s.
Definition bytes_split_max (maxsplit : nat) (b : bytes) : list bytes :=
  split_ws bytes_isspace (Some maxsplit) None b.

Fixpoint startswith (p s : str) : bool :=
  match p, s with
  | [], _ => true
  | x :: p', y :: s' => N.eqb x y && startswith p' s'
  | _ :: _, [] => false
  end.

(** [s.find(p)]: the index of the first occurrence, or -1. *)
Fixpoint find_from (p s : str) (i : Z) : Z :=
  match s with
  | [] => match p with [] => i | _ => -1 end
  | _ :: s' => if startswith p s then i else find_from p s' (i + 1)
  end.

Definition find (p s : str) : Z := find_from p s 0.

(** Slices [s[:i]] and [s[i:]] for an index [i >= 0]. *)
Definition slice_to (s : str) (i : Z) : str := firstn (Z.to_nat i) s.
Definition slice_from (s : str) (i : Z) : str := skipn (Z.to_nat i) s.

Definition CRLF : str := [13%N; 10%N].

(** [data.split(b"\r\n")] *)
Fixpoint split_crlf (cur : bytes) (s : bytes) : list bytes :=
  match s with
  | [] => [rev cur]
  | c :: s' =>
      match s' with
      | d :: s'' =>
          if (N.eqb c 13 && N.eqb d 10)%bool then rev cur :: split_crlf [] s''
          else split_crlf (c :: cur) s'
      | [] => [rev (c :: cur)]
      end
  end.


Definition str_in (x : str) (l : list str) : bool := existsb (str_eqb x) l.

(** A [dict] with [str] keys, as the list of its items. *)
Fixpoint dict_get (k : str) (d : list (str * str)) : option str :=
  match d with
  | [] => None
  | (k', v) :: d' => if str_eqb k k' then Some v else dict_get k d'
  end.

(** ** Errors, configuration and the message object *)

Inductive error :=
| InvalidHeader (hdr : str)
| InvalidHeaderName (hdr : str)
| NoMoreData (buf : bytes)
| InvalidRequestLine (req : str)
| InvalidRequestMethod (method : str)
| InvalidHTTPVersion (version : str)
| LimitRequestLine (size max_size : Z)
| LimitRequestHeaders (msg : string)
| UnsupportedTransferCoding (hdr : str)
| InvalidProxyLine (line : str)
| ForbiddenProxyRequest (host : str)
| InvalidSchemeHeaders
| StopIteration
| TypeError
| ValueError.

Definition MAX_REQUEST_LINE : Z := 8190.
Definition MAX_HEADERS : Z := 32768.
Definition DEFAULT_MAX_HEADERFIELD_SIZE : Z := 8190.

(** The settings of [cfg] that the parser reads. *)
Module Cfg.
Record t := {
  is_ssl : bool;
  limit_request_fields : Z;
  limit_request_field_size : Z;
  limit_request_line : Z;
  strip_header_spaces : bool;
  forwarded_allow_ips : list str;
  secure_scheme_headers : list (str * str);
  proxy_protocol : bool;
  proxy_allow_ips : list str;
  tolerate_dangerous_framing : bool
}.
End Cfg.

(** [peer_addr] is a [(host, port)] tuple for a network peer and a path for
    a unix socket. *)
Inductive address :=
| Inet (host : str) (port : Z)
| Unix (path : str).

(** The body readers of [gunicorn.http.body], by constructor: the framing
    that [Body(...)] is built on. *)
Inductive reader :=
| ChunkedReader
| LengthReader (length : Z)
| EOFReader.

(** Modelled from the spec: the byte source [gunicorn.http.unreader] is not
    part of this file.  [read()] returns what was pushed back if there is
    any, otherwise the next chunk of the source, and the empty bytes when
    the source is exhausted; [unread(data)] pushes [data] back. *)
Record Unreader := {
  unread_buf : bytes;
  chunks : list bytes
}.

Record ProxyInfo := {
  info_proxy_protocol : str;
  client_addr : str;
  client_port : Z;
  proxy_addr : str;
  proxy_port : Z
}.

(** The attributes of a [Request] ([self]). *)
Record Message := {
  cfg : Cfg.t;
  unreader : Unreader;
  peer_addr : address;
  remote_addr : address;
  version : option (Z * Z);
  headers : list (str * str);
  trailers : list (str * str);
  body : option reader;
  scheme : str;
  must_close : bool;
  limit_request_fields : Z;
  limit_request_field_size : Z;
  max_buffer_headers : Z;
  method : option str;
  uri : option str;
  path : option str;
  query : option str;
  fragment : option str;
  limit_request_line : Z;
  req_number : Z;
  proxy_protocol_info : option ProxyInfo
}.

Definition set_unreader (u : Unreader) (m : Message) : Message :=
  {| cfg := cfg m; unreader := u; peer_addr := peer_addr m;
     remote_addr := remote_addr m; version := version m;
     headers := headers m; trailers := trailers m; body := body m;
     scheme := scheme m; must_close := must_close m;
     limit_request_fields := limit_request_fields m;
     limit_request_field_size := limit_request_field_size m;
     max_buffer_headers := max_buffer_headers m; method := method m;
     uri := uri m; path := path m; query := query m;
     fragment := fragment m; limit_request_line := limit_request_line m;
     req_number := req_number m;
     proxy_protocol_info := proxy_protocol_info m |}.

Definition set_version (v : option (Z * Z)) (m : Message) : Message :=
  {| cfg := cfg m; unreader := unreader m; peer_addr := peer_addr m;
     remote_addr := remote_addr m; version := v;
     headers := headers m; trailers := trailers m; body := body m;
     scheme := scheme m; must_close := must_close m;
     limit_request_fields := limit_request_fields m;
     limit_request_field_size := limit_request_field_size m;
     max_buffer_headers := max_buffer_headers m; method := method m;
     uri := uri m; path := path m; query := query m;
     fragment := fragment m; limit_request_line := limit_request_line m;
     req_number := req_number m;
     proxy_protocol_info := proxy_protocol_info m |}.

Definition set_headers (h : list (str * str)) (m : Message) : Message :=
  {| cfg := cfg m; unreader := unreader m; peer_addr := peer_addr m;
     remote_addr := remote_addr m; version := version m;
     headers := h; trailers := trailers m; body := body m;
     scheme := scheme m; must_close := must_close m;
     limit_request_fields := limit_request_fields m;
     limit_request_field_size := limit_request_field_size m;
     max_buffer_headers := max_buffer_headers m; method := method m;
     uri := uri m; path := path m; query := query m;
     fragment := fragment m; limit_request_line := limit_request_line m;
     req_number := req_number m;
     proxy_protocol_info := proxy_protocol_info m |}.

Definition set_body (b : option reader) (m : Message) : Message :=
  {| cfg := cfg m; unreader := unreader m; peer_addr := peer_addr m;
     remote_addr := remote_addr m; version := version m;
     headers := headers m; trailers := trailers m; body := b;
     scheme := scheme m; must_close := must_close m;
     limit_request_fields := limit_request_fields m;
     limit_request_field_size := limit_request_field_size m;
     max_buffer_headers := max_buffer_headers m; method := method m;
     uri := uri m; path := path m; query := query m;
     fragment := fragment m; limit_request_line := limit_request_line m;
     req_number := req_number m;
     proxy_protocol_info := proxy_protocol_info m |}.

Definition set_scheme (s : str) (m : Message) : Message :=
  {| cfg := cfg m; unreader := unreader m; peer_addr := peer_addr m;
     remote_addr := remote_addr m; version := version m;
     headers := headers m; trailers := trailers m; body := body m;
     scheme := s; must_close := must_close m;
     limit_request_fields := limit_request_fields m;
     limit_request_field_size := limit_request_field_size m;
     max_buffer_headers := max_buffer_headers m; method := method m;
     uri := uri m; path := path m; query := query m;
     fragment := fragment m; limit_request_line := limit_request_line m;
     req_number := req_number m;
     proxy_protocol_info := proxy_protocol_info m |}.

Definition set_must_close (b : bool) (m : Message) : Message :=
  {| cfg := cfg m; unreader := unreader m; peer_addr := peer_addr m;
     remote_addr := remote_addr m; version := version m;
     headers := headers m; trailers := trailers m; body := body m;
     scheme := scheme m; must_close := b;
     limit_request_fields := limit_request_fields m;
     limit_request_field_size := limit_request_field_size m;
     max_buffer_headers := max_buffer_headers m; method := method m;
     uri := uri m; path := path m; query := query m;
     fragment := fragment m; limit_request_line := limit_request_line m;
     req_number := req_number m;
     proxy_protocol_info := proxy_protocol_info m |}.

Definition set_method (x : option str) (m : Message) : Message :=
  {| cfg := cfg m; unreader := unreader m; peer_addr := peer_addr m;
     remote_addr := remote_addr m; version := version m;
     headers := headers m; trailers := trailers m; body := body m;
     scheme := scheme m; must_close := must_close m;
     limit_request_fields := limit_request_fields m;
     limit_request_field_size := limit_request_field_size m;
     max_buffer_headers := max_buffer_headers m; method := x;
     uri := uri m; path := path m; query := query m;
     fragment := fragment m; limit_request_line := limit_request_line m;
     req_number := req_number m;
     proxy_protocol_info := proxy_protocol_info m |}.

Definition set_uri (x : option str) (m : Message) : Message :=
  {| cfg := cfg m; unreader := unreader m; peer_addr := peer_addr m;
     remote_addr := remote_addr m; version := version m;
     headers := headers m; trailers := trailers m; body := body m;
     scheme := scheme m; must_close := must_close m;
     limit_request_fields := limit_request_fields m;
     limit_request_field_size := limit_request_field_size m;
     max_buffer_headers := max_buffer_headers m; method := method m;
     uri := x; path := path m; query := query m;
     fragment := fragment m; limit_request_line := limit_request_line m;
     req_number := req_number m;
     proxy_protocol_info := proxy_protocol_info m |}.

Definition set_parts (p q f : option str) (m : Message) : Message :=
  {| cfg := cfg m; unreader := unreader m; peer_addr := peer_addr m;
     remote_addr := remote_addr m; version := version m;
     headers := headers m; trailers := trailers m; body := body m;
     scheme := scheme m; must_close := must_close m;
     limit_request_fields := limit_request_fields m;
     limit_request_field_size := limit_request_field_size m;
     max_buffer_headers := max_buffer_headers m; method := method m;
     uri := uri m; path := p; query := q;
     fragment := f; limit_request_line := limit_request_line m;
     req_number := req_number m;
     proxy_protocol_info := proxy_protocol_info m |}.

Definition set_proxy_protocol_info (i : option ProxyInfo) (m : Message)
  : Message :=
  {| cfg := cfg m; unreader := unreader m; peer_addr := peer_addr m;
     remote_addr := remote_addr m; version := version m;
     headers := headers m; trailers := trailers m; body := body m;
     scheme := scheme m; must_close := must_close m;
     limit_request_fields := limit_request_fields m;
     limit_request_field_size := limit_request_field_size m;
     max_buffer_headers := max_buffer_headers m; method := method m;
     uri := uri m; path := path m; query := query m;
     fragment := fragment m; limit_request_line := limit_request_line m;
     req_number := req_number m;
     proxy_protocol_info := i |}.

(** ** Methods as state transformers

    A method runs on [self], may change it, and either returns or raises;
    what it changed before raising stays changed.  [OutOfFuel] is the model's
    own: a loop is given a number of rounds, as many as the lines or the
    reads that are left to it, and [OutOfFuel] says that these ran out. *)

Inductive outcome (A : Type) :=
| Return (a : A)
| Raise (e : error)
| OutOfFuel.
Arguments Return {A} a.
Arguments Raise {A} e.
Arguments OutOfFuel {A}.

Definition M (A : Type) := Message -> outcome A * Message.

Definition ret {A} (a : A) : M A := fun m => (Return a, m).
Definition raise {A} (e : error) : M A := fun m => (Raise e, m).
Definition out_of_fuel {A} : M A := fun m => (OutOfFuel, m).
Definition bind {A B} (c : M A) (k : A -> M B) : M B :=
  fun m =>
    match c m with
    | (Return a, m') => k a m'
    | (Raise e, m') => (Raise e, m')
    | (OutOfFuel, m') => (OutOfFuel, m')
    end.
Definition gets {A} (f : Message -> A) : M A := fun m => (Return (f m), m).
Definition modify (f : Message -> Message) : M unit :=
  fun m => (Return tt, f m).

Declare Scope method_scope.
Delimit Scope method_scope with method.
Notation "x <- c ;; k" := (bind c (fun x => k))
  (at level 61, c at next level, right associativity) : method_scope.
Notation "c ;; k" := (bind c (fun _ => k))
  (at level 61, right associativity) : method_scope.
Notation "' p <- c ;; k" := (bind c (fun x => match x with p => k end))
  (at level 61, p pattern, c at next level, right associativity)
  : method_scope.
Local Open Scope method_scope.

(** Tuple comparison [a < b] and [a <= b] on versions. *)
Definition version_lt (a b : Z * Z) : bool :=
  (fst a <? fst b) || ((fst a =? fst b) && (snd a <? snd b)).
Definition version_le (a b : Z * Z) : bool :=
  (fst a <? fst b) || ((fst a =? fst b) && (snd a <=? snd b)).

(** Reading [self.version] for a comparison with a tuple: [None], the value
    before the request line is parsed, does not compare. *)
Definition get_version : M (Z * Z) :=
  v <- gets version ;;
  match v with
  | Some ver => ret ver
  | None => raise TypeError
  end.

(** *** Message.force_close *)
Definition force_close : M unit := modify (set_must_close true).


(** *** Message.set_body_reader *)

(** One round of the loop over [self.headers]; [chunked] and
    [content_length] are the two local variables. *)
Definition scan_header (name value : str)
           (chunked : bool) (content_length : option str)
  : M (bool * option str) :=
  if str_eqb name (lit "CONTENT-LENGTH") then
    match content_length with
    | Some _ => raise (InvalidHeader (lit "CONTENT-LENGTH"))
    | None => ret (chunked, Some value)
    end
  else if str_eqb name (lit "TRANSFER-ENCODING") then
    if str_eqb (lower value) (lit "chunked") then
      if chunked then raise (InvalidHeader (lit "TRANSFER-ENCODING"))
      else ret (true, content_length)
    else if str_eqb (lower value) (lit "identity") then
      if chunked then raise (InvalidHeader (lit "TRANSFER-ENCODING"))
      else ret (chunked, content_length)
    else if str_eqb (lower value) (lit "") then
      force_close ;;
      tolerate <- gets (fun m => Cfg.tolerate_dangerous_framing (cfg m)) ;;
      if negb tolerate then raise (UnsupportedTransferCoding value)
      else ret (chunked, content_length)
    else
      force_close ;;
      raise (UnsupportedTransferCoding value)
  else ret (chunked, content_length).

Fixpoint scan_headers (hs : list (str * str))
         (chunked : bool) (content_length : option str)
  : M (bool * option str) :=
  match hs with
  | [] => ret (chunked, content_length)
  | (name, value) :: hs' =>
      '(chunked', content_length') <-
        scan_header name value chunked content_length ;;
      scan_headers hs' chunked' content_length'
  end.

(** What follows the loop: the reader that the two variables call for. *)
Definition choose_reader (chunked : bool) (content_length : option str)
  : M unit :=
  if chunked then
    ver <- get_version ;;
    (if version_lt ver (1, 1) then
       force_close ;;
       tolerate <- gets (fun m => Cfg.tolerate_dangerous_framing (cfg m)) ;;
       if negb tolerate then raise (InvalidHeader (lit "TRANSFER-ENCODING"))
       else ret tt
     else ret tt) ;;
    (match content_length with
     | Some _ =>
         force_close ;;
         tolerate <- gets (fun m => Cfg.tolerate_dangerous_framing (cfg m)) ;;
         if negb tolerate then raise (InvalidHeader (lit "CONTENT-LENGTH"))
         else ret tt
     | None => ret tt
     end) ;;
    modify (set_body (Some ChunkedReader))
  else
    match content_length with
    | Some value =>
        n <- (if isnumeric value then
                match int value with
                | Some n => ret n
                | None => raise (InvalidHeader (lit "CONTENT-LENGTH"))
                end
              else raise (InvalidHeader (lit "CONTENT-LENGTH"))) ;;
        if n <? 0 then raise (InvalidHeader (lit "CONTENT-LENGTH"))
        else modify (set_body (Some (LengthReader n)))
    | None => modify (set_body (Some EOFReader))
    end.

Definition Message_set_body_reader : M unit :=
  hs <- gets headers ;;
  '(chunked, content_length) <- scan_headers hs false None ;;
  choose_reader chunked content_length.

(** *** Request.set_body_reader *)
Definition Request_set_body_reader : M unit :=
  Message_set_body_reader ;;
  b <- gets body ;;
  match b with
  | Some EOFReader => modify (set_body (Some (LengthReader 0)))
  | _ => ret tt
  end.

(** *** Message.should_close *)

(** The loop over the headers: [Some b] when it returns [b], [None] when
    it ends or breaks. *)
Fixpoint connection_header (hs : list (str * str)) : option bool :=
  match hs with
  | [] => None
  | (h, v) :: hs' =>
      if str_eqb h (lit "CONNECTION") then
        let v := strip (lower v) in
        if str_eqb v (lit "close") then Some true
        else if str_eqb v (lit "keep-alive") then Some false
        else None
      else connection_header hs'
  end.

Definition should_close : M bool :=
  mc <- gets must_close ;;
  if mc then ret true
  else
    hs <- gets headers ;;
    match connection_header hs with
    | Some b => ret b
    | None =>
        ver <- get_version ;;
        ret (version_le ver (1, 0))
    end.


(** *** Message.parse_headers *)

(** [HEADER_RE]: the control characters, DEL, the space, the tab, the
    backslash, the double quote and the separators of [separators]. *)
Definition separators : str := lit "()<>@,;:[]={}".

Definition HEADER_RE_class (c : char) : bool :=
  (in_range 0 31 c || N.eqb c 127 || existsb (N.eqb c) separators
   || N.eqb c 32 || N.eqb c 9 || N.eqb c 92 || N.eqb c 34)%bool.

Definition HEADER_RE_search (s : str) : bool := existsb HEADER_RE_class s.

(** [curr.split(":", 1)] for a line that holds a colon. *)
Definition split_colon (curr : str) : str * str :=
  let i := find (lit ":") curr in
  (slice_to curr i, slice_from curr (i + 1)).

Definition starts_with_sp_tab (l : str) : bool :=
  (startswith (lit " ") l || startswith [9%N] l)%bool.

(** The inner loop, which takes the continuation lines of the current
    field: it returns the lines left, the length of the field and the
    pieces of its value. *)
Fixpoint continuation_lines (lines : list str) (header_length : Z)
         (value : list str) : M (list str * Z * list str) :=
  match lines with
  | curr :: lines' =>
      if starts_with_sp_tab curr then
        let header_length := header_length + len curr in
        lrfs <- gets limit_request_field_size ;;
        if (lrfs <? header_length) && (0 <? lrfs) then
          raise (LimitRequestHeaders "limit request headers fields size")
        else continuation_lines lines' header_length (value ++ [curr])
      else ret (lines, header_length, value)
  | [] => ret (lines, header_length, value)
  end.

(** What a matching scheme header does: [scheme_header] says whether an
    earlier header of this pass has set the scheme. *)
Definition scheme_step (secure_scheme_headers : list (str * str))
           (name value : str) (scheme_header : bool) : M bool :=
  match dict_get name secure_scheme_headers with
  | Some secure_value =>
      let secure := str_eqb value secure_value in
      let scheme' := if secure then lit "https" else lit "http" in
      if scheme_header then
        current <- gets scheme ;;
        if negb (str_eqb scheme' current) then raise InvalidSchemeHeaders
        else ret scheme_header
      else
        modify (set_scheme scheme') ;;
        ret true
  | None => ret scheme_header
  end.

(** One field: the name and the value made from the line [curr] and
    from the continuation lines that follow it, and the lines left. *)
Definition header_field (curr : str) (lines : list str)
  : M (str * str * list str) :=
  let header_length := len curr in
  if find (lit ":") curr <? 0 then raise (InvalidHeader (strip curr))
  else
    let '(name, value) := split_colon curr in
    strip_spaces <- gets (fun m => Cfg.strip_header_spaces (cfg m)) ;;
    let name :=
      if strip_spaces then upper (rstrip_sp_tab name) else upper name in
    if HEADER_RE_search name then raise (InvalidHeaderName name)
    else
      let name := strip name in
      '(lines, header_length, value) <-
        continuation_lines lines header_length [lstrip value] ;;
      let value := rstrip (List.concat value) in
      lrfs <- gets limit_request_field_size ;;
      if (lrfs <? header_length) && (0 <? lrfs) then
        raise (LimitRequestHeaders "limit request headers fields size")
      else ret (name, value, lines).

Fixpoint parse_headers_loop (fuel : nat)
         (secure_scheme_headers : list (str * str))
         (lines : list str) (headers : list (str * str))
         (scheme_header : bool) : M (list (str * str)) :=
  match lines with
  | [] => ret headers
  | curr :: lines =>
      match fuel with
      | O => out_of_fuel
      | S fuel =>
          lrf <- gets limit_request_fields ;;
          if lrf <=? len headers then
            raise (LimitRequestHeaders "limit request headers fields")
          else
            '(name, value, lines) <- header_field curr lines ;;
            scheme_header <-
              scheme_step secure_scheme_headers name value scheme_header ;;
            parse_headers_loop fuel secure_scheme_headers lines
              (headers ++ [(name, value)]) scheme_header
      end
  end.

Definition is_tuple (a : address) : bool :=
  match a with Inet _ _ => true | Unix _ => false end.

(** [peer_addr[0] in ips] for a tuple [peer_addr]. *)
Definition host_in (a : address) (ips : list str) : bool :=
  match a with Inet host _ => str_in host ips | Unix _ => false end.

(** Whether this pass honours the scheme headers of the configuration. *)
Definition scheme_headers_trusted (m : Message) : bool :=
  (str_in (lit "*") (Cfg.forwarded_allow_ips (cfg m))
   || negb (is_tuple (peer_addr m))
   || host_in (peer_addr m) (Cfg.forwarded_allow_ips (cfg m)))%bool.

Definition header_lines (data : bytes) : list str :=
  map (fun line => bytes_to_str line ++ CRLF) (split_crlf [] data).

(** The scheme headers that this pass honours. *)
Definition trusted_scheme_headers (m : Message) : list (str * str) :=
  if scheme_headers_trusted m then Cfg.secure_scheme_headers (cfg m)
  else [].

Definition parse_headers (data : bytes) : M (list (str * str)) :=
  let lines := header_lines data in
  secure_scheme_headers <- gets trusted_scheme_headers ;;
  parse_headers_loop (List.length lines) secure_scheme_headers lines []
                     false.

(** *** The byte source *)

Definition unreader_read : M bytes :=
  fun m =>
    let u := unreader m in
    match unread_buf u with
    | _ :: _ =>
        (Return (unread_buf u),
         set_unreader {| unread_buf := []; chunks := chunks u |} m)
    | [] =>
        match chunks u with
        | d :: rest =>
            (Return d, set_unreader {| unread_buf := []; chunks := rest |} m)
        | [] => (Return [], m)
        end
    end.

Definition unreader_unread (data : bytes) : M unit :=
  modify (fun m =>
    set_unreader {| unread_buf := unread_buf (unreader m) ++ data;
                    chunks := chunks (unreader m) |} m).

(** The number of reads that the byte source can still answer. *)
Definition pending_reads (u : Unreader) : nat :=
  (match unread_buf u with [] => 0 | _ => 1 end + List.length (chunks u))%nat.

(** *** Request.get_data: [buf] with the next read written to it *)
Definition get_data (buf : bytes) (stop : bool) : M bytes :=
  data <- unreader_read ;;
  match data with
  | [] => if stop then raise StopIteration else raise (NoMoreData buf)
  | _ => ret (buf ++ data)
  end.

(** *** Request.read_line *)
Fixpoint read_line_loop (fuel : nat) (buf : bytes) (limit : Z)
  : M (bytes * bytes) :=
  let data := buf in
  let idx := find CRLF data in
  if 0 <=? idx then
    if (limit <? idx) && (0 <? limit) then raise (LimitRequestLine idx limit)
    else ret (slice_to data idx, slice_from data (idx + 2))
  else if (limit <? len data - 2) && (0 <? limit) then
    raise (LimitRequestLine (len data) limit)
  else
    match fuel with
    | O => out_of_fuel
    | S fuel =>
        buf <- get_data buf false ;;
        read_line_loop fuel buf limit
    end.

Definition read_line (buf : bytes) (limit : Z) : M (bytes * bytes) :=
  fun m => read_line_loop (S (pending_reads (unreader m))) buf limit m.

(** *** Request.proxy_protocol_access_check *)
Definition proxy_protocol_access_check : M unit :=
  allow <- gets (fun m => Cfg.proxy_allow_ips (cfg m)) ;;
  peer <- gets peer_addr ;;
  match peer with
  | Inet host _ =>
      if negb (str_in (lit "*") allow) && negb (str_in host allow)
      then raise (ForbiddenProxyRequest host)
      else ret tt
  | Unix _ => ret tt
  end.

(** *** Request.parse_request_line, regular expressions *)

(** The class of [METH_RE], [[A-Z0-9$-_.]]: inside the brackets [$-_] is
    the range from the dollar sign to the underscore. *)
Definition METH_RE_class (c : char) : bool :=
  (in_range 65 90 c || in_range 48 57 c || in_range 36 95 c
   || N.eqb c 46)%bool.

(** How many characters at the start of [s] a class takes, at most [n]. *)
Fixpoint class_prefix (cls : char -> bool) (n : nat) (s : str) : nat :=
  match n, s with
  | S n', c :: s' => if cls c then S (class_prefix cls n' s') else O
  | _, _ => O
  end.

(** [METH_RE.match(s)]: the text matched at the start of [s], if any. *)
Definition METH_RE_match (s : str) : option str :=
  let n := class_prefix METH_RE_class 20 s in
  if (3 <=? n)%nat then Some (firstn n s) else None.

Fixpoint span_digits (s : str) : str * str :=
  match s with
  | c :: s' =>
      if is_digit c then let '(d, r) := span_digits s' in (c :: d, r)
      else ([], s)
  | [] => ([], [])
  end.

(** [VERSION_RE.match(s)]: the two groups of [HTTP/(\d+)\.(\d+)]. *)
Definition VERSION_RE_match (s : str) : option (str * str) :=
  if startswith (lit "HTTP/") s then
    let '(major, r) := span_digits (skipn 5 s) in
    match major, r with
    | _ :: _, c :: r' =>
        if N.eqb c 46 then
          let '(minor, _) := span_digits r' in
          match minor with
          | _ :: _ => Some (major, minor)
          | [] => None
          end
        else None
    | _, _ => None
    end
  else None.

Inductive family := AF_INET | AF_INET6.

Section Externals.

(** [gunicorn.util.split_request_uri]: the path, the query and the
    fragment of a request target, [None] for [ValueError]. *)
Variable split_request_uri : str -> option (str * str * str).

(** [socket.inet_pton(family, text)] on a text without a NUL character:
    [true] when it returns, [false] when it raises [socket.error]. *)
Variable inet_pton : family -> str -> bool.

(** *** Request.parse_proxy_protocol *)

(** One call of [socket.inet_pton] inside the [try]: a text that holds a
    NUL character raises [ValueError] when the arguments are read, which
    [except socket.error] does not catch; [socket.error] becomes
    [InvalidProxyLine]. *)
Definition check_address (f : family) (text line : str) : M unit :=
  if existsb (N.eqb 0) text then raise ValueError
  else if inet_pton f text then ret tt
  else raise (InvalidProxyLine line).

Definition parse_proxy_protocol (line : str) : M unit :=
  match str_split line with
  | [_; proto; s_addr; d_addr; bits4; bits5] =>
      if negb (str_in proto [lit "TCP4"; lit "TCP6"]) then
        raise (InvalidProxyLine
                 (lit "protocol '" ++ proto ++ lit "' not supported"))
      else
        (if str_eqb proto (lit "TCP4") then
           check_address AF_INET s_addr line ;;
           check_address AF_INET d_addr line
         else if str_eqb proto (lit "TCP6") then
           check_address AF_INET6 s_addr line ;;
           check_address AF_INET6 d_addr line
         else ret tt) ;;
        match int bits4, int bits5 with
        | Some s_port, Some d_port =>
            if negb ((0 <=? s_port) && (s_port <=? 65535)
                     && ((0 <=? d_port) && (d_port <=? 65535))) then
              raise (InvalidProxyLine (lit "invalid port " ++ line))
            else
              modify (set_proxy_protocol_info
                (Some {| info_proxy_protocol := proto;
                         client_addr := s_addr;
                         client_port := s_port;
                         proxy_addr := d_addr;
                         proxy_port := d_port |}))
        | _, _ => raise (InvalidProxyLine (lit "invalid port " ++ line))
        end
  | _ => raise (InvalidProxyLine line)
  end.

(** *** Request.proxy_protocol *)
Definition proxy_protocol (line : str) : M bool :=
  enabled <- gets (fun m => Cfg.proxy_protocol (cfg m)) ;;
  if negb enabled then ret false
  else
    n <- gets req_number ;;
    if negb (n =? 1) then ret false
    else if negb (startswith (lit "PROXY") line) then ret false
    else
      proxy_protocol_access_check ;;
      parse_proxy_protocol line ;;
      ret true.

(** *** Request.parse_request_line *)
Definition parse_request_line (line_bytes : bytes) : M unit :=
  match map bytes_to_str (bytes_split_max 2 line_bytes) with
  | [bits0; bits1; bits2] =>
      match METH_RE_match bits0 with
      | None => raise (InvalidRequestMethod bits0)
      | Some _ =>
          modify (set_method (Some (upper bits0))) ;;
          modify (set_uri (Some bits1)) ;;
          match split_request_uri bits1 with
          | None => raise (InvalidRequestLine (bytes_to_str line_bytes))
          | Some (p, q, f) =>
              modify (set_parts (Some p) (Some q) (Some f)) ;;
              match VERSION_RE_match bits2 with
              | None => raise (InvalidHTTPVersion bits2)
              | Some (major, minor) =>
                  match int major, int minor with
                  | Some a, Some b => modify (set_version (Some (a, b)))
                  | _, _ => raise ValueError
                  end
              end
          end
      end
  | _ => raise (InvalidRequestLine (bytes_to_str line_bytes))
  end.

(** *** Request.parse *)

(** The loop that gathers the header block: it returns [data]. *)
Fixpoint parse_header_loop (fuel : nat) (buf : bytes) : M bytes :=
  let data := buf in
  let idx := find (CRLF ++ CRLF) data in
  let done := str_eqb (slice_to data 2) CRLF in
  if (idx <? 0) && negb done then
    match fuel with
    | O => out_of_fuel
    | S fuel =>
        buf <- get_data buf false ;;
        let data := buf in
        limit <- gets max_buffer_headers ;;
        if limit <? len data then
          raise (LimitRequestHeaders "max buffer headers")
        else parse_header_loop fuel buf
    end
  else ret data.

Definition parse : M bytes :=
  buf <- get_data [] true ;;
  limit <- gets limit_request_line ;;
  '(line, rbuf) <- read_line buf limit ;;
  is_proxy <- proxy_protocol (bytes_to_str line) ;;
  '(line, rbuf) <- (if is_proxy then read_line rbuf limit
                    else ret (line, rbuf)) ;;
  parse_request_line line ;;
  pending <- gets (fun m => pending_reads (unreader m)) ;;
  data <- parse_header_loop (S pending) rbuf ;;
  let idx := find (CRLF ++ CRLF) data in
  let done := str_eqb (slice_to data 2) CRLF in
  if done then
    unreader_unread (slice_from data 2) ;;
    ret []
  else
    hs <- parse_headers (slice_to data idx) ;;
    modify (set_headers hs) ;;
    ret (slice_from data (idx + 4)).

(** *** Message.__init__ and Request.__init__ *)

Definition init_limit_request_fields (c : Cfg.t) : Z :=
  if (Cfg.limit_request_fields c <=? 0)
     || (MAX_HEADERS <? Cfg.limit_request_fields c)
  then MAX_HEADERS else Cfg.limit_request_fields c.

Definition init_limit_request_field_size (c : Cfg.t) : Z :=
  if Cfg.limit_request_field_size c <? 0
  then DEFAULT_MAX_HEADERFIELD_SIZE else Cfg.limit_request_field_size c.

Definition init_max_buffer_headers (c : Cfg.t) : Z :=
  let max_header_field_size :=
    if init_limit_request_field_size c =? 0
    then DEFAULT_MAX_HEADERFIELD_SIZE
    else init_limit_request_field_size c in
  init_limit_request_fields c * (max_header_field_size + 2) + 4.

Definition init_limit_request_line (c : Cfg.t) : Z :=
  if (Cfg.limit_request_line c <? 0)
     || (MAX_REQUEST_LINE <=? Cfg.limit_request_line c)
  then MAX_REQUEST_LINE else Cfg.limit_request_line c.

(** [self] when [Message.__init__] reaches [self.parse]. *)
Definition new_request (c : Cfg.t) (u : Unreader) (peer : address)
           (number : Z) : Message :=
  {| cfg := c; unreader := u; peer_addr := peer; remote_addr := peer;
     version := None; headers := []; trailers := []; body := None;
     scheme := if Cfg.is_ssl c then lit "https" else lit "http";
     must_close := false;
     limit_request_fields := init_limit_request_fields c;
     limit_request_field_size := init_limit_request_field_size c;
     max_buffer_headers := init_max_buffer_headers c;
     method := None; uri := None; path := None; query := None;
     fragment := None;
     limit_request_line := init_limit_request_line c;
     req_number := number; proxy_protocol_info := None |}.

Definition Request_init (c : Cfg.t) (u : Unreader) (peer : address)
           (number : Z) : outcome unit * Message :=
  (unused <- parse ;;
   unreader_unread unused ;;
   Request_set_body_reader) (new_request c u peer number).

End Externals.


(** ** Vocabulary of the statements *)

Definition has_name (n : str) (h : str * str) : bool := str_eqb (fst h) n.

(** How many fields of a header list carry the name [n]. *)
Definition count_name (n : str) (hs : list (str * str)) : nat :=
  List.length (filter (has_name n) hs).

(** A text made of decimal digits, at least one. *)
Definition all_digits (s : str) : bool :=
  match s with
  | [] => false
  | _ => forallb is_digit s
  end.

(** The number that a text of decimal digits writes. *)
Definition digits_value (s : str) : Z :=
  fold_left (fun acc c => 10 * acc + Z.of_N (c - 48)) s 0.

(** A Transfer-Encoding value that the scan passes over without setting
    [chunked]: [identity] in any letter case, and the empty value when
    [tolerate_dangerous_framing] is on. *)
Definition passes_unchunked (tolerate : bool) (value : str) : bool :=
  (str_eqb (lower value) (lit "identity")
   || (tolerate && str_eqb value []))%bool.

(** The Transfer-Encoding fields of a header list all pass. *)
Definition transfer_encodings_pass (tolerate : bool)
           (hs : list (str * str)) : bool :=
  forallb (fun h => (negb (has_name (lit "TRANSFER-ENCODING") h)
                     || passes_unchunked tolerate (snd h))%bool) hs.

(** A Transfer-Encoding value of the last branch of the scan. *)
Definition other_coding (value : str) : bool :=
  (negb (str_eqb (lower value) (lit "chunked"))
   && negb (str_eqb (lower value) (lit "identity"))
   && negb (str_eqb (lower value) (lit "")))%bool.

(** The scan changes nothing of [self] but [must_close], which it only
    ever sets. *)
Definition closed_or_same (m m' : Message) : Prop :=
  m' = m \/ m' = set_must_close true m.

(** The errors that the scan of the headers raises. *)
Definition scan_error (e : error) : Prop :=
  e = InvalidHeader (lit "CONTENT-LENGTH")
  \/ e = InvalidHeader (lit "TRANSFER-ENCODING")
  \/ exists value, e = UnsupportedTransferCoding value.

(** The scheme that a field calls for, if its name is one of the scheme
    headers. *)
Definition derived_scheme (secure_scheme_headers : list (str * str))
           (h : str * str) : option str :=
  match dict_get (fst h) secure_scheme_headers with
  | Some secure_value =>
      Some (if str_eqb (snd h) secure_value then lit "https" else lit "http")
  | None => None
  end.

(** The scheme that the first scheme header of a header list calls for. *)
Fixpoint first_derived (secure_scheme_headers : list (str * str))
         (hs : list (str * str)) : option str :=
  match hs with
  | [] => None
  | h :: hs' =>
      match derived_scheme secure_scheme_headers h with
      | Some s => Some s
      | None => first_derived secure_scheme_headers hs'
      end
  end.

(** The header block is complete: it holds the blank line, or it starts
    with the end of a line. *)
Definition block_complete (data : bytes) : bool :=
  negb ((find (CRLF ++ CRLF) data <? 0)
        && negb (str_eqb (slice_to data 2) CRLF)).

(** The errors that the loop gathering the header block raises. *)
Definition gather_error (e : error) : Prop :=
  e = LimitRequestHeaders "max buffer headers"
  \/ exists b, e = NoMoreData b.

(** The address family of a protocol tag of the PROXY line. *)
Definition proxy_family (proto : str) : option family :=
  if str_eqb proto (lit "TCP4") then Some AF_INET
  else if str_eqb proto (lit "TCP6") then Some AF_INET6
  else None.

(** A method that never runs out of fuel: it returns or raises. *)
Definition total {A} (c : M A) : Prop :=
  forall m, fst (c m) <> OutOfFuel.

(** A method keeps a relation between [self] before it and [self] after
    it, whether it returns or raises. *)
Definition keeps {A} (R : Message -> Message -> Prop) (c : M A) : Prop :=
  forall m r m', c m = (r, m') -> R m m'.

(** [m'] is [m] but for the body and for [must_close], which is not
    cleared. *)
Definition framing_only (m m' : Message) : Prop :=
  exists b c,
    m' = set_body b (set_must_close c m)
    /\ (must_close m = true -> c = true).

(** The bytes that the byte source has yet to give, in order. *)
Definition source_bytes (u : Unreader) : bytes :=
  unread_buf u ++ List.concat (chunks u).

(** [m'] has the byte source of [m]. *)
Definition same_unreader (m m' : Message) : Prop := unreader m' = unreader m.

(** The text [p] does not occur in [s]. *)
Definition absent (p s : str) : Prop := forall a b, s <> a ++ p ++ b.

(** A field as parse_headers returns it: a name without the characters
    of [HEADER_RE] and without lowercase ASCII letters, and a value that
    does not end with white space and, under a field size limit that is
    not 0, is shorter than the limit. *)
Definition field_ok (field_size : Z) (h : str * str) : Prop :=
  HEADER_RE_search (fst h) = false
  /\ forallb (fun c => negb (in_range 97 122 c)) (fst h) = true
  /\ rstrip (snd h) = snd h
  /\ (0 < field_size -> len (snd h) < field_size).

(** [m'] is [m] but for the byte source, the headers, the scheme, the
    body and [must_close]: the attributes that reading and parsing the
    header block decide. *)
Definition block_only (m m' : Message) : Prop :=
  exists u h s b c,
    m' = set_body b (set_must_close c (set_scheme s
           (set_headers h (set_unreader u m)))).

(** A method that raises only errors with the property [P]. *)
Definition raises_only {A} (P : error -> Prop) (c : M A) : Prop :=
  forall m e m', c m = (Raise e, m') -> P e.

(** The access check of the PROXY line lets the peer pass. *)
Definition proxy_allowed (c : Cfg.t) (peer : address) : bool :=
  match peer with
  | Inet host _ =>
      str_in (lit "*") (Cfg.proxy_allow_ips c)
      || str_in host (Cfg.proxy_allow_ips c)
  | Unix _ => true
  end.

(** What parse_proxy_protocol has checked of the ProxyInfo it records. *)
Definition proxy_info_ok (inet_pton : family -> str -> bool)
           (info : ProxyInfo) : Prop :=
  (exists f, proxy_family (info_proxy_protocol info) = Some f
             /\ inet_pton f (client_addr info) = true
             /\ inet_pton f (proxy_addr info) = true)
  /\ 0 <= client_port info <= 65535
  /\ 0 <= proxy_port info <= 65535.

(** [m'] is the request [m] of the same connection, and its ProxyInfo is
    that of [m] unless the PROXY line was enabled, [m] the first request
    and the peer allowed. *)
Definition proxy_gate (inet_pton : family -> str -> bool)
           (m m' : Message) : Prop :=
  cfg m' = cfg m /\ peer_addr m' = peer_addr m
  /\ req_number m' = req_number m
  /\ (proxy_protocol_info m' = proxy_protocol_info m
      \/ (Cfg.proxy_protocol (cfg m) = true
          /\ req_number m = 1
          /\ proxy_allowed (cfg m) (peer_addr m) = true
          /\ exists info, proxy_protocol_info m' = Some info
                          /\ proxy_info_ok inet_pton info)).

(** The attributes that parse_request_line sets, all set: the method in
    upper case, the target and the parts it splits into, and a version of
    two numbers. *)
Definition request_line_set (split_request_uri : str -> option (str * str * str))
           (m : Message) : Prop :=
  exists meth target p q f a b,
    method m = Some meth
    /\ 3 <= len meth
    /\ forallb (fun c => negb (in_range 97 122 c)) meth = true
    /\ uri m = Some target
    /\ split_request_uri target = Some (p, q, f)
    /\ path m = Some p /\ query m = Some q /\ fragment m = Some f
    /\ version m = Some (a, b) /\ 0 <= a /\ 0 <= b.

(** [m'] is [m] but for the byte source. *)
Definition source_only (m m' : Message) : Prop :=
  exists u, m' = set_unreader u m.

(** [m'] has the limit on the number of fields that [m] has, and either
    the headers of [m] or headers within that limit. *)
Definition fields_within (m m' : Message) : Prop :=
  limit_request_fields m' = limit_request_fields m
  /\ (headers m' = headers m
      \/ len (headers m') <= limit_request_fields m).

(** A field written as a header line, [name: value]. *)
Definition field_line (h : str * str) : str := fst h ++ lit ": " ++ snd h.

(** A header block written from its lines: the lines joined by CRLF. *)
Fixpoint join_crlf (lines : list str) : bytes :=
  match lines with
  | [] => []
  | l :: ls =>
      match ls with
      | [] => l
      | _ :: _ => l ++ CRLF ++ join_crlf ls
      end
  end.

(** A field in the form in which parse_headers gives fields: a name in
    upper case without the characters of [HEADER_RE], a name and a value
    without white space at either end, and no carriage return in the
    value. *)
Definition canonical_field (h : str * str) : bool :=
  str_eqb (upper (fst h)) (fst h)
  && negb (HEADER_RE_search (fst h))
  && str_eqb (lstrip (fst h)) (fst h)
  && str_eqb (rstrip (fst h)) (fst h)
  && str_eqb (lstrip (snd h)) (snd h)
  && str_eqb (rstrip (snd h)) (snd h)
  && forallb (fun c => negb (N.eqb c 13)) (snd h).

(** The line of a field, with its line end, is within a limit on the
    size of a field; a limit of 0 is no limit. *)
Definition field_fits (field_size : Z) (h : str * str) : bool :=
  (field_size <=? 0) || (len (field_line h) + 2 <=? field_size).

(** A request line written from a method, a target and the two numbers
    of the version. *)
Definition request_line (meth target major minor : str) : bytes :=
  meth ++ lit " " ++ target ++ lit " " ++ lit "HTTP/" ++ major ++ lit "."
  ++ minor.

(** The head of a request written from its parts: the request line, one
    line for each field, and the blank line. *)
Definition request_head (meth target major minor : str)
           (fields : list (str * str)) : bytes :=
  request_line meth target major minor ++ CRLF
  ++ List.concat (map (fun h => field_line h ++ CRLF) fields) ++ CRLF.

(** ** Sample values for the examples *)

(** The settings that gunicorn ships with, except the three that the
    examples vary. *)
Definition sample_cfg (fields field_size : Z) (tolerate : bool) : Cfg.t :=
  {| Cfg.is_ssl := false;
     Cfg.limit_request_fields := fields;
     Cfg.limit_request_field_size := field_size;
     Cfg.limit_request_line := 4094;
     Cfg.strip_header_spaces := false;
     Cfg.forwarded_allow_ips := [lit "127.0.0.1"];
     Cfg.secure_scheme_headers :=
       [(lit "X-FORWARDED-PROTOCOL", lit "ssl");
        (lit "X-FORWARDED-PROTO", lit "https");
        (lit "X-FORWARDED-SSL", lit "on")];
     Cfg.proxy_protocol := true;
     Cfg.proxy_allow_ips := [lit "127.0.0.1"];
     Cfg.tolerate_dangerous_framing := tolerate |}.

Definition sample_peer : address := Inet (lit "127.0.0.1") 40000.

(** A request of the given version and headers, as [parse] leaves it. *)
Definition sample_message (tolerate : bool) (ver : Z * Z)
           (hs : list (str * str)) : Message :=
  set_headers hs
    (set_version (Some ver)
       (new_request (sample_cfg 100 8190 tolerate)
          {| unread_buf := []; chunks := [] |} sample_peer 1)).

(** A stand-in for [split_request_uri] on targets that are a path. *)
Definition uri_as_path (s : str) : option (str * str * str) :=
  Some (s, [], []).

(** The IPv4 literals that [inet_pton] takes: four numbers up to 255
    separated by dots, without leading zeros. *)
Fixpoint dotted_quad (saw_digit : bool) (octets : nat) (cur : N) (s : str)
  : bool :=
  match s with
  | [] => Nat.eqb octets 4
  | ch :: s' =>
      if is_digit ch then
        let new := (cur * 10 + (ch - 48))%N in
        if (saw_digit && N.eqb cur 0)%bool then false
        else if N.ltb 255 new then false
        else if saw_digit then dotted_quad true octets new s'
        else if (4 <=? octets)%nat then false
        else dotted_quad true (S octets) new s'
      else if (N.eqb ch 46 && saw_digit)%bool then
        if Nat.eqb octets 4 then false else dotted_quad false octets 0 s'
      else false
  end.

(** A stand-in for [inet_pton] in the examples, which use TCP4 lines
    only. *)
Definition inet_pton_ipv4 (f : family) (s : str) : bool :=
  match f with
  | AF_INET => dotted_quad false 0 0 s
  | AF_INET6 => false
  end.

Definition proxy_line : str :=
  lit "PROXY TCP4 192.168.0.1 192.168.0.11 56324 443".


(** A request on a connection: the first message, before [parse]. *)
Definition sample_request (fields field_size : Z) (chunks : list bytes)
  : Message :=
  new_request (sample_cfg fields field_size false)
    {| unread_buf := []; chunks := chunks |} sample_peer 1.

Definition host_block : bytes :=
  lit "Host: example.org" ++ CRLF ++ CRLF.

Definition get_with_host : bytes :=
  lit "GET / HTTP/1.1" ++ CRLF ++ host_block.

Definition two_scheme_headers (ssl : string) : bytes :=
  lit "X-Forwarded-Proto: https" ++ CRLF ++ lit "X-Forwarded-Ssl: " ++ lit ssl.

Definition long_header_chunk : bytes := lit "X-Long-Header: 0123456789".

Definition proxy_then_get : bytes :=
  proxy_line ++ CRLF ++ lit "GET / HTTP/1.1" ++ CRLF ++ CRLF.

Definition get_with_folded_header : bytes :=
  lit "GET / HTTP/1.1" ++ CRLF ++ lit "X-A: v1" ++ CRLF
  ++ lit " X-A-cont" ++ CRLF ++ CRLF.

(** [Request.__init__] on a first message that arrives in one chunk, with
    the sample settings and the sample peer. *)
Definition sample_init (data : bytes) : outcome unit * Message :=
  Request_init uri_as_path inet_pton_ipv4 (sample_cfg 100 8190 false)
    {| unread_buf := []; chunks := [data] |} sample_peer 1.

Definition chunked_only (tolerate : bool) (ver : Z * Z) : Message :=
  sample_message tolerate ver
    [(lit "HOST", lit "example.org"); (lit "TRANSFER-ENCODING", lit "Chunked")].

Definition chunked_twice : Message :=
  sample_message false (1, 1)
    [(lit "TRANSFER-ENCODING", lit "chunked");
     (lit "TRANSFER-ENCODING", lit "chunked")].

Definition upgrade_then_close : Message :=
  sample_message false (1, 1)
    [(lit "CONNECTION", lit "upgrade"); (lit "CONNECTION", lit "close")].

Definition keep_alive_http10 : Message :=
  sample_message false (1, 0) [(lit "CONNECTION", lit " Keep-Alive ")].

Definition CL_TE_http10 : Message :=
  sample_message false (1, 0)
    [(lit "TRANSFER-ENCODING", lit "chunked"); (lit "CONTENT-LENGTH", lit "5")].

Definition CL_TE_http11 (tolerate : bool) : Message :=
  sample_message tolerate (1, 1)
    [(lit "TRANSFER-ENCODING", lit "chunked"); (lit "CONTENT-LENGTH", lit "5")].

Definition CL_gzip : Message :=
  sample_message false (1, 1)
    [(lit "CONTENT-LENGTH", lit "10"); (lit "TRANSFER-ENCODING", lit "gzip")].

Definition CL_10 : Message :=
  sample_message false (1, 1)
    [(lit "HOST", lit "example.org"); (lit "CONTENT-LENGTH", lit "10")].

Definition CL_twice : Message :=
  sample_message false (1, 1)
    [(lit "CONTENT-LENGTH", lit "3"); (lit "HOST", lit "example.org");
     (lit "CONTENT-LENGTH", lit "3")].

Definition no_framing : Message :=
  sample_message false (1, 1)
    [(lit "HOST", lit "example.org"); (lit "ACCEPT", lit "*/*")].

Definition TE_gzip (tolerate : bool) : Message :=
  sample_message tolerate (1, 1)
    [(lit "HOST", lit "example.org"); (lit "TRANSFER-ENCODING", lit "gzip")].

Definition keep_alive_then_close : Message :=
  sample_message false (1, 1)
    [(lit "CONNECTION", lit "keep-alive"); (lit "CONNECTION", lit "close")].

Definition close_http11 : Message :=
  sample_message false (1, 1)
    [(lit "HOST", lit "example.org"); (lit "CONNECTION", lit "Close")].

Definition closing_CL_10 : Message := set_must_close true CL_10.

Definition two_chunk_request : Message :=
  sample_request 100 8190
    [lit "GET / HT"; lit "TP/1.1" ++ CRLF ++ lit "Host: a"].

Definition pipelined : bytes :=
  lit "GET /a HTTP/1.1" ++ CRLF ++ lit "Host: a" ++ CRLF ++ CRLF
  ++ lit "GET /b HTTP/1.1" ++ CRLF ++ CRLF.

Definition untrusted_peer_request : Message :=
  new_request (sample_cfg 100 8190 false)
    {| unread_buf := []; chunks := [] |} (Inet (lit "10.0.0.7") 40000) 1.

Definition one_header : bytes := lit "x-token:  abc  ".

Definition two_fields : list (str * str) :=
  [(lit "HOST", lit "example.org"); (lit "ACCEPT", lit "text/html, */*")].

(** Settings of a server that clients reach directly: no PROXY line. *)
Definition direct_cfg : Cfg.t :=
  {| Cfg.is_ssl := false;
     Cfg.limit_request_fields := 100;
     Cfg.limit_request_field_size := 8190;
     Cfg.limit_request_line := 4094;
     Cfg.strip_header_spaces := false;
     Cfg.forwarded_allow_ips := [lit "127.0.0.1"];
     Cfg.secure_scheme_headers :=
       [(lit "X-FORWARDED-PROTOCOL", lit "ssl");
        (lit "X-FORWARDED-PROTO", lit "https");
        (lit "X-FORWARDED-SSL", lit "on")];
     Cfg.proxy_protocol := false;
     Cfg.proxy_allow_ips := [lit "127.0.0.1"];
     Cfg.tolerate_dangerous_framing := false |}.

(** ** Proofs *)

Lemma str_eqb_refl (a : str) : str_eqb a a = true.
Proof.
  induction a as [|x a IH]; simpl; [reflexivity|].
  now rewrite N.eqb_refl, IH.
Qed.

Lemma str_eqb_eq (a b : str) : str_eqb a b = true <-> a = b.
Proof.
  split.
  - revert b; induction a as [|x a IH]; intros [|y b] H; simpl in H;
      try discriminate; [reflexivity|].
    apply andb_true_iff in H as [Hx Ha].
    apply N.eqb_eq in Hx. apply IH in Ha. now subst.
  - intros ->. apply str_eqb_refl.
Qed.

Lemma str_eqb_neq (a b : str) : str_eqb a b = false <-> a <> b.
Proof.
  rewrite <- str_eqb_eq. destruct (str_eqb a b); split; congruence.
Qed.

(** *** The scan of set_body_reader *)

Lemma scan_headers_app hs1 hs2 c cl m :
  scan_headers (hs1 ++ hs2) c cl m =
  match scan_headers hs1 c cl m with
  | (Return (c', cl'), m') => scan_headers hs2 c' cl' m'
  | (Raise e, m') => (Raise e, m')
  | (OutOfFuel, m') => (OutOfFuel, m')
  end.
Proof.
  revert c cl m. induction hs1 as [|[n v] hs1 IH]; intros c cl m.
  - reflexivity.
  - simpl. unfold bind.
    destruct (scan_header n v c cl m) as [[[c' cl']|e|] m']; auto.
Qed.

(** A field that is neither Content-Length nor Transfer-Encoding is
    passed over. *)
Lemma scan_header_other n v c cl m :
  str_eqb n (lit "CONTENT-LENGTH") = false ->
  str_eqb n (lit "TRANSFER-ENCODING") = false ->
  scan_header n v c cl m = (Return (c, cl), m).
Proof. intros H1 H2. unfold scan_header. now rewrite H1, H2. Qed.


Lemma scan_header_content_length v c cl m :
  scan_header (lit "CONTENT-LENGTH") v c cl m =
  match cl with
  | Some _ => (Raise (InvalidHeader (lit "CONTENT-LENGTH")), m)
  | None => (Return (c, Some v), m)
  end.
Proof. destruct cl; reflexivity. Qed.

Lemma scan_header_other_coding v c cl m :
  other_coding v = true ->
  scan_header (lit "TRANSFER-ENCODING") v c cl m =
  (Raise (UnsupportedTransferCoding v), set_must_close true m).
Proof.
  unfold other_coding. rewrite !andb_true_iff, !negb_true_iff.
  intros [[H1 H2] H3]. unfold scan_header.
  change (str_eqb (lit "TRANSFER-ENCODING") (lit "CONTENT-LENGTH"))
    with false.
  rewrite str_eqb_refl, H1, H2, H3. reflexivity.
Qed.

Lemma scan_header_empty_coding c cl m :
  scan_header (lit "TRANSFER-ENCODING") [] c cl m =
  if Cfg.tolerate_dangerous_framing (cfg m)
  then (Return (c, cl), set_must_close true m)
  else (Raise (UnsupportedTransferCoding []), set_must_close true m).
Proof.
  unfold scan_header, bind, force_close, modify, gets, raise, ret. simpl.
  destruct (Cfg.tolerate_dangerous_framing (cfg m)); reflexivity.
Qed.

Lemma closed_or_same_trans m1 m2 m3 :
  closed_or_same m1 m2 -> closed_or_same m2 m3 -> closed_or_same m1 m3.
Proof.
  unfold closed_or_same. intros [->| ->] [->| ->]; auto.
Qed.

Lemma scan_header_state n v c cl m r m' :
  scan_header n v c cl m = (r, m') -> closed_or_same m m'.
Proof.
  unfold scan_header, closed_or_same, bind, force_close, modify, gets,
    raise, ret.
  repeat match goal with
         | |- context [if ?b then _ else _] => destruct b
         | |- context [match ?x with Some _ => _ | None => _ end] =>
             destruct x
         end; intros H; inversion H; auto.
Qed.

Lemma scan_headers_state hs c cl m r m' :
  scan_headers hs c cl m = (r, m') -> closed_or_same m m'.
Proof.
  revert c cl m. induction hs as [|[n v] hs IH]; intros c cl m H.
  - inversion H. now left.
  - simpl in H. unfold bind in H.
    destruct (scan_header n v c cl m) as [[[c' cl']|e|] m1] eqn:E;
      apply scan_header_state in E.
    + eapply closed_or_same_trans; eauto.
    + now inversion H; subst.
    + now inversion H; subst.
Qed.

Lemma closed_or_same_cfg m m' : closed_or_same m m' -> cfg m' = cfg m.
Proof. now intros [->| ->]. Qed.

Lemma closed_or_same_version m m' :
  closed_or_same m m' -> version m' = version m.
Proof. now intros [->| ->]. Qed.

Lemma closed_or_same_headers m m' :
  closed_or_same m m' -> headers m' = headers m.
Proof. now intros [->| ->]. Qed.

(** The scan never runs out of fuel: it is a loop over a list. *)
Lemma scan_header_total n v c cl m :
  fst (scan_header n v c cl m) <> OutOfFuel.
Proof.
  unfold scan_header, bind, force_close, modify, gets, raise, ret.
  repeat match goal with
         | |- context [if ?b then _ else _] => destruct b
         | |- context [match ?x with Some _ => _ | None => _ end] =>
             destruct x
         end; simpl; discriminate.
Qed.

Lemma scan_headers_total hs c cl m :
  fst (scan_headers hs c cl m) <> OutOfFuel.
Proof.
  revert c cl m. induction hs as [|[n v] hs IH]; intros c cl m.
  - simpl. discriminate.
  - simpl. unfold bind.
    pose proof (scan_header_total n v c cl m) as T.
    destruct (scan_header n v c cl m) as [[[c' cl']|e|] m1]; simpl in *;
      [apply IH | discriminate | congruence].
Qed.


(** *** Digits *)

Ltac char_arith :=
  unfold isnumeric_char, is_digit, isspace, in_range in *;
  repeat match goal with
         | c : char |- _ => progress change char with N in c
         end;
  repeat rewrite ?andb_true_iff, ?orb_true_iff, ?andb_false_iff,
    ?orb_false_iff, ?negb_true_iff, ?negb_false_iff, ?N.leb_le, ?N.leb_gt,
    ?N.eqb_eq, ?N.eqb_neq in *;
  first [lia | exfalso; lia].

Lemma digit_not_space c : is_digit c = true -> isspace c = false.
Proof. intros H. destruct (isspace c) eqn:E; [char_arith | reflexivity]. Qed.

Lemma digit_numeric c : is_digit c = true -> isnumeric_char c = true.
Proof. intros H. unfold isnumeric_char. now rewrite H. Qed.

Lemma numeric_not_space c : isnumeric_char c = true -> isspace c = false.
Proof. intros H. destruct (isspace c) eqn:E; [char_arith | reflexivity]. Qed.

Lemma numeric_not_sign c :
  isnumeric_char c = true ->
  N.eqb c 43 = false /\ N.eqb c 45 = false /\ N.eqb c 95 = false.
Proof. intros H. repeat split; apply N.eqb_neq; char_arith. Qed.

Lemma lstrip_by_none p s :
  forallb (fun c => negb (p c)) s = true -> lstrip_by p s = s.
Proof.
  destruct s as [|c s]; simpl; [reflexivity|].
  rewrite andb_true_iff, negb_true_iff. now intros [-> _].
Qed.

Lemma rstrip_by_none p s :
  forallb (fun c => negb (p c)) s = true -> rstrip_by p s = s.
Proof.
  intros H. unfold rstrip_by. rewrite lstrip_by_none.
  - apply rev_involutive.
  - rewrite forallb_forall in *. intros c Hc. apply H.
    now apply in_rev.
Qed.

Lemma strip_none s :
  forallb (fun c => negb (isspace c)) s = true -> strip s = s.
Proof.
  intros H. unfold strip, rstrip, lstrip.
  rewrite rstrip_by_none by assumption. now apply lstrip_by_none.
Qed.

Lemma numeric_strip s : forallb isnumeric_char s = true -> strip s = s.
Proof.
  intros H. apply strip_none. rewrite forallb_forall in *.
  intros c Hc. rewrite negb_true_iff. apply numeric_not_space. now apply H.
Qed.

Lemma int_digits_all st acc s :
  forallb is_digit s = true ->
  s <> [] \/ st = IntDigit ->
  int_digits st acc s =
  Some (fold_left (fun a c => 10 * a + Z.of_N (c - 48)) s acc).
Proof.
  revert st acc. induction s as [|c s IH]; intros st acc H Hs.
  - destruct Hs as [Hs| ->]; [congruence | reflexivity].
  - simpl in *. apply andb_true_iff in H as [Hc H]. rewrite Hc.
    apply IH; auto.
Qed.

Lemma int_digits_not_digit st acc s :
  forallb isnumeric_char s = true ->
  forallb is_digit s = false ->
  int_digits st acc s = None.
Proof.
  revert st acc. induction s as [|c s IH]; intros st acc Hn Hd.
  - discriminate.
  - simpl in *. apply andb_true_iff in Hn as [Hc Hn].
    destruct (is_digit c) eqn:E.
    + apply IH; auto.
    + destruct (numeric_not_sign c Hc) as (_ & _ & ->). reflexivity.
Qed.

Lemma all_digits_forallb s :
  all_digits s = true -> s <> [] /\ forallb is_digit s = true.
Proof. destruct s; simpl; [discriminate|]. intros H. split; congruence. Qed.

Lemma isnumeric_all_digits s : all_digits s = true -> isnumeric s = true.
Proof.
  intros H. destruct (all_digits_forallb s H) as [Hs Hd].
  destruct s as [|c s]; [congruence|]. unfold isnumeric.
  rewrite forallb_forall in *. intros x Hx. apply digit_numeric. now apply Hd.
Qed.

Lemma int_numeric s :
  isnumeric s = true ->
  int s = if int_max_str_digits <? count_digits s then None
          else int_digits IntStart 0 s.
Proof.
  intros H. destruct s as [|c s]; [discriminate|].
  unfold isnumeric in H. unfold int. rewrite (numeric_strip _ H).
  cbn [forallb] in H. apply andb_true_iff in H as [Hc _].
  now destruct (numeric_not_sign c Hc) as (-> & -> & _).
Qed.

Lemma count_digits_all s : forallb is_digit s = true -> count_digits s = len s.
Proof.
  intros H. unfold count_digits. f_equal.
  induction s as [|c s IH]; [reflexivity|]. cbn [forallb filter] in *.
  apply andb_true_iff in H as [Hc H]. rewrite Hc. f_equal. now apply IH.
Qed.

(** [int] on a text of decimal digits: its value, unless there are more
    digits than the limit. *)
Lemma int_all_digits_cases s :
  all_digits s = true ->
  int s = if len s <=? int_max_str_digits then Some (digits_value s)
          else None.
Proof.
  intros H. rewrite int_numeric by now apply isnumeric_all_digits.
  destruct (all_digits_forallb s H) as [Hs Hd].
  rewrite (count_digits_all _ Hd), Z.leb_antisym.
  destruct (int_max_str_digits <? len s); [reflexivity|].
  now apply int_digits_all; auto.
Qed.

Lemma int_all_digits s :
  all_digits s = true -> len s <= int_max_str_digits ->
  int s = Some (digits_value s).
Proof.
  intros H L. rewrite (int_all_digits_cases _ H).
  apply Z.leb_le in L. now rewrite L.
Qed.

Lemma int_all_digits_value s n :
  all_digits s = true -> int s = Some n ->
  n = digits_value s /\ len s <= int_max_str_digits.
Proof.
  intros H. rewrite (int_all_digits_cases _ H).
  destruct (len s <=? int_max_str_digits) eqn:L; [|discriminate].
  apply Z.leb_le in L. intros E. inversion E. now split.
Qed.

Lemma int_not_all_digits s :
  isnumeric s = true -> all_digits s = false -> int s = None.
Proof.
  intros Hn Hd. rewrite int_numeric by assumption.
  destruct (int_max_str_digits <? count_digits s); [reflexivity|].
  destruct s as [|c s]; [discriminate|].
  now apply int_digits_not_digit.
Qed.

Lemma digits_fold_nonneg s acc :
  0 <= acc -> 0 <= fold_left (fun a c => 10 * a + Z.of_N (c - 48)) s acc.
Proof.
  revert acc. induction s as [|c s IH]; intros acc Ha; cbn [fold_left];
    [assumption|].
  apply IH. pose proof (N2Z.is_nonneg (c - 48)) as Hd. lia.
Qed.

Lemma digits_value_nonneg s : 0 <= digits_value s.
Proof. apply digits_fold_nonneg. lia. Qed.


(** *** Counting fields *)

Lemma count_name_cons n h hs :
  count_name n (h :: hs) =
  ((if has_name n h then 1 else 0) + count_name n hs)%nat.
Proof. unfold count_name. simpl. now destruct (has_name n h). Qed.

Lemma count_name_app n hs1 hs2 :
  count_name n (hs1 ++ hs2) = (count_name n hs1 + count_name n hs2)%nat.
Proof.
  unfold count_name. now rewrite filter_app, length_app.
Qed.

Lemma count_name_zero n h hs :
  count_name n (h :: hs) = 0%nat ->
  has_name n h = false /\ count_name n hs = 0%nat.
Proof.
  rewrite count_name_cons. destruct (has_name n h); [discriminate|].
  now split.
Qed.

(** A list without Content-Length and Transfer-Encoding fields leaves the
    two variables and [self] as they are. *)
Lemma scan_headers_no_framing hs c cl m :
  count_name (lit "CONTENT-LENGTH") hs = 0%nat ->
  count_name (lit "TRANSFER-ENCODING") hs = 0%nat ->
  scan_headers hs c cl m = (Return (c, cl), m).
Proof.
  induction hs as [|[n v] hs IH]; intros H1 H2; [reflexivity|].
  apply count_name_zero in H1 as [N1 H1].
  apply count_name_zero in H2 as [N2 H2].
  simpl. unfold bind. rewrite scan_header_other by assumption. auto.
Qed.

(** Fields whose Transfer-Encoding values pass leave the two variables as
    they are, and at most set [must_close]. *)
Lemma scan_headers_pass hs cl m :
  count_name (lit "CONTENT-LENGTH") hs = 0%nat ->
  transfer_encodings_pass (Cfg.tolerate_dangerous_framing (cfg m)) hs
  = true ->
  exists m', scan_headers hs false cl m = (Return (false, cl), m')
             /\ closed_or_same m m'.
Proof.
  revert m. induction hs as [|[n v] hs IH]; intros m H1 H2.
  - exists m. split; [reflexivity | now left].
  - apply count_name_zero in H1 as [N1 H1]. simpl in H2.
    apply andb_true_iff in H2 as [Hv H2].
    assert (exists m1, scan_header n v false cl m = (Return (false, cl), m1)
                       /\ closed_or_same m m1) as (m1 & E1 & C1).
    { unfold has_name in N1, Hv. simpl in N1, Hv.
      destruct (str_eqb n (lit "TRANSFER-ENCODING")) eqn:N2.
      - simpl in Hv. unfold passes_unchunked in Hv.
        apply orb_true_iff in Hv as [Hi|Hv].
        + exists m. split; [|now left]. unfold scan_header.
          rewrite N1, N2. apply str_eqb_eq in Hi. rewrite Hi. reflexivity.
        + apply andb_true_iff in Hv as [Ht Hv]. apply str_eqb_eq in Hv.
          subst v. exists (set_must_close true m). split; [|now right].
          apply str_eqb_eq in N2. subst n.
          rewrite scan_header_empty_coding. now rewrite Ht.
      - exists m. split; [|now left]. now apply scan_header_other. }
    destruct (IH m1 H1) as (m2 & E2 & C2).
    { now rewrite (closed_or_same_cfg _ _ C1). }
    exists m2. split.
    + simpl. unfold bind. now rewrite E1.
    + eapply closed_or_same_trans; eauto.
Qed.

Lemma transfer_encodings_pass_app t hs1 hs2 :
  transfer_encodings_pass t (hs1 ++ hs2) =
  (transfer_encodings_pass t hs1 && transfer_encodings_pass t hs2)%bool.
Proof. apply forallb_app. Qed.

(** Each round of the scan either raises one of its errors or goes on;
    it goes on from a Content-Length field only if none was seen, and
    then records it. *)
Lemma scan_header_cases n v c cl m :
  (exists e m', scan_header n v c cl m = (Raise e, m') /\ scan_error e)
  \/ (exists c' m',
        scan_header n v c cl m =
        (Return (c', if has_name (lit "CONTENT-LENGTH") (n, v)
                     then Some v else cl), m')
        /\ (has_name (lit "CONTENT-LENGTH") (n, v) = true -> cl = None)).
Proof.
  unfold has_name, scan_header, bind, force_close, modify, gets, raise, ret,
    scan_error. simpl.
  destruct (str_eqb n (lit "CONTENT-LENGTH")).
  - destruct cl; [left | right]; eauto 8.
  - repeat match goal with
           | |- context [if ?b then _ else _] => destruct b
           end;
      first [ left; do 2 eexists; split; [reflexivity | now eauto 8]
            | right; do 2 eexists; split; [reflexivity | discriminate] ].
Qed.


(** *** set_body_reader after the scan *)

Lemma set_body_reader_after_scan m c cl m1 :
  scan_headers (headers m) false None m = (Return (c, cl), m1) ->
  Message_set_body_reader m = choose_reader c cl m1.
Proof.
  intros H. unfold Message_set_body_reader, bind, gets. now rewrite H.
Qed.

Lemma set_body_reader_scan_raises m e m1 :
  scan_headers (headers m) false None m = (Raise e, m1) ->
  Message_set_body_reader m = (Raise e, m1).
Proof.
  intros H. unfold Message_set_body_reader, bind, gets. now rewrite H.
Qed.

Lemma request_set_body_reader_raises m e m1 :
  Message_set_body_reader m = (Raise e, m1) ->
  Request_set_body_reader m = (Raise e, m1).
Proof. intros H. unfold Request_set_body_reader, bind. now rewrite H. Qed.

(** C4: a request without Content-Length and Transfer-Encoding fields gets
    the reader of exactly 0 bytes: the base method chooses the reader that
    reads until the connection closes, and the method of Request replaces
    it by [LengthReader 0]; nothing is raised. *)
Theorem C4_no_framing_header_reads_nothing m :
  count_name (lit "CONTENT-LENGTH") (headers m) = 0%nat ->
  count_name (lit "TRANSFER-ENCODING") (headers m) = 0%nat ->
  Message_set_body_reader m = (Return tt, set_body (Some EOFReader) m)
  /\ Request_set_body_reader m
     = (Return tt, set_body (Some (LengthReader 0)) m)
  /\ body (snd (Request_set_body_reader m)) = Some (LengthReader 0).
Proof.
  intros H1 H2.
  assert (E : Message_set_body_reader m
              = (Return tt, set_body (Some EOFReader) m)).
  { rewrite (set_body_reader_after_scan m false None m); [reflexivity|].
    now apply scan_headers_no_framing. }
  assert (R : Request_set_body_reader m
              = (Return tt, set_body (Some (LengthReader 0)) m)).
  { unfold Request_set_body_reader, bind. rewrite E. reflexivity. }
  repeat split; try assumption. now rewrite R.
Qed.

Lemma C4_no_framing_header_witness :
  count_name (lit "CONTENT-LENGTH") (headers no_framing) = 0%nat
  /\ count_name (lit "TRANSFER-ENCODING") (headers no_framing) = 0%nat
  /\ body (snd (Request_set_body_reader no_framing))
     = Some (LengthReader 0).
Proof.
  split; [reflexivity|]. split; [reflexivity|].
  apply (C4_no_framing_header_reads_nothing no_framing); reflexivity.
Defined.


(** The reader for a Content-Length value when [chunked] is not set. *)
Lemma choose_reader_length value m :
  choose_reader false (Some value) m =
  if all_digits value && (len value <=? int_max_str_digits)
  then (Return tt, set_body (Some (LengthReader (digits_value value))) m)
  else (Raise (InvalidHeader (lit "CONTENT-LENGTH")), m).
Proof.
  unfold choose_reader, bind, raise, ret, modify.
  destruct (all_digits value) eqn:D; cbn [andb].
  - rewrite (isnumeric_all_digits _ D), (int_all_digits_cases _ D).
    destruct (len value <=? int_max_str_digits); [|reflexivity].
    pose proof (digits_value_nonneg value) as P.
    apply Z.ltb_ge in P. now rewrite P.
  - destruct (isnumeric value) eqn:N; [|reflexivity].
    now rewrite (int_not_all_digits _ N D).
Qed.

(** C5, as amended: with exactly one Content-Length field, and with no
    Transfer-Encoding field but [identity] ones (in any letter case) and,
    when tolerate_dangerous_framing is on, empty ones, a value made of
    decimal digits, no more of them than [int] converts (4300), gives the
    reader of exactly that many bytes, and any other value, a longer text
    of digits among them, raises InvalidHeader("CONTENT-LENGTH"). *)
Theorem C5_single_content_length m pre value post :
  headers m = pre ++ (lit "CONTENT-LENGTH", value) :: post ->
  count_name (lit "CONTENT-LENGTH") pre = 0%nat ->
  count_name (lit "CONTENT-LENGTH") post = 0%nat ->
  transfer_encodings_pass (Cfg.tolerate_dangerous_framing (cfg m))
    (headers m) = true ->
  exists m1,
    closed_or_same m m1 /\
    if all_digits value && (len value <=? int_max_str_digits) then
      0 <= digits_value value
      /\ Message_set_body_reader m
         = (Return tt,
            set_body (Some (LengthReader (digits_value value))) m1)
      /\ Request_set_body_reader m
         = (Return tt,
            set_body (Some (LengthReader (digits_value value))) m1)
    else
      Message_set_body_reader m
      = (Raise (InvalidHeader (lit "CONTENT-LENGTH")), m1)
      /\ Request_set_body_reader m
         = (Raise (InvalidHeader (lit "CONTENT-LENGTH")), m1).
Proof.
  intros Hh Hpre Hpost Hte. rewrite Hh in Hte.
  rewrite transfer_encodings_pass_app in Hte.
  apply andb_true_iff in Hte as [Tpre Tpost]. simpl in Tpost.
  destruct (scan_headers_pass pre None m Hpre Tpre) as (m1 & E1 & C1).
  destruct (scan_headers_pass post (Some value) m1 Hpost) as (m2 & E2 & C2).
  { now rewrite (closed_or_same_cfg _ _ C1). }
  assert (E : scan_headers (headers m) false None m
              = (Return (false, Some value), m2)).
  { rewrite Hh, scan_headers_app, E1. simpl. unfold bind.
    now rewrite scan_header_content_length. }
  exists m2. split; [eapply closed_or_same_trans; eauto|].
  pose proof (set_body_reader_after_scan _ _ _ _ E) as R.
  rewrite choose_reader_length in R.
  destruct (all_digits value && (len value <=? int_max_str_digits)).
  - split; [apply digits_value_nonneg|]. split; [assumption|].
    unfold Request_set_body_reader, bind. rewrite R. reflexivity.
  - split; [assumption|]. now apply request_set_body_reader_raises.
Qed.

Lemma C5_single_content_length_witness :
  exists m1,
    closed_or_same CL_10 m1
    /\ 0 <= digits_value (lit "10")
    /\ Message_set_body_reader CL_10
       = (Return tt, set_body (Some (LengthReader 10)) m1)
    /\ Request_set_body_reader CL_10
       = (Return tt, set_body (Some (LengthReader 10)) m1).
Proof.
  exact (C5_single_content_length CL_10
           [(lit "HOST", lit "example.org")] (lit "10") []
           eq_refl eq_refl eq_refl eq_refl).
Defined.

(** C5, the claim as stated fails: the header list of [CL_gzip] has
    exactly one Content-Length field, whose value is made of decimal
    digits, and no Transfer-Encoding field with the value chunked; no
    reader is chosen, UnsupportedTransferCoding is raised. *)
Lemma C5_gzip_beside_content_length_raises :
  count_name (lit "CONTENT-LENGTH") (headers CL_gzip) = 1%nat
  /\ existsb (fun h => has_name (lit "TRANSFER-ENCODING") h
                       && str_eqb (lower (snd h)) (lit "chunked"))
       (headers CL_gzip) = false
  /\ Message_set_body_reader CL_gzip
     = (Raise (UnsupportedTransferCoding (lit "gzip")),
        set_must_close true CL_gzip)
  /\ body (snd (Message_set_body_reader CL_gzip))
     <> Some (LengthReader 10).
Proof. repeat split; try reflexivity. vm_compute. discriminate. Qed.

(** A Content-Length value of 4301 digits is past what [int] converts: the
    ValueError becomes InvalidHeader("CONTENT-LENGTH"); 4300 digits still
    give a reader. *)
Example long_content_length :
  Message_set_body_reader
    (sample_message false (1, 1)
       [(lit "CONTENT-LENGTH", List.repeat 57%N 4301)])
  = (Raise (InvalidHeader (lit "CONTENT-LENGTH")),
     sample_message false (1, 1)
       [(lit "CONTENT-LENGTH", List.repeat 57%N 4301)])
  /\ fst (Message_set_body_reader
            (sample_message false (1, 1)
               [(lit "CONTENT-LENGTH", List.repeat 57%N 4300)]))
     = Return tt.
Proof. split; vm_compute; reflexivity. Qed.


(** C1, as amended: when the scan ends with [chunked] set and a
    Content-Length value recorded, set_body_reader sets [must_close] and
    then, with tolerate_dangerous_framing off, raises
    InvalidHeader("CONTENT-LENGTH") for a version of at least 1.1 and
    InvalidHeader("TRANSFER-ENCODING") for a version below 1.1; with the
    toggle on it goes on to the chunked reader; [must_close] is set in all
    three cases. *)
Theorem C1_chunked_with_content_length m ver value m1 :
  version m = Some ver ->
  scan_headers (headers m) false None m = (Return (true, Some value), m1) ->
  (Cfg.tolerate_dangerous_framing (cfg m) = false ->
   version_lt ver (1, 1) = false ->
   Message_set_body_reader m
   = (Raise (InvalidHeader (lit "CONTENT-LENGTH")), set_must_close true m1))
  /\ (Cfg.tolerate_dangerous_framing (cfg m) = false ->
      version_lt ver (1, 1) = true ->
      Message_set_body_reader m
      = (Raise (InvalidHeader (lit "TRANSFER-ENCODING")),
         set_must_close true m1))
  /\ (Cfg.tolerate_dangerous_framing (cfg m) = true ->
      Message_set_body_reader m
      = (Return tt, set_body (Some ChunkedReader) (set_must_close true m1)))
  /\ must_close (snd (Message_set_body_reader m)) = true.
Proof.
  intros Hv Hs.
  pose proof (scan_headers_state _ _ _ _ _ _ Hs) as C.
  rewrite (set_body_reader_after_scan _ _ _ _ Hs). clear Hs.
  unfold choose_reader, get_version, bind, gets, ret, raise, force_close,
    modify.
  destruct C as [->| ->]; cbn [version cfg set_must_close]; rewrite Hv;
    destruct (Cfg.tolerate_dangerous_framing (cfg m)) eqn:T;
    destruct (version_lt ver (1, 1)); cbn; rewrite ?T; cbn; rewrite ?T; cbn;
    repeat split; intros; try reflexivity; try discriminate.
Qed.

Lemma C1_chunked_with_content_length_witness :
  Message_set_body_reader (CL_TE_http11 false)
  = (Raise (InvalidHeader (lit "CONTENT-LENGTH")),
     set_must_close true (CL_TE_http11 false))
  /\ Message_set_body_reader (CL_TE_http11 true)
     = (Return tt,
        set_body (Some ChunkedReader)
          (set_must_close true (CL_TE_http11 true))).
Proof.
  split.
  - apply (C1_chunked_with_content_length (CL_TE_http11 false) (1, 1)
             (lit "5") (CL_TE_http11 false) eq_refl eq_refl);
      reflexivity.
  - apply (C1_chunked_with_content_length (CL_TE_http11 true) (1, 1)
             (lit "5") (CL_TE_http11 true) eq_refl eq_refl);
      reflexivity.
Defined.

(** C1, the claim as stated fails: on the HTTP/1.0 message [CL_TE_http10]
    the scan ends with [chunked] set and a Content-Length value recorded,
    the toggle is off, and the error raised is
    InvalidHeader("TRANSFER-ENCODING"), not
    InvalidHeader("CONTENT-LENGTH"). *)
Lemma C1_http10_raises_transfer_encoding :
  scan_headers (headers CL_TE_http10) false None CL_TE_http10
  = (Return (true, Some (lit "5")), CL_TE_http10)
  /\ Cfg.tolerate_dangerous_framing (cfg CL_TE_http10) = false
  /\ Message_set_body_reader CL_TE_http10
     = (Raise (InvalidHeader (lit "TRANSFER-ENCODING")),
        set_must_close true CL_TE_http10)
  /\ fst (Message_set_body_reader CL_TE_http10)
     <> Raise (InvalidHeader (lit "CONTENT-LENGTH")).
Proof. repeat split; try reflexivity. vm_compute. discriminate. Qed.

(** *** Two Content-Length fields *)

Lemma scan_headers_duplicate hs c cl m :
  (2 <= (match cl with Some _ => 1 | None => 0 end
         + count_name (lit "CONTENT-LENGTH") hs))%nat ->
  exists e m', scan_headers hs c cl m = (Raise e, m') /\ scan_error e.
Proof.
  revert c cl m. induction hs as [|[n v] hs IH]; intros c cl m H.
  - exfalso. unfold count_name in H. simpl in H. destruct cl; lia.
  - rewrite count_name_cons in H. simpl. unfold bind.
    destruct (scan_header_cases n v c cl m)
      as [(e & m' & E & S) | (c' & m' & E & N)]; rewrite E.
    + eauto.
    + apply IH.
      destruct (has_name (lit "CONTENT-LENGTH") (n, v)).
      * rewrite (N eq_refl) in H. simpl in *. lia.
      * simpl in H. exact H.
Qed.

Lemma scan_headers_records hs c cl m c' cl' m' :
  scan_headers hs c cl m = (Return (c', cl'), m') ->
  cl <> None \/ (1 <= count_name (lit "CONTENT-LENGTH") hs)%nat ->
  cl' <> None.
Proof.
  revert c cl m. induction hs as [|[n v] hs IH]; intros c cl m H Hc.
  - inversion H; subst. destruct Hc as [Hc|Hc]; [assumption|].
    unfold count_name in Hc. simpl in Hc. lia.
  - rewrite count_name_cons in Hc. simpl in H. unfold bind in H.
    destruct (scan_header_cases n v c cl m)
      as [(e & m1 & E & S) | (c1 & m1 & E & N)]; rewrite E in H.
    + discriminate.
    + apply IH in H; [assumption|].
      destruct (has_name (lit "CONTENT-LENGTH") (n, v)).
      * left. discriminate.
      * destruct Hc as [Hc|Hc]; [now left | right]. simpl in Hc. lia.
Qed.

(** C2: a header list with two Content-Length fields or more always makes
    set_body_reader fail, with an error of the scan; the round of the scan
    that meets a Content-Length field after another one raises
    InvalidHeader("CONTENT-LENGTH"), whatever the two values; and so does
    set_body_reader when the scan gets to the second field. *)
Theorem C2_second_content_length_raises m :
  (2 <= count_name (lit "CONTENT-LENGTH") (headers m))%nat ->
  (exists e m', Message_set_body_reader m = (Raise e, m') /\ scan_error e)
  /\ (forall first second chunked m',
        scan_header (lit "CONTENT-LENGTH") second chunked (Some first) m'
        = (Raise (InvalidHeader (lit "CONTENT-LENGTH")), m'))
  /\ (forall pre first mid second post st m1,
        headers m = pre ++ (lit "CONTENT-LENGTH", first) :: mid
                        ++ (lit "CONTENT-LENGTH", second) :: post ->
        scan_headers (pre ++ (lit "CONTENT-LENGTH", first) :: mid)
          false None m = (Return st, m1) ->
        Message_set_body_reader m
        = (Raise (InvalidHeader (lit "CONTENT-LENGTH")), m1)).
Proof.
  intros H. split; [|split].
  - destruct (scan_headers_duplicate (headers m) false None m)
      as (e & m' & E & S); [simpl; lia|].
    exists e, m'. split; [|assumption].
    now apply set_body_reader_scan_raises.
  - reflexivity.
  - intros pre first mid second post [c cl] m1 Hh Hs.
    apply set_body_reader_scan_raises.
    rewrite Hh.
    change (pre ++ (lit "CONTENT-LENGTH", first) :: mid
                ++ (lit "CONTENT-LENGTH", second) :: post)
      with (pre ++ ((lit "CONTENT-LENGTH", first) :: mid)
                ++ (lit "CONTENT-LENGTH", second) :: post).
    rewrite app_assoc, scan_headers_app, Hs.
    assert (N : cl <> None).
    { eapply scan_headers_records; [exact Hs|]. right.
      rewrite count_name_app, count_name_cons. simpl. lia. }
    simpl. unfold bind. rewrite scan_header_content_length.
    destruct cl; [reflexivity | congruence].
Qed.

Lemma C2_second_content_length_witness :
  (2 <= count_name (lit "CONTENT-LENGTH") (headers CL_twice))%nat
  /\ Message_set_body_reader CL_twice
     = (Raise (InvalidHeader (lit "CONTENT-LENGTH")), CL_twice).
Proof.
  assert (H : (2 <= count_name (lit "CONTENT-LENGTH")
                      (headers CL_twice))%nat) by (vm_compute; lia).
  split; [exact H|].
  apply (proj2 (proj2 (C2_second_content_length_raises CL_twice H))
           [] (lit "3") [(lit "HOST", lit "example.org")] (lit "3") []
           (false, Some (lit "3")) CL_twice); reflexivity.
Defined.


(** *** Transfer codings that are not supported *)

Lemma set_body_reader_from m pre rest c cl m1 :
  headers m = pre ++ rest ->
  scan_headers pre false None m = (Return (c, cl), m1) ->
  Message_set_body_reader m =
  match scan_headers rest c cl m1 with
  | (Return (c', cl'), m2) => choose_reader c' cl' m2
  | (Raise e, m2) => (Raise e, m2)
  | (OutOfFuel, m2) => (OutOfFuel, m2)
  end.
Proof.
  intros Hh Hs. unfold Message_set_body_reader, bind, gets.
  rewrite Hh, scan_headers_app, Hs.
  now destruct (scan_headers rest c cl m1) as [[[c' cl']|e|] m2].
Qed.

Lemma closed_or_same_closed m m' :
  closed_or_same m m' -> must_close m = true -> must_close m' = true.
Proof. now intros [->| ->]. Qed.

(** [must_close], once set, stays set through the choice of the reader. *)
Lemma choose_reader_keeps_close c cl m :
  must_close m = true -> must_close (snd (choose_reader c cl m)) = true.
Proof.
  intros H. unfold choose_reader, get_version, bind, gets, ret, raise,
    force_close, modify.
  destruct c.
  - destruct (version m) as [ver|]; [|assumption].
    destruct (version_lt ver (1, 1)); cbn;
      destruct (Cfg.tolerate_dangerous_framing (cfg m)) eqn:T; cbn;
      destruct cl; cbn; rewrite ?T; cbn; auto.
  - destruct cl as [value|]; [|assumption].
    destruct (isnumeric value); [|assumption].
    destruct (int value) as [n|]; [|assumption].
    now destruct (n <? 0).
Qed.

(** C3: the round of the scan that meets a Transfer-Encoding value other
    than chunked, identity and the empty one (letter case aside) sets
    [must_close] and raises UnsupportedTransferCoding, whatever the
    configuration; for the empty value it sets [must_close] and raises
    only when tolerate_dangerous_framing is off.  So does set_body_reader
    when the scan gets to such a field. *)
Theorem C3_unsupported_transfer_coding :
  (forall value chunked content_length m,
     other_coding value = true ->
     scan_header (lit "TRANSFER-ENCODING") value chunked content_length m
     = (Raise (UnsupportedTransferCoding value), set_must_close true m))
  /\ (forall chunked content_length m,
        scan_header (lit "TRANSFER-ENCODING") [] chunked content_length m
        = if Cfg.tolerate_dangerous_framing (cfg m)
          then (Return (chunked, content_length), set_must_close true m)
          else (Raise (UnsupportedTransferCoding []),
                set_must_close true m))
  /\ (forall m pre value post st m1,
        headers m = pre ++ (lit "TRANSFER-ENCODING", value) :: post ->
        scan_headers pre false None m = (Return st, m1) ->
        other_coding value = true ->
        Message_set_body_reader m
        = (Raise (UnsupportedTransferCoding value), set_must_close true m1))
  /\ (forall m pre post st m1,
        headers m = pre ++ (lit "TRANSFER-ENCODING", []) :: post ->
        scan_headers pre false None m = (Return st, m1) ->
        must_close (snd (Message_set_body_reader m)) = true
        /\ (Cfg.tolerate_dangerous_framing (cfg m) = false ->
            Message_set_body_reader m
            = (Raise (UnsupportedTransferCoding []),
               set_must_close true m1))).
Proof.
  split; [|split; [|split]].
  - intros. now apply scan_header_other_coding.
  - intros. apply scan_header_empty_coding.
  - intros m pre value post [c cl] m1 Hh Hs Ho.
    rewrite (set_body_reader_from _ _ _ _ _ _ Hh Hs). simpl. unfold bind.
    now rewrite scan_header_other_coding.
  - intros m pre post [c cl] m1 Hh Hs.
    rewrite (set_body_reader_from _ _ _ _ _ _ Hh Hs). simpl. unfold bind.
    rewrite scan_header_empty_coding.
    rewrite (closed_or_same_cfg _ _ (scan_headers_state _ _ _ _ _ _ Hs)).
    destruct (Cfg.tolerate_dangerous_framing (cfg m)).
    + split; [|discriminate].
      destruct (scan_headers post c cl (set_must_close true m1))
        as [[[c' cl']|e|] m2] eqn:E;
        apply scan_headers_state in E;
        pose proof (closed_or_same_closed _ _ E eq_refl) as K.
      * now apply choose_reader_keeps_close.
      * exact K.
      * exact K.
    + split; reflexivity.
Qed.

Lemma C3_unsupported_transfer_coding_witness :
  Message_set_body_reader (TE_gzip false)
  = (Raise (UnsupportedTransferCoding (lit "gzip")),
     set_must_close true (TE_gzip false))
  /\ Message_set_body_reader (TE_gzip true)
     = (Raise (UnsupportedTransferCoding (lit "gzip")),
        set_must_close true (TE_gzip true)).
Proof.
  destruct C3_unsupported_transfer_coding as (_ & _ & H & _).
  split.
  - apply (H (TE_gzip false) [(lit "HOST", lit "example.org")] (lit "gzip")
             [] (false, None) (TE_gzip false)); reflexivity.
  - apply (H (TE_gzip true) [(lit "HOST", lit "example.org")] (lit "gzip")
             [] (false, None) (TE_gzip true)); reflexivity.
Defined.

(** *** should_close *)

Lemma connection_header_app pre rest :
  count_name (lit "CONNECTION") pre = 0%nat ->
  connection_header (pre ++ rest) = connection_header rest.
Proof.
  induction pre as [|[h v] pre IH]; intros H; [reflexivity|].
  apply count_name_zero in H as [N H]. unfold has_name in N. simpl in N.
  simpl. rewrite N. auto.
Qed.

(** C7, as amended: should_close returns true when the first Connection
    field of the header list has the value close (letter case and white
    space around it aside), whatever the version; it returns false for an
    HTTP/1.1 message without a Connection field and with [must_close]
    unset. *)
Theorem C7_first_connection_header_decides :
  (forall m pre value post,
     headers m = pre ++ (lit "CONNECTION", value) :: post ->
     count_name (lit "CONNECTION") pre = 0%nat ->
     strip (lower value) = lit "close" ->
     should_close m = (Return true, m))
  /\ (forall m,
        version m = Some (1, 1) ->
        must_close m = false ->
        count_name (lit "CONNECTION") (headers m) = 0%nat ->
        should_close m = (Return false, m)).
Proof.
  split.
  - intros m pre value post Hh Hc Hv.
    unfold should_close, bind, gets, ret.
    destruct (must_close m); [reflexivity|].
    rewrite Hh, connection_header_app by assumption.
    simpl. now rewrite Hv.
  - intros m Hv Hm Hc. unfold should_close, get_version, bind, gets, ret.
    rewrite Hm.
    rewrite <- (app_nil_r (headers m)), connection_header_app by assumption.
    simpl. now rewrite Hv.
Qed.

Lemma C7_first_connection_header_witness :
  should_close close_http11 = (Return true, close_http11)
  /\ should_close no_framing = (Return false, no_framing).
Proof.
  destruct C7_first_connection_header_decides as [H1 H2]. split.
  - apply (H1 close_http11 [(lit "HOST", lit "example.org")] (lit "Close")
             []); reflexivity.
  - apply (H2 no_framing); reflexivity.
Defined.

(** C7, the claim as stated fails: the header list of
    [keep_alive_then_close] holds a Connection field with the value close,
    and should_close returns false, because an earlier Connection field
    says keep-alive. *)
Lemma C7_later_close_is_ignored :
  In (lit "CONNECTION", lit "close") (headers keep_alive_then_close)
  /\ should_close keep_alive_then_close
     = (Return false, keep_alive_then_close).
Proof. split; [right; left; reflexivity | reflexivity]. Qed.


(** *** The method of the request line *)

(** C6, the code at inputs that the claim rejects: [METH_RE.match] matches
    at the start of the token and does not look at what follows, and inside
    its brackets [$-_] is a range; so the token GETx, with a lowercase
    letter, is accepted (the request line parses, whatever the target
    splits into, and the method becomes GETX), and so are a token of 26
    letters and the token G@T. *)
Theorem C6_method_check_accepts_more :
  METH_RE_match (lit "GETx") = Some (lit "GET")
  /\ (forall split_request_uri m,
        method (snd (parse_request_line split_request_uri
                       (lit "GETx / HTTP/1.1") m))
        = Some (lit "GETX"))
  /\ (forall m,
        fst (parse_request_line uri_as_path (lit "GETx / HTTP/1.1") m)
        = Return tt)
  /\ METH_RE_match (lit "ABCDEFGHIJKLMNOPQRSTUVWXYZ")
     = Some (lit "ABCDEFGHIJKLMNOPQRST")
  /\ METH_RE_match (lit "G@T") = Some (lit "G@T").
Proof.
  repeat split; try reflexivity.
  intros split_request_uri m. unfold parse_request_line.
  change (map bytes_to_str (bytes_split_max 2 (lit "GETx / HTTP/1.1")))
    with [lit "GETx"; lit "/"; lit "HTTP/1.1"].
  change (METH_RE_match (lit "GETx")) with (Some (lit "GET")).
  change (upper (lit "GETx")) with (lit "GETX").
  unfold bind, modify, raise. cbn [fst snd].
  destruct (split_request_uri (lit "/")) as [[[p q] f]|]; reflexivity.
Qed.

(** *** The PROXY line *)


Lemma proxy_family_cases proto :
  match proxy_family proto with
  | Some AF_INET => proto = lit "TCP4"
  | Some AF_INET6 => proto = lit "TCP6" /\ proto <> lit "TCP4"
  | None => str_in proto [lit "TCP4"; lit "TCP6"] = false
  end.
Proof.
  unfold proxy_family, str_in. simpl.
  destruct (str_eqb proto (lit "TCP4")) eqn:E4.
  - now apply str_eqb_eq.
  - destruct (str_eqb proto (lit "TCP6")) eqn:E6.
    + split; [now apply str_eqb_eq | now apply str_eqb_neq].
    + reflexivity.
Qed.

Lemma check_address_cases inet_pton f text line m :
  check_address inet_pton f text line m =
  if existsb (N.eqb 0) text then (Raise ValueError, m)
  else if inet_pton f text then (Return tt, m)
  else (Raise (InvalidProxyLine line), m).
Proof.
  unfold check_address. destruct (existsb (N.eqb 0) text); [reflexivity|].
  now destruct (inet_pton f text).
Qed.

(** What parse_proxy_protocol does with a line of six items. *)
Lemma parse_proxy_protocol_six inet_pton line m sig proto s d t4 t5 :
  str_split line = [sig; proto; s; d; t4; t5] ->
  parse_proxy_protocol inet_pton line m =
  match proxy_family proto with
  | None =>
      (Raise (InvalidProxyLine
                (lit "protocol '" ++ proto ++ lit "' not supported")), m)
  | Some f =>
      if existsb (N.eqb 0) s then (Raise ValueError, m)
      else if negb (inet_pton f s) then (Raise (InvalidProxyLine line), m)
      else if existsb (N.eqb 0) d then (Raise ValueError, m)
      else if negb (inet_pton f d) then (Raise (InvalidProxyLine line), m)
      else
        match int t4, int t5 with
        | Some s_port, Some d_port =>
            if (0 <=? s_port) && (s_port <=? 65535)
               && ((0 <=? d_port) && (d_port <=? 65535))
            then (Return tt,
                  set_proxy_protocol_info
                    (Some {| info_proxy_protocol := proto;
                             client_addr := s; client_port := s_port;
                             proxy_addr := d; proxy_port := d_port |}) m)
            else (Raise (InvalidProxyLine (lit "invalid port " ++ line)), m)
        | _, _ => (Raise (InvalidProxyLine (lit "invalid port " ++ line)), m)
        end
  end.
Proof.
  intros Hs. unfold parse_proxy_protocol. rewrite Hs.
  pose proof (proxy_family_cases proto) as F.
  unfold proxy_family in *. unfold str_in in *. simpl in *.
  destruct (str_eqb proto (lit "TCP4")) eqn:E4;
    [|destruct (str_eqb proto (lit "TCP6")) eqn:E6]; simpl.
  - unfold bind, ret, raise, modify. rewrite !check_address_cases.
    destruct (existsb (N.eqb 0) s); [reflexivity|].
    destruct (inet_pton AF_INET s); [|reflexivity]. cbn [negb].
    rewrite check_address_cases.
    destruct (existsb (N.eqb 0) d); [reflexivity|].
    destruct (inet_pton AF_INET d); [|reflexivity]. cbn [negb].
    destruct (int t4) as [p4|]; [|reflexivity].
    destruct (int t5) as [p5|]; [|reflexivity].
    now destruct ((0 <=? p4) && (p4 <=? 65535)
                  && ((0 <=? p5) && (p5 <=? 65535))).
  - unfold bind, ret, raise, modify. rewrite !check_address_cases.
    destruct (existsb (N.eqb 0) s); [reflexivity|].
    destruct (inet_pton AF_INET6 s); [|reflexivity]. cbn [negb].
    rewrite check_address_cases.
    destruct (existsb (N.eqb 0) d); [reflexivity|].
    destruct (inet_pton AF_INET6 d); [|reflexivity]. cbn [negb].
    destruct (int t4) as [p4|]; [|reflexivity].
    destruct (int t5) as [p5|]; [|reflexivity].
    now destruct ((0 <=? p4) && (p4 <=? 65535)
                  && ((0 <=? p5) && (p5 <=? 65535))).
  - reflexivity.
Qed.

Lemma parse_proxy_protocol_not_six inet_pton line m :
  List.length (str_split line) <> 6%nat ->
  parse_proxy_protocol inet_pton line m = (Raise (InvalidProxyLine line), m).
Proof.
  intros H. unfold parse_proxy_protocol.
  destruct (str_split line) as [|a [|b [|c [|d [|e [|f [|g l]]]]]]];
    try reflexivity.
  exfalso. apply H. reflexivity.
Qed.


Lemma six_items {A} (l : list A) :
  List.length l = 6%nat -> exists a b c d e f, l = [a; b; c; d; e; f].
Proof.
  destruct l as [|a [|b [|c [|d [|e [|f [|g l]]]]]]]; try discriminate.
  intros _. now exists a, b, c, d, e, f.
Qed.

(** parse_proxy_protocol either records a ProxyInfo, or raises
    InvalidProxyLine or the ValueError of inet_pton, and changes nothing
    else. *)
Lemma parse_proxy_protocol_outcome inet_pton line m :
  (exists info,
     parse_proxy_protocol inet_pton line m
     = (Return tt, set_proxy_protocol_info (Some info) m))
  \/ (exists msg,
        parse_proxy_protocol inet_pton line m
        = (Raise (InvalidProxyLine msg), m))
  \/ parse_proxy_protocol inet_pton line m = (Raise ValueError, m).
Proof.
  destruct (Nat.eq_dec (List.length (str_split line)) 6) as [L|L].
  2:{ right. left. eexists. now apply parse_proxy_protocol_not_six. }
  destruct (six_items _ L) as (sig & proto & s & d & t4 & t5 & E).
  rewrite (parse_proxy_protocol_six _ _ _ _ _ _ _ _ _ E).
  destruct (proxy_family proto) as [f|]; [|right; left; eauto].
  destruct (existsb (N.eqb 0) s); [now right; right|].
  destruct (negb (inet_pton f s)); [right; left; eauto|].
  destruct (existsb (N.eqb 0) d); [now right; right|].
  destruct (negb (inet_pton f d)); [right; left; eauto|].
  destruct (int t4) as [p4|]; [|right; left; eauto].
  destruct (int t5) as [p5|]; [|right; left; eauto].
  destruct ((0 <=? p4) && (p4 <=? 65535)
            && ((0 <=? p5) && (p5 <=? 65535)));
    [left | right; left]; eauto.
Qed.


(** The line of the specification gives the ProxyInfo of the
    specification. *)
Example proxy_line_parsed :
  parse_proxy_protocol inet_pton_ipv4 proxy_line no_framing
  = (Return tt,
     set_proxy_protocol_info
       (Some {| info_proxy_protocol := lit "TCP4";
                client_addr := lit "192.168.0.1"; client_port := 56324;
                proxy_addr := lit "192.168.0.11"; proxy_port := 443 |})
       no_framing).
Proof. reflexivity. Qed.


(** A NUL character in an address item: inet_pton raises ValueError, which
    parse_proxy_protocol does not turn into InvalidProxyLine; and a port
    item of 4301 digits raises InvalidProxyLine as any text that [int]
    does not read. *)
Example proxy_line_with_nul :
  parse_proxy_protocol inet_pton_ipv4
    (lit "PROXY TCP4 192.168.0.1" ++ [0%N] ++ lit " 192.168.0.11 56324 443")
    no_framing
  = (Raise ValueError, no_framing)
  /\ parse_proxy_protocol inet_pton_ipv4
       (lit "PROXY TCP4 192.168.0.1 192.168.0.11 "
        ++ List.repeat 48%N 4299 ++ lit "80" ++ lit " 443")
       no_framing
     = (Raise
          (InvalidProxyLine
             (lit "invalid port "
              ++ lit "PROXY TCP4 192.168.0.1 192.168.0.11 "
              ++ List.repeat 48%N 4299 ++ lit "80" ++ lit " 443")),
        no_framing).
Proof. split; vm_compute; reflexivity. Qed.


(** *** The scheme headers *)

Lemma continuation_lines_state lines hl value m r m' :
  continuation_lines lines hl value m = (r, m') -> m' = m.
Proof.
  revert hl value. induction lines as [|curr lines IH]; intros hl value H.
  - now inversion H.
  - simpl in H. destruct (starts_with_sp_tab curr); [|now inversion H].
    unfold bind, gets, raise in H.
    destruct ((limit_request_field_size m <? hl + len curr)
              && (0 <? limit_request_field_size m));
      [now inversion H | eauto].
Qed.

Lemma continuation_lines_length lines hl value m lines' hl' value' m' :
  continuation_lines lines hl value m = (Return (lines', hl', value'), m') ->
  (List.length lines' <= List.length lines)%nat.
Proof.
  revert hl value. induction lines as [|curr lines IH]; intros hl value H.
  - inversion H. simpl. lia.
  - simpl in H. destruct (starts_with_sp_tab curr).
    + unfold bind, gets, raise in H.
      destruct ((limit_request_field_size m <? hl + len curr)
                && (0 <? limit_request_field_size m)); [discriminate|].
      apply IH in H. simpl. lia.
    + inversion H. simpl. lia.
Qed.

Lemma continuation_lines_total lines hl value m :
  fst (continuation_lines lines hl value m) <> OutOfFuel.
Proof.
  revert hl value. induction lines as [|curr lines IH]; intros hl value.
  - discriminate.
  - simpl. destruct (starts_with_sp_tab curr); [|discriminate].
    unfold bind, gets, raise.
    destruct ((limit_request_field_size m <? hl + len curr)
              && (0 <? limit_request_field_size m));
      [discriminate | apply IH].
Qed.

(** Reading one field leaves [self] as it is, takes lines off the front,
    and never runs out of fuel. *)
Lemma header_field_spec curr lines m r m' :
  header_field curr lines m = (r, m') ->
  m' = m /\ r <> OutOfFuel
  /\ forall name value lines',
       r = Return (name, value, lines') ->
       (List.length lines' <= List.length lines)%nat.
Proof.
  unfold header_field. intros H.
  destruct (find (lit ":") curr <? 0).
  { inversion H. repeat split; discriminate. }
  destruct (split_colon curr) as [name value].
  unfold bind, gets, raise, ret in H.
  destruct (HEADER_RE_search _) in H.
  { inversion H. repeat split; discriminate. }
  cbv beta in H.
  pose proof (continuation_lines_total lines (len curr) [lstrip value] m)
    as T.
  destruct (continuation_lines lines (len curr) [lstrip value] m)
    as [[[[l' h'] v']|e|] m1] eqn:E.
  - pose proof (continuation_lines_state _ _ _ _ _ _ E). subst m1.
    apply continuation_lines_length in E.
    destruct ((limit_request_field_size m <? h')
              && (0 <? limit_request_field_size m));
      inversion H; subst; repeat split; try discriminate.
    intros n v0 l0 J. inversion J; subst. exact E.
  - apply continuation_lines_state in E. subst m1.
    inversion H; subst. repeat split; discriminate.
  - exfalso. now apply T.
Qed.

(** What a field does to the scheme. *)
Lemma scheme_step_cases ssh name value flag m :
  scheme_step ssh name value flag m =
  match derived_scheme ssh (name, value) with
  | Some s =>
      if flag then
        if str_eqb s (scheme m) then (Return true, m)
        else (Raise InvalidSchemeHeaders, m)
      else (Return true, set_scheme s m)
  | None => (Return flag, m)
  end.
Proof.
  unfold scheme_step, derived_scheme. simpl.
  destruct (dict_get name ssh) as [secure|]; [|reflexivity].
  destruct flag; [|reflexivity].
  unfold bind, gets, raise, ret.
  now destruct (str_eqb _ (scheme m)).
Qed.

Lemma parse_headers_loop_scheme fuel ssh :
  forall lines hs flag m r m',
    parse_headers_loop fuel ssh lines hs flag m = (r, m') ->
    (if flag then m' = m else m' = m \/ exists s, m' = set_scheme s m)
    /\ forall out, r = Return out ->
         exists new, out = hs ++ new /\
           if flag then
             forall h s', In h new -> derived_scheme ssh h = Some s' ->
                          s' = scheme m
           else
             match first_derived ssh new with
             | Some s =>
                 m' = set_scheme s m
                 /\ forall h s', In h new ->
                                 derived_scheme ssh h = Some s' -> s' = s
             | None => m' = m
             end.
Proof.
  induction fuel as [|fuel IH]; intros lines hs flag m r m' H.
  - destruct lines as [|curr lines]; inversion H; subst.
    + split; [destruct flag; auto|]. intros out J. inversion J; subst.
      exists []. rewrite app_nil_r. split; [reflexivity|].
      destruct flag; simpl; [intros h s' []|reflexivity].
    + split; [destruct flag; auto | discriminate].
  - destruct lines as [|curr lines].
    { inversion H; subst.
      split; [destruct flag; auto|]. intros out J. inversion J; subst.
      exists []. rewrite app_nil_r. split; [reflexivity|].
      destruct flag; simpl; [intros h s' []|reflexivity]. }
    simpl in H. unfold bind, gets in H.
    destruct (limit_request_fields m <=? len hs).
    { inversion H; subst. split; [destruct flag; auto | discriminate]. }
    destruct (header_field curr lines m) as [[[[name value] lines']|e|] m1]
      eqn:F; apply header_field_spec in F as (-> & T & _).
    2:{ inversion H; subst. split; [destruct flag; auto | discriminate]. }
    2:{ congruence. }
    rewrite scheme_step_cases in H.
    destruct (derived_scheme ssh (name, value)) as [s|] eqn:D.
    + destruct flag.
      * destruct (str_eqb s (scheme m)) eqn:S.
        -- apply str_eqb_eq in S. apply IH in H as [H1 H2].
           split; [assumption|]. intros out J.
           destruct (H2 out J) as (new & -> & N).
           exists ((name, value) :: new).
           rewrite <- app_assoc. split; [reflexivity|].
           intros h s' [<-|Hin] Hd; [congruence | eauto].
        -- inversion H; subst. split; [reflexivity | discriminate].
      * apply IH in H as [H1 H2]. subst m'.
        split; [right; eauto|]. intros out J.
        destruct (H2 out J) as (new & -> & N).
        exists ((name, value) :: new).
        rewrite <- app_assoc. split; [reflexivity|].
        simpl. rewrite D. split; [reflexivity|].
        intros h s' [<-|Hin] Hd; [congruence|].
        now apply (N h s').
    + apply IH in H as [H1 H2]. split; [assumption|]. intros out J.
      destruct (H2 out J) as (new & -> & N).
      exists ((name, value) :: new).
      rewrite <- app_assoc. split; [reflexivity|].
      destruct flag.
      * intros h s' [<-|Hin] Hd; [congruence | eauto].
      * simpl. rewrite D. destruct (first_derived ssh new) as [s|].
        -- destruct N as [N1 N2]. split; [assumption|].
           intros h s' [<-|Hin] Hd; [congruence | eauto].
        -- assumption.
Qed.


(** The loop over the lines has fuel enough when it has as much as there
    are lines. *)
Lemma parse_headers_loop_total fuel ssh :
  forall lines hs flag m,
    (List.length lines <= fuel)%nat ->
    fst (parse_headers_loop fuel ssh lines hs flag m) <> OutOfFuel.
Proof.
  induction fuel as [|fuel IH]; intros lines hs flag m L.
  - destruct lines; [discriminate | simpl in L; lia].
  - destruct lines as [|curr lines]; [discriminate|].
    simpl. unfold bind, gets.
    destruct (limit_request_fields m <=? len hs); [discriminate|].
    destruct (header_field curr lines m) as [[[[name value] lines']|e|] m1]
      eqn:F; apply header_field_spec in F as (-> & T & Len).
    2:{ discriminate. }
    2:{ congruence. }
    specialize (Len _ _ _ eq_refl).
    rewrite scheme_step_cases.
    destruct (derived_scheme ssh (name, value)) as [s|].
    + destruct flag.
      * destruct (str_eqb s (scheme m)); [|discriminate].
        apply IH. simpl in L. lia.
      * apply IH. simpl in L. lia.
    + apply IH. simpl in L. lia.
Qed.

Lemma parse_headers_total data m :
  fst (parse_headers data m) <> OutOfFuel.
Proof.
  unfold parse_headers, bind, gets. now apply parse_headers_loop_total.
Qed.

(** One round of the loop over the lines, for a field that is read
    without an error. *)
Lemma parse_headers_loop_round fuel ssh curr lines hs flag m name value
      lines' m1 :
  len hs < limit_request_fields m ->
  header_field curr lines m = (Return (name, value, lines'), m1) ->
  parse_headers_loop (S fuel) ssh (curr :: lines) hs flag m =
  match derived_scheme ssh (name, value) with
  | Some s =>
      if flag then
        if str_eqb s (scheme m)
        then parse_headers_loop fuel ssh lines' (hs ++ [(name, value)])
               true m
        else (Raise InvalidSchemeHeaders, m)
      else parse_headers_loop fuel ssh lines' (hs ++ [(name, value)])
             true (set_scheme s m)
  | None =>
      parse_headers_loop fuel ssh lines' (hs ++ [(name, value)]) flag m
  end.
Proof.
  intros L F. pose proof (header_field_spec _ _ _ _ _ F) as (-> & _).
  cbn [parse_headers_loop]. unfold bind, gets.
  apply Z.leb_gt in L. rewrite L, F, scheme_step_cases.
  destruct (derived_scheme ssh (name, value)) as [s|]; [|reflexivity].
  destruct flag; [|reflexivity].
  now destruct (str_eqb s (scheme m)).
Qed.

(** C8: in one pass of parse_headers the first field whose name is one of
    the scheme headers that the pass honours sets the scheme, to https when
    its value is the configured one and to http otherwise; a later such
    field that calls for the other scheme raises InvalidSchemeHeaders, one
    that calls for the same scheme changes nothing; so a pass that returns
    leaves the scheme of its first scheme header, with which all its
    scheme headers agree, and once the scheme is set the rest of the pass
    never writes to [self] again: a round of its loop that reads a scheme
    header goes on if the header agrees and raises if it does not. *)
Theorem C8_first_scheme_header_sets_scheme :
  (forall ssh name value secure_value m,
     dict_get name ssh = Some secure_value ->
     let derived :=
       if str_eqb value secure_value then lit "https" else lit "http" in
     scheme_step ssh name value false m = (Return true, set_scheme derived m)
     /\ scheme_step ssh name value true m
        = if str_eqb derived (scheme m) then (Return true, m)
          else (Raise InvalidSchemeHeaders, m))
  /\ (forall data m r m',
        parse_headers data m = (r, m') ->
        (m' = m \/ exists s, m' = set_scheme s m)
        /\ forall hs, r = Return hs ->
             match first_derived (trusted_scheme_headers m) hs with
             | Some s =>
                 m' = set_scheme s m
                 /\ forall h s', In h hs ->
                      derived_scheme (trusted_scheme_headers m) h = Some s' ->
                      s' = s
             | None => m' = m
             end)
  /\ (forall fuel ssh lines hs m r m',
        parse_headers_loop fuel ssh lines hs true m = (r, m') -> m' = m)
  /\ (forall fuel ssh curr lines hs m name value lines' s,
        len hs < limit_request_fields m ->
        header_field curr lines m = (Return (name, value, lines'), m) ->
        derived_scheme ssh (name, value) = Some s ->
        parse_headers_loop (S fuel) ssh (curr :: lines) hs true m =
        if str_eqb s (scheme m)
        then parse_headers_loop fuel ssh lines' (hs ++ [(name, value)])
               true m
        else (Raise InvalidSchemeHeaders, m)).
Proof.
  split; [|split; [|split]].
  - intros ssh name value secure m D derived.
    rewrite !scheme_step_cases. unfold derived_scheme. simpl. rewrite D.
    split; reflexivity.
  - intros data m r m' H. unfold parse_headers, bind, gets in H.
    apply parse_headers_loop_scheme in H as [H1 H2].
    split; [assumption|]. intros hs J.
    destruct (H2 hs J) as (new & -> & N). exact N.
  - intros fuel ssh lines hs m r m' H.
    now apply parse_headers_loop_scheme in H as [H _].
  - intros fuel ssh curr lines hs m name value lines' s L F D.
    rewrite (parse_headers_loop_round _ _ _ _ _ _ _ _ _ _ _ L F).
    now rewrite D.
Qed.

Lemma C8_first_scheme_header_witness :
  snd (parse_headers (two_scheme_headers "on") no_framing)
  = set_scheme (lit "https") no_framing.
Proof.
  destruct C8_first_scheme_header_sets_scheme as (_ & H & _).
  destruct (H (two_scheme_headers "on") no_framing
              (Return [(lit "X-FORWARDED-PROTO", lit "https");
                       (lit "X-FORWARDED-SSL", lit "on")])
              (set_scheme (lit "https") no_framing) eq_refl) as [_ K].
  exact (proj1 (K _ eq_refl)).
Defined.

(** Two scheme headers that disagree are an error of the pass. *)
Example scheme_headers_disagree :
  parse_headers (two_scheme_headers "off") no_framing
  = (Raise InvalidSchemeHeaders, set_scheme (lit "https") no_framing).
Proof. reflexivity. Qed.


(** *** The header buffer *)

(** A pull either adds a chunk that is not empty to the buffer, and then
    the byte source has one read less to answer, or raises; it changes
    nothing of [self] but the byte source. *)
Lemma get_data_spec buf stop m r m' :
  get_data buf stop m = (r, m') ->
  max_buffer_headers m' = max_buffer_headers m
  /\ r <> OutOfFuel
  /\ (forall e, r = Raise e ->
        e = if stop then StopIteration else NoMoreData buf)
  /\ (forall data, r = Return data ->
        (exists chunk, chunk <> [] /\ data = buf ++ chunk)
        /\ (pending_reads (unreader m') < pending_reads (unreader m))%nat).
Proof.
  unfold get_data, bind, unreader_read, pending_reads, raise, ret.
  intros H.
  destruct (unread_buf (unreader m)) as [|b bs] eqn:B.
  - destruct (chunks (unreader m)) as [|[|d ds] rest] eqn:C.
    + destruct stop; inversion H; subst;
        (split; [reflexivity|]; split; [discriminate|]; split;
         [intros ? J; inversion J; auto | discriminate]).
    + destruct stop; inversion H; subst;
        (split; [reflexivity|]; split; [discriminate|]; split;
         [intros ? J; inversion J; auto | discriminate]).
    + inversion H; subst.
      split; [reflexivity|]. split; [discriminate|]. split; [discriminate|].
      intros data J. inversion J; subst. split.
      * exists (d :: ds). split; [discriminate | reflexivity].
      * simpl. lia.
  - inversion H; subst.
    split; [reflexivity|]. split; [discriminate|]. split; [discriminate|].
    intros data J. inversion J; subst. split.
    + exists (b :: bs). split; [discriminate | reflexivity].
    + simpl. lia.
Qed.

(** One round of the loop that gathers the header block. *)
Lemma parse_header_loop_round fuel buf m data m1 :
  block_complete buf = false ->
  get_data buf false m = (Return data, m1) ->
  parse_header_loop (S fuel) buf m =
  if max_buffer_headers m <? len data
  then (Raise (LimitRequestHeaders "max buffer headers"), m1)
  else parse_header_loop fuel data m1.
Proof.
  intros B G. unfold block_complete in B. apply negb_false_iff in B.
  pose proof (get_data_spec _ _ _ _ _ G) as (Hm & _).
  cbn [parse_header_loop]. rewrite B. unfold bind. rewrite G.
  unfold gets, raise. rewrite Hm.
  now destruct (max_buffer_headers m <? len data).
Qed.

Lemma parse_header_loop_complete fuel buf m :
  block_complete buf = true ->
  parse_header_loop fuel buf m = (Return buf, m).
Proof.
  intros B. unfold block_complete in B. apply negb_true_iff in B.
  destruct fuel; cbn [parse_header_loop]; now rewrite B.
Qed.

Lemma parse_header_loop_spec fuel :
  forall buf m r m',
    parse_header_loop fuel buf m = (r, m') ->
    max_buffer_headers m' = max_buffer_headers m
    /\ (forall data, r = Return data ->
          block_complete data = true
          /\ ((data = buf /\ m' = m) \/ len data <= max_buffer_headers m))
    /\ (forall e, r = Raise e -> gather_error e)
    /\ ((pending_reads (unreader m) < fuel)%nat -> r <> OutOfFuel).
Proof.
  induction fuel as [|fuel IH]; intros buf m r m' H.
  - destruct (block_complete buf) eqn:B.
    + rewrite parse_header_loop_complete in H by assumption.
      inversion H; subst.
      split; [reflexivity|]. split; [|split; discriminate].
      intros data J. inversion J; subst. auto.
    + unfold block_complete in B. apply negb_false_iff in B.
      cbn [parse_header_loop] in H. rewrite B in H. inversion H; subst.
      split; [reflexivity|]. split; [discriminate|].
      split; [discriminate|]. lia.
  - destruct (block_complete buf) eqn:B.
    + rewrite parse_header_loop_complete in H by assumption.
      inversion H; subst.
      split; [reflexivity|]. split; [|split; discriminate].
      intros data J. inversion J; subst. auto.
    + destruct (get_data buf false m) as [[data| e |] m1] eqn:G.
      * rewrite (parse_header_loop_round _ _ _ _ _ B G) in H.
        pose proof (get_data_spec _ _ _ _ _ G) as (Hm & _ & _ & Hd).
        destruct (Hd data eq_refl) as [_ Hp].
        destruct (max_buffer_headers m <? len data) eqn:L.
        -- inversion H; subst.
           split; [assumption|]. split; [discriminate|].
           split; [|discriminate].
           intros e J. inversion J. now left.
        -- apply Z.ltb_ge in L.
           apply IH in H as (H1 & H2 & H3 & H4).
           split; [congruence|]. split; [|split].
           ++ intros out J. destruct (H2 out J) as [C [[-> ->]|Hl]].
              ** split; [assumption|]. now right.
              ** split; [assumption|]. right. lia.
           ++ assumption.
           ++ intros Hf. apply H4. lia.
      * pose proof (get_data_spec _ _ _ _ _ G) as (Hm & _ & He & _).
        unfold block_complete in B. apply negb_false_iff in B.
        cbn [parse_header_loop] in H. rewrite B in H. unfold bind in H.
        rewrite G in H. inversion H; subst.
        split; [assumption|]. split; [discriminate|].
        split; [|discriminate].
        intros e' J. inversion J; subst.
        rewrite (He e' eq_refl). right. eauto.
      * pose proof (get_data_spec _ _ _ _ _ G) as (_ & T & _).
        congruence.
Qed.


Lemma init_limit_request_fields_range c :
  1 <= init_limit_request_fields c <= MAX_HEADERS.
Proof.
  unfold init_limit_request_fields, MAX_HEADERS.
  destruct (Cfg.limit_request_fields c <=? 0) eqn:A; simpl; [lia|].
  destruct (32768 <? Cfg.limit_request_fields c) eqn:B; [lia|].
  apply Z.leb_gt in A. apply Z.ltb_ge in B. lia.
Qed.

Lemma init_limit_request_field_size_nonneg c :
  0 <= init_limit_request_field_size c.
Proof.
  unfold init_limit_request_field_size, DEFAULT_MAX_HEADERFIELD_SIZE.
  destruct (Cfg.limit_request_field_size c <? 0) eqn:A; [lia|].
  now apply Z.ltb_ge in A.
Qed.

(** C10, as amended: the bound is fixed when the request is made, as
    limit_request_fields * (F + 2) + 4 with the limits in force, F being
    limit_request_field_size or 8190 when that is 0; in the loop of
    Request.parse that gathers the header block each pull is followed by
    the comparison of the buffer with the bound, and a pull that leaves
    the buffer longer than the bound raises
    LimitRequestHeaders("max buffer headers"); so the loop goes round
    again, or returns after a pull, only with a buffer within the bound,
    and when the block is never completed it ends by raising this error or
    NoMoreData.  What was buffered before the loop starts is not compared
    with the bound. *)
Theorem C10_buffer_checked_after_each_pull :
  (forall c u peer number,
     let fields := init_limit_request_fields c in
     let size := init_limit_request_field_size c in
     max_buffer_headers (new_request c u peer number)
     = fields * ((if size =? 0 then 8190 else size) + 2) + 4
     /\ 1 <= fields <= 32768 /\ 0 <= size)
  /\ (forall fuel buf m data m1,
        block_complete buf = false ->
        get_data buf false m = (Return data, m1) ->
        parse_header_loop (S fuel) buf m =
        if max_buffer_headers m <? len data
        then (Raise (LimitRequestHeaders "max buffer headers"), m1)
        else parse_header_loop fuel data m1)
  /\ (forall fuel buf m r m',
        parse_header_loop fuel buf m = (r, m') ->
        max_buffer_headers m' = max_buffer_headers m
        /\ (forall data, r = Return data ->
              block_complete data = true
              /\ ((data = buf /\ m' = m)
                  \/ len data <= max_buffer_headers m))
        /\ (forall e, r = Raise e -> gather_error e)
        /\ ((pending_reads (unreader m) < fuel)%nat -> r <> OutOfFuel)).
Proof.
  split; [|split].
  - intros c u peer number fields size. split; [reflexivity|].
    split; [apply init_limit_request_fields_range
           | apply init_limit_request_field_size_nonneg].
  - intros. now apply parse_header_loop_round.
  - intros fuel. apply parse_header_loop_spec.
Qed.

Lemma C10_buffer_checked_witness :
  parse_header_loop 2 [] (sample_request 1 10 [long_header_chunk])
  = (Raise (LimitRequestHeaders "max buffer headers"),
     sample_request 1 10 []).
Proof.
  destruct C10_buffer_checked_after_each_pull as (_ & H & _).
  rewrite (H 1%nat [] (sample_request 1 10 [long_header_chunk])
             long_header_chunk (sample_request 1 10 []) eq_refl eq_refl).
  reflexivity.
Defined.

(** C10, the claim as stated fails: with limit_request_fields = 1 and
    limit_request_field_size = 10 the bound is 16; the request
    [get_with_host] arrives in one chunk, the 21 bytes after its request
    line are the buffer with which the loop starts, the loop returns them
    without raising, and the request fails later, in parse_headers, with
    another error. *)
Lemma C10_residue_is_not_checked :
  max_buffer_headers (sample_request 1 10 []) = 16
  /\ len host_block = 21
  /\ parse_header_loop 1 host_block (sample_request 1 10 [])
     = (Return host_block, sample_request 1 10 [])
  /\ fst (Request_init uri_as_path inet_pton_ipv4 (sample_cfg 1 10 false)
            {| unread_buf := []; chunks := [get_with_host] |}
            sample_peer 1)
     = Raise (LimitRequestHeaders "limit request headers fields size").
Proof. repeat split. Qed.

(** *** The model never runs out of fuel *)

Lemma total_bind {A B} (c : M A) (k : A -> M B) :
  total c -> (forall a, total (k a)) -> total (bind c k).
Proof.
  intros Hc Hk m. unfold bind. specialize (Hc m).
  destruct (c m) as [[a|e|] m1]; simpl in *;
    [apply Hk | discriminate | congruence].
Qed.

Lemma total_ret {A} (a : A) : total (ret a).
Proof. intros m. discriminate. Qed.

Lemma total_raise {A} e : total (@raise A e).
Proof. intros m. discriminate. Qed.

Lemma total_gets {A} (f : Message -> A) : total (gets f).
Proof. intros m. discriminate. Qed.

Lemma total_modify f : total (modify f).
Proof. intros m. discriminate. Qed.

Lemma total_get_data buf stop : total (get_data buf stop).
Proof.
  intros m. destruct (get_data buf stop m) as [r m'] eqn:G.
  now apply get_data_spec in G as (_ & T & _).
Qed.

Lemma read_line_loop_total fuel :
  forall buf limit m,
    (pending_reads (unreader m) < fuel)%nat ->
    fst (read_line_loop fuel buf limit m) <> OutOfFuel.
Proof.
  induction fuel as [|fuel IH]; intros buf limit m L; [lia|].
  cbn [read_line_loop].
  destruct (0 <=? find CRLF buf).
  { destruct ((limit <? find CRLF buf) && (0 <? limit)); discriminate. }
  destruct ((limit <? len buf - 2) && (0 <? limit)); [discriminate|].
  unfold bind. destruct (get_data buf false m) as [[data|e|] m1] eqn:G;
    apply get_data_spec in G as (_ & T & _ & D).
  - apply IH. destruct (D data eq_refl) as [_ P]. lia.
  - discriminate.
  - congruence.
Qed.

Lemma total_read_line buf limit : total (read_line buf limit).
Proof. intros m. unfold read_line. apply read_line_loop_total. lia. Qed.

Lemma total_choose_reader c cl : total (choose_reader c cl).
Proof.
  unfold choose_reader, get_version, force_close. destruct c.
  - repeat (apply total_bind; [|intros]);
      repeat match goal with
             | |- total (if ?b then _ else _) => destruct b
             | |- total (match ?x with Some _ => _ | None => _ end) =>
                 destruct x
             | |- total (bind _ _) => apply total_bind; [|intros]
             end;
      auto using total_ret, total_raise, total_gets, total_modify.
  - destruct cl as [value|]; [|apply total_modify].
    apply total_bind.
    + destruct (isnumeric value); [|apply total_raise].
      destruct (int value); [apply total_ret | apply total_raise].
    + intros n. destruct (n <? 0); [apply total_raise | apply total_modify].
Qed.

Lemma total_Request_set_body_reader : total Request_set_body_reader.
Proof.
  unfold Request_set_body_reader, Message_set_body_reader.
  apply total_bind.
  - apply total_bind; [apply total_gets|]. intros hs.
    apply total_bind; [intros m; apply scan_headers_total|].
    intros [c cl]. apply total_choose_reader.
  - intros _. apply total_bind; [apply total_gets|].
    intros [[| |]|]; auto using total_ret, total_modify.
Qed.

Lemma total_parse_proxy_protocol inet_pton line :
  total (parse_proxy_protocol inet_pton line).
Proof.
  intros m.
  destruct (parse_proxy_protocol_outcome inet_pton line m)
    as [[info ->]|[[msg ->]| ->]]; discriminate.
Qed.

Lemma total_proxy_protocol inet_pton line :
  total (proxy_protocol inet_pton line).
Proof.
  unfold proxy_protocol, proxy_protocol_access_check.
  apply total_bind; [apply total_gets|]. intros enabled.
  destruct (negb enabled); [apply total_ret|].
  apply total_bind; [apply total_gets|]. intros n.
  destruct (negb (n =? 1)); [apply total_ret|].
  destruct (negb (startswith (lit "PROXY") line)); [apply total_ret|].
  apply total_bind.
  - apply total_bind; [apply total_gets|]. intros allow.
    apply total_bind; [apply total_gets|]. intros [host port|path];
      [|apply total_ret].
    destruct (negb (str_in (lit "*") allow) && negb (str_in host allow));
      [apply total_raise | apply total_ret].
  - intros _. apply total_bind; [apply total_parse_proxy_protocol|].
    intros _. apply total_ret.
Qed.

Lemma total_parse_request_line split_request_uri line :
  total (parse_request_line split_request_uri line).
Proof.
  unfold parse_request_line.
  destruct (map bytes_to_str (bytes_split_max 2 line))
    as [|b0 [|b1 [|b2 [|b3 l]]]]; try apply total_raise.
  destruct (METH_RE_match b0); [|apply total_raise].
  apply total_bind; [apply total_modify|]. intros _.
  apply total_bind; [apply total_modify|]. intros _.
  destruct (split_request_uri b1) as [[[p q] f]|]; [|apply total_raise].
  apply total_bind; [apply total_modify|]. intros _.
  destruct (VERSION_RE_match b2) as [[major minor]|]; [|apply total_raise].
  destruct (int major); [|apply total_raise].
  destruct (int minor); [apply total_modify | apply total_raise].
Qed.

Lemma total_parse split_request_uri inet_pton :
  total (parse split_request_uri inet_pton).
Proof.
  unfold parse.
  apply total_bind; [apply total_get_data|]. intros buf.
  apply total_bind; [apply total_gets|]. intros limit.
  apply total_bind; [apply total_read_line|]. intros [line rbuf].
  apply total_bind; [apply total_proxy_protocol|]. intros is_proxy.
  apply total_bind.
  { destruct is_proxy; [apply total_read_line | apply total_ret]. }
  intros [line' rbuf'].
  apply total_bind; [apply total_parse_request_line|]. intros _.
  intros m. unfold bind, gets.
  destruct (parse_header_loop (S (pending_reads (unreader m))) rbuf' m)
    as [[data|e|] m1] eqn:G;
    apply parse_header_loop_spec in G as (_ & _ & _ & T).
  - cbn [fst]. destruct (str_eqb (slice_to data 2) CRLF).
    + discriminate.
    + pose proof (parse_headers_total
                    (slice_to data (find (CRLF ++ CRLF) data)) m1) as P.
      destruct (parse_headers _ m1) as [[hs|e|] m2]; simpl in *;
        [discriminate | discriminate | congruence].
  - discriminate.
  - exfalso. apply T; [lia | reflexivity].
Qed.

(** Making a request never runs out of fuel: whatever the byte source
    holds, [Request.__init__] returns or raises. *)
Theorem Request_init_total split_request_uri inet_pton c u peer number :
  fst (Request_init split_request_uri inet_pton c u peer number)
  <> OutOfFuel.
Proof.
  unfold Request_init.
  apply total_bind; [apply total_parse|]. intros unused.
  apply total_bind; [apply total_modify|]. intros _.
  apply total_Request_set_body_reader.
Qed.

(** *** Whole requests *)

(** The PROXY line of the specification followed by a GET request. *)
Example proxy_then_get_parsed :
  fst (sample_init proxy_then_get) = Return tt
  /\ proxy_protocol_info (snd (sample_init proxy_then_get))
     = Some {| info_proxy_protocol := lit "TCP4";
               client_addr := lit "192.168.0.1"; client_port := 56324;
               proxy_addr := lit "192.168.0.11"; proxy_port := 443 |}
  /\ method (snd (sample_init proxy_then_get)) = Some (lit "GET")
  /\ path (snd (sample_init proxy_then_get)) = Some (lit "/")
  /\ version (snd (sample_init proxy_then_get)) = Some (1, 1)
  /\ body (snd (sample_init proxy_then_get)) = Some (LengthReader 0).
Proof. repeat split. Qed.

(** A folded header is one field, whose value keeps the line break and
    the white space that starts the continuation line. *)
Example folded_header_parsed :
  fst (sample_init get_with_folded_header) = Return tt
  /\ headers (snd (sample_init get_with_folded_header))
     = [(lit "X-A", lit "v1" ++ CRLF ++ lit " X-A-cont")].
Proof. repeat split. Qed.

(** ** More of the code *)

(** *** Relations that a method keeps *)

Section Keeps.

Variable R : Message -> Message -> Prop.
Hypothesis R_refl : forall m, R m m.
Hypothesis R_trans : forall m1 m2 m3, R m1 m2 -> R m2 m3 -> R m1 m3.

Lemma keeps_bind {A B} (c : M A) (k : A -> M B) :
  keeps R c -> (forall a, keeps R (k a)) -> keeps R (bind c k).
Proof.
  intros Hc Hk m r m' H. unfold bind in H.
  destruct (c m) as [[a|e|] m1] eqn:E; apply Hc in E.
  - eapply R_trans; [exact E|]. eapply Hk; exact H.
  - now inversion H; subst.
  - now inversion H; subst.
Qed.

Lemma keeps_ret {A} (a : A) : keeps R (ret a).
Proof. intros m r m' H. inversion H. apply R_refl. Qed.

Lemma keeps_raise {A} e : keeps R (@raise A e).
Proof. intros m r m' H. inversion H. apply R_refl. Qed.

Lemma keeps_out_of_fuel {A} : keeps R (@out_of_fuel A).
Proof. intros m r m' H. inversion H. apply R_refl. Qed.

Lemma keeps_gets {A} (f : Message -> A) : keeps R (gets f).
Proof. intros m r m' H. inversion H. apply R_refl. Qed.

Lemma keeps_modify f : (forall m, R m (f m)) -> keeps R (modify f).
Proof. intros Hf m r m' H. inversion H. apply Hf. Qed.

End Keeps.

(** Takes a method apart, down to the steps that change [self]. *)
Ltac keeps_step refl trans :=
  first
    [ apply (keeps_ret _ refl)
    | apply (keeps_raise _ refl)
    | apply (keeps_gets _ refl)
    | apply (keeps_out_of_fuel _ refl)
    | apply (keeps_bind _ trans); [|intros ?]
    | match goal with
      | |- keeps _ (if ?b then _ else _) => destruct b
      | |- keeps _ (match ?x with Some _ => _ | None => _ end) => destruct x
      | |- keeps _ (match ?x with (_, _) => _ end) => destruct x
      | |- keeps _ (let '(_, _) := ?x in _) => destruct x
      end ].

Ltac keeps_steps refl trans := repeat keeps_step refl trans.

(** *** set_body_reader changes the body and must_close only *)

Lemma framing_only_refl m : framing_only m m.
Proof. exists (body m), (must_close m). now destruct m. Qed.

Lemma framing_only_trans m1 m2 m3 :
  framing_only m1 m2 -> framing_only m2 m3 -> framing_only m1 m3.
Proof.
  intros (b1 & c1 & -> & H1) (b2 & c2 & -> & H2).
  exists b2, c2. split; [reflexivity|]. intros H. apply H2. simpl. auto.
Qed.

Lemma framing_only_close m : framing_only m (set_must_close true m).
Proof. exists (body m), true. now destruct m. Qed.

Lemma framing_only_body b m : framing_only m (set_body b m).
Proof. exists b, (must_close m). now destruct m. Qed.

Lemma keeps_framing_scan_header n v c cl :
  keeps framing_only (scan_header n v c cl).
Proof.
  unfold scan_header, force_close.
  keeps_steps framing_only_refl framing_only_trans;
    apply keeps_modify; apply framing_only_close.
Qed.

Lemma keeps_framing_scan_headers hs :
  forall c cl, keeps framing_only (scan_headers hs c cl).
Proof.
  induction hs as [|[n v] hs IH]; intros c cl; simpl.
  - apply keeps_ret, framing_only_refl.
  - apply keeps_bind; [apply framing_only_trans
                      | apply keeps_framing_scan_header |].
    intros [c' cl']. apply IH.
Qed.

Lemma keeps_framing_choose_reader c cl :
  keeps framing_only (choose_reader c cl).
Proof.
  unfold choose_reader, get_version, force_close.
  keeps_steps framing_only_refl framing_only_trans;
    apply keeps_modify;
    first [apply framing_only_close | apply framing_only_body].
Qed.

Lemma keeps_framing_Request_set_body_reader :
  keeps framing_only Request_set_body_reader.
Proof.
  unfold Request_set_body_reader, Message_set_body_reader.
  apply keeps_bind; [apply framing_only_trans | |].
  - apply keeps_bind; [apply framing_only_trans
                      | apply keeps_gets, framing_only_refl |].
    intros hs.
    apply keeps_bind; [apply framing_only_trans
                      | apply keeps_framing_scan_headers |].
    intros [c cl]. apply keeps_framing_choose_reader.
  - intros _.
    apply keeps_bind; [apply framing_only_trans
                      | apply keeps_gets, framing_only_refl |].
    intros [[| |]|];
      first [ apply keeps_ret, framing_only_refl
            | apply keeps_modify; intros; apply framing_only_body ].
Qed.

(** X1: set_body_reader, whether it returns or raises, leaves every
    attribute of the request as it was but the body and must_close, and it
    never clears must_close. *)
Theorem set_body_reader_changes_framing_only m r m' :
  Request_set_body_reader m = (r, m') ->
  (exists b c, m' = set_body b (set_must_close c m))
  /\ (must_close m = true -> must_close m' = true)
  /\ headers m' = headers m /\ version m' = version m
  /\ scheme m' = scheme m /\ unreader m' = unreader m
  /\ method m' = method m /\ proxy_protocol_info m' = proxy_protocol_info m.
Proof.
  intros H. apply keeps_framing_Request_set_body_reader in H.
  destruct H as (b & c & -> & Hc).
  split; [eauto|]. split; [exact Hc|]. repeat split.
Qed.

Lemma set_body_reader_changes_framing_only_witness :
  must_close (snd (Request_set_body_reader closing_CL_10)) = true
  /\ headers (snd (Request_set_body_reader closing_CL_10))
     = headers closing_CL_10.
Proof.
  destruct (set_body_reader_changes_framing_only closing_CL_10 _ _
              (surjective_pairing _)) as (_ & Hc & Hh & _).
  split; [apply Hc; reflexivity | exact Hh].
Defined.

(** *** The reader of a request *)

Lemma choose_reader_body c cl m m1 :
  choose_reader c cl m = (Return tt, m1) ->
  (c = true /\ body m1 = Some ChunkedReader)
  \/ (c = false /\ exists value n,
        cl = Some value /\ int value = Some n /\ 0 <= n
        /\ body m1 = Some (LengthReader n))
  \/ (c = false /\ cl = None /\ body m1 = Some EOFReader).
Proof.
  unfold choose_reader, get_version, bind, gets, ret, raise, force_close,
    modify.
  destruct c.
  - intros H. left. split; [reflexivity|].
    destruct (version m) as [ver|]; [|discriminate].
    repeat match type of H with
           | context [if ?b then _ else _] => destruct b; cbn in H
           | context [match ?x with Some _ => _ | None => _ end] =>
               destruct x; cbn in H
           end; try discriminate; now inversion H.
  - intros H. right. destruct cl as [value|].
    + left. split; [reflexivity|].
      destruct (isnumeric value); [|discriminate].
      destruct (int value) as [n|] eqn:I; [|discriminate].
      destruct (n <? 0) eqn:L; [discriminate|]. apply Z.ltb_ge in L.
      inversion H. exists value, n. repeat split; assumption.
    + right. inversion H. now repeat split.
Qed.

(** X2: when set_body_reader returns, the body of the request is read
    either by chunks or to a length that is not negative; it is never read
    until the connection closes. *)
Theorem request_body_is_chunked_or_counted m m' :
  Request_set_body_reader m = (Return tt, m') ->
  body m' = Some ChunkedReader
  \/ exists n, 0 <= n /\ body m' = Some (LengthReader n).
Proof.
  unfold Request_set_body_reader, Message_set_body_reader, bind, gets.
  destruct (scan_headers (headers m) false None m) as [[[c cl]|e|] m1];
    [|discriminate|discriminate].
  destruct (choose_reader c cl m1) as [[[]|e|] m2] eqn:E;
    [|discriminate|discriminate].
  apply choose_reader_body in E
    as [[_ B] | [(_ & value & n & _ & _ & N & B) | (_ & _ & B)]];
    rewrite B; unfold ret, modify; intros H; inversion H; subst.
  - now left.
  - right. exists n. now split.
  - right. exists 0. split; [lia | reflexivity].
Qed.

Lemma request_body_is_chunked_or_counted_witness :
  body (snd (Request_set_body_reader CL_10)) = Some ChunkedReader
  \/ exists n,
       0 <= n /\ body (snd (Request_set_body_reader CL_10))
                 = Some (LengthReader n).
Proof.
  exact (request_body_is_chunked_or_counted CL_10 _ eq_refl).
Defined.

(** *** Chunked alone, and codings after chunked *)

Lemma scan_header_chunked v cl m :
  str_eqb (lower v) (lit "chunked") = true ->
  scan_header (lit "TRANSFER-ENCODING") v false cl m = (Return (true, cl), m).
Proof. intros H. unfold scan_header. now rewrite H. Qed.

(** X3: when the only framing header of a message is one
    Transfer-Encoding field with the value chunked (in any letter case),
    set_body_reader chooses the chunked reader; for a version of at least
    1.1 it changes nothing else, and for a version below 1.1 it sets
    must_close and, with tolerate_dangerous_framing off, raises
    InvalidHeader("TRANSFER-ENCODING") instead. *)
Theorem chunked_alone m pre value post ver :
  headers m = pre ++ (lit "TRANSFER-ENCODING", value) :: post ->
  str_eqb (lower value) (lit "chunked") = true ->
  count_name (lit "CONTENT-LENGTH") (headers m) = 0%nat ->
  count_name (lit "TRANSFER-ENCODING") (headers m) = 1%nat ->
  version m = Some ver ->
  Message_set_body_reader m =
  if version_lt ver (1, 1) then
    if Cfg.tolerate_dangerous_framing (cfg m)
    then (Return tt, set_body (Some ChunkedReader) (set_must_close true m))
    else (Raise (InvalidHeader (lit "TRANSFER-ENCODING")),
          set_must_close true m)
  else (Return tt, set_body (Some ChunkedReader) m).
Proof.
  intros Hh Hv Hcl Hte Hver. rewrite Hh in Hcl, Hte.
  rewrite count_name_app, count_name_cons in Hcl, Hte.
  change (has_name (lit "TRANSFER-ENCODING")
            (lit "TRANSFER-ENCODING", value)) with true in Hte.
  change (has_name (lit "CONTENT-LENGTH")
            (lit "TRANSFER-ENCODING", value)) with false in Hcl.
  cbv iota in Hcl, Hte.
  assert (E : scan_headers (headers m) false None m
              = (Return (true, None), m)).
  { rewrite Hh, scan_headers_app.
    rewrite scan_headers_no_framing by lia.
    simpl. unfold bind. rewrite scan_header_chunked by assumption.
    apply scan_headers_no_framing; lia. }
  rewrite (set_body_reader_after_scan _ _ _ _ E).
  unfold choose_reader, get_version, bind, gets, ret, raise, force_close,
    modify.
  rewrite Hver. destruct (version_lt ver (1, 1)); [|reflexivity].
  cbn. now destruct (Cfg.tolerate_dangerous_framing (cfg m)).
Qed.

Lemma chunked_alone_witness :
  Message_set_body_reader (chunked_only false (1, 1))
  = (Return tt, set_body (Some ChunkedReader) (chunked_only false (1, 1)))
  /\ Message_set_body_reader (chunked_only false (1, 0))
     = (Raise (InvalidHeader (lit "TRANSFER-ENCODING")),
        set_must_close true (chunked_only false (1, 0))).
Proof.
  split.
  - exact (chunked_alone (chunked_only false (1, 1))
             [(lit "HOST", lit "example.org")] (lit "Chunked") [] (1, 1)
             eq_refl eq_refl eq_refl eq_refl eq_refl).
  - exact (chunked_alone (chunked_only false (1, 0))
             [(lit "HOST", lit "example.org")] (lit "Chunked") [] (1, 0)
             eq_refl eq_refl eq_refl eq_refl eq_refl).
Defined.

(** X4: once a Transfer-Encoding field has set chunked, a further field
    with the value chunked or identity (in any letter case) raises
    InvalidHeader("TRANSFER-ENCODING"), whatever the configuration, and
    must_close is left as it was. *)
Theorem coding_after_chunked_raises m pre value post content_length m1 :
  headers m = pre ++ (lit "TRANSFER-ENCODING", value) :: post ->
  scan_headers pre false None m = (Return (true, content_length), m1) ->
  str_eqb (lower value) (lit "chunked")
  || str_eqb (lower value) (lit "identity") = true ->
  Message_set_body_reader m
  = (Raise (InvalidHeader (lit "TRANSFER-ENCODING")), m1).
Proof.
  intros Hh Hs Hv. rewrite (set_body_reader_from _ _ _ _ _ _ Hh Hs).
  simpl. unfold bind, scan_header.
  change (str_eqb (lit "TRANSFER-ENCODING") (lit "CONTENT-LENGTH"))
    with false.
  rewrite str_eqb_refl.
  destruct (str_eqb (lower value) (lit "chunked")); [reflexivity|].
  simpl in Hv. now rewrite Hv.
Qed.

Lemma coding_after_chunked_raises_witness :
  Message_set_body_reader chunked_twice
  = (Raise (InvalidHeader (lit "TRANSFER-ENCODING")), chunked_twice).
Proof.
  exact (coding_after_chunked_raises chunked_twice
           [(lit "TRANSFER-ENCODING", lit "chunked")] (lit "chunked") []
           None chunked_twice eq_refl eq_refl eq_refl).
Defined.

(** *** should_close, the other values *)

(** X5: should_close never changes the request; with must_close unset and
    a first Connection field that says keep-alive (letter case and white
    space around it aside) it returns false, also for HTTP/1.0; with a
    first Connection field that says neither close nor keep-alive the
    fields after it are not looked at, and, as without any Connection
    field, the answer is whether the version is at most 1.0. *)
Theorem should_close_other_values :
  (forall m r m', should_close m = (r, m') -> m' = m)
  /\ (forall m pre value post,
        must_close m = false ->
        headers m = pre ++ (lit "CONNECTION", value) :: post ->
        count_name (lit "CONNECTION") pre = 0%nat ->
        strip (lower value) = lit "keep-alive" ->
        should_close m = (Return false, m))
  /\ (forall m pre value post ver,
        must_close m = false ->
        headers m = pre ++ (lit "CONNECTION", value) :: post ->
        count_name (lit "CONNECTION") pre = 0%nat ->
        strip (lower value) <> lit "close" ->
        strip (lower value) <> lit "keep-alive" ->
        version m = Some ver ->
        should_close m = (Return (version_le ver (1, 0)), m))
  /\ (forall m ver,
        must_close m = false ->
        count_name (lit "CONNECTION") (headers m) = 0%nat ->
        version m = Some ver ->
        should_close m = (Return (version_le ver (1, 0)), m)).
Proof.
  split; [|split; [|split]].
  - intros m r m'. unfold should_close, get_version, bind, gets, ret, raise.
    destruct (must_close m); [now inversion 1|].
    destruct (connection_header (headers m)); [now inversion 1|].
    destruct (version m); now inversion 1.
  - intros m pre value post Hm Hh Hc Hv.
    unfold should_close, bind, gets, ret. rewrite Hm, Hh.
    rewrite connection_header_app by assumption. simpl. now rewrite Hv.
  - intros m pre value post ver Hm Hh Hc H1 H2 Hver.
    unfold should_close, get_version, bind, gets, ret. rewrite Hm, Hh.
    rewrite connection_header_app by assumption. simpl.
    apply str_eqb_neq in H1, H2. now rewrite H1, H2, Hver.
  - intros m ver Hm Hc Hver.
    unfold should_close, get_version, bind, gets, ret. rewrite Hm.
    rewrite <- (app_nil_r (headers m)), connection_header_app by assumption.
    simpl. now rewrite Hver.
Qed.

Lemma should_close_other_values_witness :
  should_close keep_alive_http10 = (Return false, keep_alive_http10)
  /\ should_close upgrade_then_close = (Return false, upgrade_then_close).
Proof.
  destruct should_close_other_values as (_ & H1 & H2 & _). split.
  - exact (H1 keep_alive_http10 [] (lit " Keep-Alive ") []
              eq_refl eq_refl eq_refl eq_refl).
  - apply (H2 upgrade_then_close [] (lit "upgrade")
              [(lit "CONNECTION", lit "close")] (1, 1));
      try reflexivity; discriminate.
Defined.

(** *** Searching a text *)

Lemma startswith_app p t : startswith p (p ++ t) = true.
Proof. induction p as [|x p IH]; simpl; [reflexivity|]. now rewrite N.eqb_refl. Qed.

Lemma startswith_split p s :
  startswith p s = true -> exists t, s = p ++ t.
Proof.
  revert s. induction p as [|x p IH]; intros s H; [now exists s|].
  destruct s as [|y s]; [discriminate|]. simpl in H.
  apply andb_true_iff in H as [Hx H]. apply N.eqb_eq in Hx. subst y.
  destruct (IH s H) as [t ->]. now exists t.
Qed.

(** [find_from] returns -1 when the text does not occur, and otherwise the
    place of its first occurrence. *)
Lemma find_from_spec p s :
  p <> [] ->
  forall i,
    (find_from p s i = -1 /\ absent p s)
    \/ (exists a b,
          s = a ++ p ++ b /\ find_from p s i = i + len a /\ absent p a).
Proof.
  intros Hp. induction s as [|c s IH]; intros i.
  - left. simpl. destruct p as [|x p]; [congruence|]. split; [reflexivity|].
    intros a b H. destruct a; discriminate.
  - cbn [find_from]. destruct (startswith p (c :: s)) eqn:S.
    + right. destruct (startswith_split _ _ S) as [t E].
      exists [], t. split; [exact E|].
      split; [unfold len; cbn [List.length]; lia|].
      intros a b H. destruct p as [|x p]; [congruence|].
      destruct a; discriminate.
    + destruct (IH (i + 1)) as [[F A] | (a & b & E & F & A)].
      * left. split; [exact F|]. intros a b H.
        destruct a as [|y a].
        -- simpl in H. rewrite H, startswith_app in S. discriminate.
        -- inversion H. now apply (A a b).
      * right. exists (c :: a), b. split; [now rewrite E|].
        split; [rewrite F; unfold len; cbn [List.length]; lia|].
        intros x y H. destruct x as [|z x].
        -- simpl in H. rewrite E in S.
           assert (K : c :: a ++ p ++ b = p ++ (y ++ p ++ b)).
           { change (c :: a ++ p ++ b) with ((c :: a) ++ p ++ b).
             rewrite H. simpl. now rewrite <- !app_assoc. }
           rewrite K, startswith_app in S. discriminate.
        -- inversion H. now apply (A x y).
Qed.

Lemma find_absent p s : p <> [] -> absent p s -> find p s = -1.
Proof.
  intros Hp A. destruct (find_from_spec p s Hp 0) as [[F _]|(a & b & E & _)];
    [exact F | now apply A in E].
Qed.

Lemma firstn_length_app {A} (a r : list A) :
  firstn (List.length a) (a ++ r) = a.
Proof. induction a as [|x a IH]; simpl; [reflexivity | now rewrite IH]. Qed.

Lemma skipn_length_app {A} (a r : list A) :
  skipn (List.length a) (a ++ r) = r.
Proof. induction a as [|x a IH]; simpl; [reflexivity | exact IH]. Qed.

(** A text in which [p] is found at [idx] is the part before [idx], in
    which [p] does not occur, then [p], then the rest. *)
Lemma find_found p s :
  p <> [] ->
  0 <= find p s ->
  s = slice_to s (find p s) ++ p ++ slice_from s (find p s + len p)
  /\ find p (slice_to s (find p s)) = -1.
Proof.
  intros Hp H. unfold find in *.
  destruct (find_from_spec p s Hp 0) as [[F _]|(a & b & E & F & A)]; [lia|].
  rewrite F. unfold slice_to, slice_from, len.
  replace (Z.to_nat (0 + Z.of_nat (List.length a))) with (List.length a)
    by lia.
  replace (Z.to_nat (0 + Z.of_nat (List.length a)
                     + Z.of_nat (List.length p)))
    with (List.length (a ++ p)) by (rewrite length_app; lia).
  assert (E1 : firstn (List.length a) s = a)
    by (rewrite E; apply firstn_length_app).
  assert (E2 : skipn (List.length (a ++ p)) s = b)
    by (rewrite E, app_assoc; apply skipn_length_app).
  rewrite E1, E2. split; [exact E|]. now apply find_absent.
Qed.

Lemma find_range p s : find p s = -1 \/ 0 <= find p s.
Proof.
  destruct p as [|x p].
  - right. unfold find. destruct s; simpl; lia.
  - unfold find.
    destruct (find_from_spec (x :: p) s (ltac:(discriminate)) 0)
      as [[F _]|(a & b & _ & F & _)]; [now left|].
    right. rewrite F. unfold len. lia.
Qed.

(** *** No byte is lost *)

(** A pull moves bytes from the byte source to the end of the buffer, and
    leaves nothing pushed back in the source. *)
Lemma get_data_conserves buf stop m data m' :
  get_data buf stop m = (Return data, m') ->
  data ++ source_bytes (unreader m') = buf ++ source_bytes (unreader m)
  /\ unread_buf (unreader m') = [].
Proof.
  unfold get_data, bind, unreader_read, source_bytes, raise, ret.
  intros H.
  destruct (unread_buf (unreader m)) as [|b bs] eqn:B.
  - destruct (chunks (unreader m)) as [|[|d ds] rest] eqn:C.
    + destruct stop; discriminate.
    + destruct stop; discriminate.
    + inversion H; subst. simpl. split; [|reflexivity].
      now rewrite <- app_assoc.
  - inversion H; subst. simpl. split; [|reflexivity].
    now rewrite <- app_assoc.
Qed.

Lemma CRLF_not_nil : CRLF <> [].
Proof. discriminate. Qed.

Lemma read_line_loop_conserves fuel :
  forall buf limit m line rest m',
    read_line_loop fuel buf limit m = (Return (line, rest), m') ->
    find CRLF line = -1
    /\ line ++ CRLF ++ rest ++ source_bytes (unreader m')
       = buf ++ source_bytes (unreader m)
    /\ (0 < limit -> len line <= limit)
    /\ (unread_buf (unreader m) = [] -> unread_buf (unreader m') = []).
Proof.
  induction fuel as [|fuel IH]; intros buf limit m line rest m' H;
    cbn [read_line_loop] in H.
  - destruct (0 <=? find CRLF buf) eqn:F.
    + apply Z.leb_le in F.
      destruct ((limit <? find CRLF buf) && (0 <? limit)) eqn:L;
        [discriminate|].
      inversion H; subst.
      destruct (find_found CRLF buf CRLF_not_nil F) as [E A].
      split; [exact A|]. split.
      { rewrite !app_assoc. rewrite <- (app_assoc _ CRLF).
        change (len CRLF) with 2 in E. now rewrite <- E. }
      split; [|auto]. intros P.
      apply andb_false_iff in L as [L|L].
      * apply Z.ltb_ge in L. unfold slice_to, len.
        rewrite length_firstn. lia.
      * apply Z.ltb_ge in L. lia.
    + destruct ((limit <? len buf - 2) && (0 <? limit)); discriminate.
  - destruct (0 <=? find CRLF buf) eqn:F.
    + apply Z.leb_le in F.
      destruct ((limit <? find CRLF buf) && (0 <? limit)) eqn:L;
        [discriminate|].
      inversion H; subst.
      destruct (find_found CRLF buf CRLF_not_nil F) as [E A].
      split; [exact A|]. split.
      { rewrite !app_assoc. rewrite <- (app_assoc _ CRLF).
        change (len CRLF) with 2 in E. now rewrite <- E. }
      split; [|auto]. intros P.
      apply andb_false_iff in L as [L|L].
      * apply Z.ltb_ge in L. unfold slice_to, len.
        rewrite length_firstn. lia.
      * apply Z.ltb_ge in L. lia.
    + destruct ((limit <? len buf - 2) && (0 <? limit)); [discriminate|].
      unfold bind in H.
      destruct (get_data buf false m) as [[data|e|] m1] eqn:G;
        [|discriminate|discriminate].
      apply get_data_conserves in G as [G1 G2].
      apply IH in H as (H1 & H2 & H3 & H4).
      split; [exact H1|]. split; [now rewrite H2|]. split; auto.
Qed.

(** X6: the line that read_line returns holds no line end and, under a
    limit that is not 0, is no longer than the limit; the line, the line
    end, the rest that is returned with it and what the byte source still
    holds are, in this order, the buffer it was given and what the byte
    source held: no byte is lost or moved. *)
Theorem read_line_returns_first_line buf limit m line rest m' :
  read_line buf limit m = (Return (line, rest), m') ->
  find CRLF line = -1
  /\ (0 < limit -> len line <= limit)
  /\ line ++ CRLF ++ rest ++ source_bytes (unreader m')
     = buf ++ source_bytes (unreader m).
Proof.
  unfold read_line. intros H.
  apply read_line_loop_conserves in H as (H1 & H2 & H3 & _). auto.
Qed.

Lemma read_line_returns_first_line_witness :
  find CRLF (lit "GET / HTTP/1.1") = -1
  /\ (0 < 4094 -> len (lit "GET / HTTP/1.1") <= 4094)
  /\ lit "GET / HTTP/1.1" ++ CRLF ++ lit "Host: a"
       ++ source_bytes {| unread_buf := []; chunks := [] |}
     = [] ++ source_bytes (unreader two_chunk_request).
Proof.
  exact (read_line_returns_first_line [] 4094 two_chunk_request
           (lit "GET / HTTP/1.1") (lit "Host: a")
           (sample_request 100 8190 []) eq_refl).
Defined.

Lemma same_unreader_refl m : same_unreader m m.
Proof. reflexivity. Qed.

Lemma same_unreader_trans m1 m2 m3 :
  same_unreader m1 m2 -> same_unreader m2 m3 -> same_unreader m1 m3.
Proof. unfold same_unreader. congruence. Qed.

Lemma keeps_unreader_parse_proxy_protocol inet_pton line :
  keeps same_unreader (parse_proxy_protocol inet_pton line).
Proof.
  intros m r m' H.
  destruct (parse_proxy_protocol_outcome inet_pton line m)
    as [[info E]|[[msg E]|E]]; rewrite E in H; inversion H; reflexivity.
Qed.

Lemma keeps_unreader_proxy_protocol inet_pton line :
  keeps same_unreader (proxy_protocol inet_pton line).
Proof.
  unfold proxy_protocol, proxy_protocol_access_check.
  keeps_steps same_unreader_refl same_unreader_trans.
  - match goal with
    | |- keeps _ (match ?a with Inet _ _ => _ | Unix _ => _ end) =>
        destruct a
    end; keeps_steps same_unreader_refl same_unreader_trans.
  - apply keeps_unreader_parse_proxy_protocol.
Qed.

Lemma keeps_unreader_parse_request_line split_request_uri line :
  keeps same_unreader (parse_request_line split_request_uri line).
Proof.
  unfold parse_request_line.
  destruct (map bytes_to_str (bytes_split_max 2 line))
    as [|b0 [|b1 [|b2 [|b3 l]]]];
    try apply (keeps_raise _ same_unreader_refl).
  destruct (METH_RE_match b0); [|apply (keeps_raise _ same_unreader_refl)].
  apply (keeps_bind _ same_unreader_trans);
    [apply keeps_modify; reflexivity|]. intros _.
  apply (keeps_bind _ same_unreader_trans);
    [apply keeps_modify; reflexivity|]. intros _.
  destruct (split_request_uri b1) as [[[p q] f]|];
    [|apply (keeps_raise _ same_unreader_refl)].
  apply (keeps_bind _ same_unreader_trans);
    [apply keeps_modify; reflexivity|]. intros _.
  destruct (VERSION_RE_match b2) as [[major minor]|];
    [|apply (keeps_raise _ same_unreader_refl)].
  destruct (int major); [|apply (keeps_raise _ same_unreader_refl)].
  destruct (int minor);
    [apply keeps_modify; reflexivity
    | apply (keeps_raise _ same_unreader_refl)].
Qed.

Lemma keeps_unreader_parse_headers data :
  keeps same_unreader (parse_headers data).
Proof.
  intros m r m' H.
  unfold parse_headers, bind, gets in H.
  apply parse_headers_loop_scheme in H as [[->|[s ->]] _]; reflexivity.
Qed.

Lemma parse_header_loop_conserves fuel :
  forall buf m data m',
    parse_header_loop fuel buf m = (Return data, m') ->
    data ++ source_bytes (unreader m') = buf ++ source_bytes (unreader m)
    /\ (unread_buf (unreader m) = [] -> unread_buf (unreader m') = []).
Proof.
  induction fuel as [|fuel IH]; intros buf m data m' H.
  - destruct (block_complete buf) eqn:B.
    + rewrite parse_header_loop_complete in H by assumption.
      inversion H; subst. auto.
    + unfold block_complete in B. apply negb_false_iff in B.
      cbn [parse_header_loop] in H. rewrite B in H. discriminate.
  - destruct (block_complete buf) eqn:B.
    + rewrite parse_header_loop_complete in H by assumption.
      inversion H; subst. auto.
    + destruct (get_data buf false m) as [[d|e|] m1] eqn:G.
      * rewrite (parse_header_loop_round _ _ _ _ _ B G) in H.
        destruct (max_buffer_headers m <? len d); [discriminate|].
        apply get_data_conserves in G as [G1 G2].
        apply IH in H as [H1 H2]. split; [now rewrite H1 | auto].
      * unfold block_complete in B. apply negb_false_iff in B.
        cbn [parse_header_loop] in H. rewrite B in H. unfold bind in H.
        rewrite G in H. discriminate.
      * unfold block_complete in B. apply negb_false_iff in B.
        cbn [parse_header_loop] in H. rewrite B in H. unfold bind in H.
        rewrite G in H. discriminate.
Qed.

Lemma sample_init_pipelined_returns :
  Request_init uri_as_path inet_pton_ipv4 (sample_cfg 100 8190 false)
    {| unread_buf := []; chunks := [pipelined] |} sample_peer 1
  = (Return tt, snd (sample_init pipelined)).
Proof.
  unfold sample_init.
  set (x := Request_init _ _ _ _ _ _).
  assert (H : fst x = Return tt) by (vm_compute; reflexivity).
  destruct x as [r m]. simpl in *. now subst.
Qed.

(** The second of two requests that arrived together is left in the byte
    source. *)
Example pipelined_request_left :
  source_bytes (unreader (snd (sample_init pipelined)))
  = lit "GET /b HTTP/1.1" ++ CRLF ++ CRLF.
Proof. vm_compute. reflexivity. Qed.

(** *** The fields that parse_headers returns *)

Lemma lstrip_by_suffix p s : exists pre, s = pre ++ lstrip_by p s.
Proof.
  induction s as [|c s [pre IH]]; [now exists []|]. simpl.
  destruct (p c); [|now exists []].
  exists (c :: pre). simpl. now rewrite <- IH.
Qed.

Lemma rstrip_by_prefix p s : exists suf, s = rstrip_by p s ++ suf.
Proof.
  unfold rstrip_by. destruct (lstrip_by_suffix p (rev s)) as [pre E].
  exists (rev pre). rewrite <- rev_app_distr, <- E. now rewrite rev_involutive.
Qed.

Lemma lstrip_by_idem p s : lstrip_by p (lstrip_by p s) = lstrip_by p s.
Proof.
  induction s as [|c s IH]; [reflexivity|]. simpl.
  destruct (p c) eqn:E; [exact IH|]. simpl. now rewrite E.
Qed.

Lemma rstrip_by_idem p s : rstrip_by p (rstrip_by p s) = rstrip_by p s.
Proof.
  unfold rstrip_by. now rewrite rev_involutive, lstrip_by_idem.
Qed.

Lemma strip_subset s c : In c (strip s) -> In c s.
Proof.
  unfold strip, lstrip, rstrip. intros H.
  destruct (lstrip_by_suffix isspace (rstrip_by isspace s)) as [pre E].
  destruct (rstrip_by_prefix isspace s) as [suf F].
  rewrite F, E. apply in_or_app. left. apply in_or_app. now right.
Qed.

Lemma len_lstrip s : len (lstrip s) <= len s.
Proof.
  unfold lstrip, len. destruct (lstrip_by_suffix isspace s) as [pre E].
  rewrite E at 2. rewrite length_app. lia.
Qed.

Lemma len_rstrip s : len (rstrip s) <= len s.
Proof.
  unfold rstrip, len. destruct (rstrip_by_prefix isspace s) as [suf E].
  rewrite E at 2. rewrite length_app. lia.
Qed.

Lemma upper_char_not_lower c x :
  In x (upper_char c) -> in_range 97 122 x = false.
Proof.
  unfold upper_char.
  destruct (in_range 97 122 c || in_range 224 254 c && negb (N.eqb c 247))%bool
    eqn:A.
  - intros [<-|[]]. destruct (in_range 97 122 (c - 32)) eqn:B;
      [|reflexivity]. exfalso. char_arith.
  - destruct (N.eqb c 255); [intros [<-|[]]; reflexivity|].
    destruct (N.eqb c 181); [intros [<-|[]]; reflexivity|].
    destruct (N.eqb c 223); [intros [<-|[<-|[]]]; reflexivity|].
    intros [<-|[]]. apply orb_false_iff in A as [A _]. exact A.
Qed.

Lemma upper_not_lower s :
  forallb (fun c => negb (in_range 97 122 c)) (upper s) = true.
Proof.
  apply forallb_forall. intros x Hx. unfold upper in Hx.
  apply in_flat_map in Hx as (c & _ & Hx).
  now rewrite (upper_char_not_lower c x Hx).
Qed.

Lemma forallb_strip f s : forallb f s = true -> forallb f (strip s) = true.
Proof.
  rewrite !forallb_forall. intros H x Hx. apply H. now apply strip_subset.
Qed.

Lemma existsb_strip f s : existsb f s = false -> existsb f (strip s) = false.
Proof.
  intros H. destruct (existsb f (strip s)) eqn:E; [|reflexivity].
  apply existsb_exists in E as (x & Hx & Fx).
  assert (K : existsb f s = true).
  { apply existsb_exists. exists x. split; [now apply strip_subset|exact Fx]. }
  congruence.
Qed.

(** The continuation lines add as much to the value as to the length of
    the field. *)
Lemma continuation_lines_sizes lines :
  forall hl value m lines' hl' value' m',
    continuation_lines lines hl value m
    = (Return (lines', hl', value'), m') ->
    len (List.concat value') - len (List.concat value) = hl' - hl.
Proof.
  induction lines as [|curr lines IH]; intros hl value m lines' hl' value' m' H.
  - inversion H. lia.
  - simpl in H. destruct (starts_with_sp_tab curr); [|inversion H; lia].
    unfold bind, gets, raise in H.
    destruct ((limit_request_field_size m <? hl + len curr)
              && (0 <? limit_request_field_size m)); [discriminate|].
    apply IH in H. rewrite concat_app in H. simpl in H.
    rewrite app_nil_r in H. unfold len in *.
    rewrite length_app in H. lia.
Qed.

Lemma colon_found_not_empty curr :
  (find (lit ":") curr <? 0) = false ->
  len (slice_from curr (find (lit ":") curr + 1)) < len curr.
Proof.
  intros H. apply Z.ltb_ge in H. unfold slice_from, len.
  rewrite length_skipn. destruct curr as [|c curr].
  - change (find (lit ":") []) with (-1) in H. lia.
  - simpl List.length. lia.
Qed.

Lemma header_field_ok curr lines m name value lines' m' :
  header_field curr lines m = (Return (name, value, lines'), m') ->
  field_ok (limit_request_field_size m) (name, value).
Proof.
  unfold header_field. intros H.
  destruct (find (lit ":") curr <? 0) eqn:C; [discriminate|].
  unfold split_colon in H.
  unfold bind, gets, raise, ret in H.
  destruct (HEADER_RE_search _) eqn:S in H; [discriminate|].
  cbv beta in H.
  destruct (continuation_lines lines (len curr)
              [lstrip (slice_from curr (find (lit ":") curr + 1))] m)
    as [[[[l' h'] v']|e|] m1] eqn:E; [|discriminate|discriminate].
  pose proof (continuation_lines_state _ _ _ _ _ _ E). subst m1.
  apply continuation_lines_sizes in E. simpl in E. rewrite app_nil_r in E.
  destruct ((limit_request_field_size m <? h')
            && (0 <? limit_request_field_size m)) eqn:L; [discriminate|].
  inversion H; subst. unfold field_ok. cbn [fst snd].
  split; [now apply existsb_strip|]. split.
  - apply forallb_strip.
    destruct (Cfg.strip_header_spaces (cfg m')); apply upper_not_lower.
  - split; [apply rstrip_by_idem|]. intros P.
    apply andb_false_iff in L as [L|L]; apply Z.ltb_ge in L; [|lia].
    pose proof (len_rstrip (List.concat v')).
    pose proof (len_lstrip (slice_from curr (find (lit ":") curr + 1))).
    pose proof (colon_found_not_empty curr C). lia.
Qed.

Lemma parse_headers_loop_fields fuel ssh :
  forall lines hs flag m out m',
    parse_headers_loop fuel ssh lines hs flag m = (Return out, m') ->
    exists new,
      out = hs ++ new
      /\ Forall (field_ok (limit_request_field_size m)) new
      /\ (new = [] \/ len out <= limit_request_fields m).
Proof.
  induction fuel as [|fuel IH]; intros lines hs flag m out m' H.
  - destruct lines; inversion H; subst.
    exists []. rewrite app_nil_r. auto.
  - destruct lines as [|curr lines].
    { inversion H; subst. exists []. rewrite app_nil_r. auto. }
    simpl in H. unfold bind, gets in H.
    destruct (limit_request_fields m <=? len hs) eqn:L; [discriminate|].
    apply Z.leb_gt in L.
    destruct (header_field curr lines m) as [[[[name value] lines']|e|] m1]
      eqn:F; [|discriminate|discriminate].
    pose proof (header_field_ok _ _ _ _ _ _ _ F) as Ok.
    apply header_field_spec in F as (-> & _).
    rewrite scheme_step_cases in H.
    assert (exists flag' m2,
              parse_headers_loop fuel ssh lines' (hs ++ [(name, value)])
                flag' m2 = (Return out, m')
              /\ limit_request_field_size m2 = limit_request_field_size m
              /\ limit_request_fields m2 = limit_request_fields m)
      as (flag' & m2 & H' & E1 & E2).
    { destruct (derived_scheme ssh (name, value)) as [s|].
      - destruct flag.
        + destruct (str_eqb s (scheme m)); [|discriminate]. eauto.
        + exists true, (set_scheme s m). auto.
      - eauto. }
    apply IH in H' as (new & -> & Fa & N). rewrite E1 in Fa. rewrite E2 in N.
    exists ((name, value) :: new).
    split; [now rewrite <- app_assoc|]. split; [now constructor|]. right.
    destruct N as [->|N]; [|exact N].
    rewrite app_nil_r. unfold len in *. rewrite length_app. simpl. lia.
Qed.

Lemma header_lines_not_nil data : header_lines data <> [].
Proof.
  unfold header_lines.
  assert (N : forall cur s, split_crlf cur s <> []).
  { intros cur s. revert cur.
    induction s as [|c s IH]; intros cur; [discriminate|].
    simpl. destruct s as [|d s]; [discriminate|].
    destruct (N.eqb c 13 && N.eqb d 10)%bool; [discriminate | apply IH]. }
  specialize (N [] data). destruct (split_crlf [] data);
    [congruence | discriminate].
Qed.

Lemma parse_headers_bounds data m hs m' :
  parse_headers data m = (Return hs, m') ->
  1 <= len hs <= limit_request_fields m.
Proof.
  unfold parse_headers, bind, gets. intros H.
  pose proof (header_lines_not_nil data) as N.
  destruct (header_lines data) as [|curr lines] eqn:E; [congruence|].
  pose proof H as H0.
  apply parse_headers_loop_fields in H as (new & -> & _ & [->|L]).
  - exfalso. simpl in H0. unfold bind, gets in H0.
    destruct (limit_request_fields m <=? len []); [discriminate|].
    destruct (header_field curr lines m) as [[[[name value] lines']|e|] m1];
      [|discriminate|discriminate].
    rewrite scheme_step_cases in H0.
    assert (exists flag' m2,
              parse_headers_loop (List.length lines)
                (trusted_scheme_headers m) lines' ([] ++ [(name, value)])
                flag' m2 = (Return [], m')) as (flag' & m2 & H').
    { destruct (derived_scheme (trusted_scheme_headers m) (name, value));
        eauto. }
    apply parse_headers_loop_fields in H' as (new & E' & _).
    destruct new; discriminate.
  - simpl in L. split; [|exact L].
    simpl in H0. unfold bind, gets in H0.
    destruct (limit_request_fields m <=? len []); [discriminate|].
    destruct (header_field curr lines m) as [[[[name value] lines']|e|] m1];
      [|discriminate|discriminate].
    rewrite scheme_step_cases in H0.
    assert (exists flag' m2,
              parse_headers_loop (List.length lines)
                (trusted_scheme_headers m) lines' ([] ++ [(name, value)])
                flag' m2 = (Return new, m')) as (flag' & m2 & H').
    { destruct (derived_scheme (trusted_scheme_headers m) (name, value));
        eauto. }
    apply parse_headers_loop_fields in H' as (new' & -> & _).
    unfold len. simpl. lia.
Qed.

(** X8: parse_headers returns at least one field and at most
    limit_request_fields of them. *)
Theorem parse_headers_count data m hs m' :
  parse_headers data m = (Return hs, m') ->
  1 <= len hs <= limit_request_fields m.
Proof. apply parse_headers_bounds. Qed.

Lemma parse_headers_count_witness :
  1 <= len [(lit "X-TOKEN", lit "abc")]
  <= limit_request_fields (sample_request 100 8190 []).
Proof.
  exact (parse_headers_count one_header (sample_request 100 8190 [])
           [(lit "X-TOKEN", lit "abc")] (sample_request 100 8190 [])
           eq_refl).
Defined.

Lemma parse_headers_fields_ok data m hs m' :
  parse_headers data m = (Return hs, m') ->
  Forall (field_ok (limit_request_field_size m)) hs.
Proof.
  unfold parse_headers, bind, gets. intros H.
  now apply parse_headers_loop_fields in H as (new & -> & F & _).
Qed.

(** X9: the names of the fields that parse_headers returns hold none of
    the characters that HEADER_RE rejects (control characters, space, tab
    and the separators) and no lowercase ASCII letter. *)
Theorem parse_headers_names data m hs m' name value :
  parse_headers data m = (Return hs, m') ->
  In (name, value) hs ->
  HEADER_RE_search name = false
  /\ forallb (fun c => negb (in_range 97 122 c)) name = true.
Proof.
  intros H Hin. apply parse_headers_fields_ok in H.
  rewrite Forall_forall in H. destruct (H _ Hin) as (H1 & H2 & _).
  now split.
Qed.

Lemma parse_headers_names_witness :
  HEADER_RE_search (lit "X-TOKEN") = false
  /\ forallb (fun c => negb (in_range 97 122 c)) (lit "X-TOKEN") = true.
Proof.
  apply (parse_headers_names one_header (sample_request 100 8190 [])
           [(lit "X-TOKEN", lit "abc")] (sample_request 100 8190 [])
           (lit "X-TOKEN") (lit "abc") eq_refl).
  left. reflexivity.
Defined.

(** X10: the values of the fields that parse_headers returns do not end
    with white space, and under a limit_request_field_size that is not 0
    each of them is shorter than that limit. *)
Theorem parse_headers_values data m hs m' name value :
  parse_headers data m = (Return hs, m') ->
  In (name, value) hs ->
  rstrip value = value
  /\ (0 < limit_request_field_size m ->
      len value < limit_request_field_size m).
Proof.
  intros H Hin. apply parse_headers_fields_ok in H.
  rewrite Forall_forall in H. destruct (H _ Hin) as (_ & _ & H3 & H4).
  now split.
Qed.

Lemma parse_headers_values_witness :
  rstrip (lit "abc") = lit "abc"
  /\ (0 < limit_request_field_size (sample_request 100 8190 []) ->
      len (lit "abc") < limit_request_field_size (sample_request 100 8190 [])).
Proof.
  apply (parse_headers_values one_header (sample_request 100 8190 [])
           [(lit "X-TOKEN", lit "abc")] (sample_request 100 8190 [])
           (lit "X-TOKEN") (lit "abc") eq_refl).
  left. reflexivity.
Defined.

(** *** The scheme of a peer that is not trusted *)

Lemma parse_headers_loop_no_scheme_header fuel :
  forall lines hs flag m r m',
    parse_headers_loop fuel [] lines hs flag m = (r, m') -> m' = m.
Proof.
  induction fuel as [|fuel IH]; intros lines hs flag m r m' H.
  - destruct lines; now inversion H.
  - destruct lines as [|curr lines]; [now inversion H|].
    simpl in H. unfold bind, gets in H.
    destruct (limit_request_fields m <=? len hs); [now inversion H|].
    destruct (header_field curr lines m) as [[[[name value] lines']|e|] m1]
      eqn:F; apply header_field_spec in F as (-> & T & _).
    + rewrite scheme_step_cases in H. simpl in H. eauto.
    + now inversion H.
    + congruence.
Qed.

(** X11: when the peer is a network address that is not in
    forwarded_allow_ips, and that list does not hold the star, a pass of
    parse_headers changes nothing of the request, whatever the headers
    say: the scheme stays as it was. *)
Theorem untrusted_peer_keeps_scheme data m r m' :
  scheme_headers_trusted m = false ->
  parse_headers data m = (r, m') ->
  m' = m.
Proof.
  intros T H. unfold parse_headers, bind, gets, trusted_scheme_headers in H.
  rewrite T in H. now apply parse_headers_loop_no_scheme_header in H.
Qed.

Lemma untrusted_peer_keeps_scheme_witness :
  snd (parse_headers (two_scheme_headers "on") untrusted_peer_request)
  = untrusted_peer_request.
Proof.
  exact (untrusted_peer_keeps_scheme (two_scheme_headers "on")
           untrusted_peer_request _ _ eq_refl (surjective_pairing _)).
Defined.

(** *** What reading and parsing the header block leave alone *)

Lemma block_only_refl m : block_only m m.
Proof.
  exists (unreader m), (headers m), (scheme m), (body m), (must_close m).
  now destruct m.
Qed.

Lemma block_only_trans m1 m2 m3 :
  block_only m1 m2 -> block_only m2 m3 -> block_only m1 m3.
Proof.
  intros (u1 & h1 & s1 & b1 & c1 & ->) (u2 & h2 & s2 & b2 & c2 & ->).
  now exists u2, h2, s2, b2, c2.
Qed.

Lemma block_only_unreader u m : block_only m (set_unreader u m).
Proof.
  exists u, (headers m), (scheme m), (body m), (must_close m).
  now destruct m.
Qed.

Lemma block_only_headers h m : block_only m (set_headers h m).
Proof.
  exists (unreader m), h, (scheme m), (body m), (must_close m).
  now destruct m.
Qed.

Lemma block_only_scheme s m : block_only m (set_scheme s m).
Proof.
  exists (unreader m), (headers m), s, (body m), (must_close m).
  now destruct m.
Qed.

Lemma block_only_framing m m' : framing_only m m' -> block_only m m'.
Proof.
  intros (b & c & -> & _).
  exists (unreader m), (headers m), (scheme m), b, c. now destruct m.
Qed.

Lemma keeps_weaken {A} (R R' : Message -> Message -> Prop) (c : M A) :
  (forall m m', R m m' -> R' m m') -> keeps R c -> keeps R' c.
Proof. intros H K m r m' E. apply H. eapply K. exact E. Qed.

Ltac block_steps := keeps_steps block_only_refl block_only_trans.

Lemma keeps_block_unreader_read : keeps block_only unreader_read.
Proof.
  intros m r m' H. unfold unreader_read in H.
  destruct (unread_buf (unreader m));
    [destruct (chunks (unreader m))|]; inversion H;
    first [apply block_only_refl | apply block_only_unreader].
Qed.

Lemma keeps_block_get_data buf stop : keeps block_only (get_data buf stop).
Proof.
  unfold get_data.
  apply (keeps_bind _ block_only_trans); [apply keeps_block_unreader_read|].
  intros [|x data]; block_steps.
Qed.

Lemma keeps_block_read_line_loop fuel :
  forall buf limit, keeps block_only (read_line_loop fuel buf limit).
Proof.
  induction fuel as [|fuel IH]; intros buf limit; cbn [read_line_loop];
    repeat first [ apply keeps_block_get_data | apply IH
                 | keeps_step block_only_refl block_only_trans ].
Qed.

Lemma keeps_block_read_line buf limit : keeps block_only (read_line buf limit).
Proof.
  intros m r m' H. unfold read_line in H.
  eapply keeps_block_read_line_loop. exact H.
Qed.

Lemma keeps_block_parse_header_loop fuel :
  forall buf, keeps block_only (parse_header_loop fuel buf).
Proof.
  induction fuel as [|fuel IH]; intros buf; cbn [parse_header_loop];
    repeat first [ apply keeps_block_get_data | apply IH
                 | keeps_step block_only_refl block_only_trans ].
Qed.

Lemma keeps_block_parse_headers data : keeps block_only (parse_headers data).
Proof.
  intros m r m' H.
  unfold parse_headers, bind, gets in H.
  apply parse_headers_loop_scheme in H as [[->|[s ->]] _];
    [apply block_only_refl | apply block_only_scheme].
Qed.

Lemma keeps_block_unreader_unread data :
  keeps block_only (unreader_unread data).
Proof. apply keeps_modify. intros m. apply block_only_unreader. Qed.

Lemma keeps_block_Request_set_body_reader :
  keeps block_only Request_set_body_reader.
Proof.
  eapply keeps_weaken; [exact block_only_framing|].
  apply keeps_framing_Request_set_body_reader.
Qed.

(** *** The ProxyInfo of a request *)

Section KeepsRequestLine.

Variable R : Message -> Message -> Prop.
Hypothesis R_refl : forall m, R m m.
Hypothesis R_trans : forall m1 m2 m3, R m1 m2 -> R m2 m3 -> R m1 m3.
Hypothesis R_method : forall x m, R m (set_method x m).
Hypothesis R_uri : forall x m, R m (set_uri x m).
Hypothesis R_parts : forall p q f m, R m (set_parts p q f m).
Hypothesis R_version : forall v m, R m (set_version v m).

Lemma keeps_parse_request_line split_request_uri line :
  keeps R (parse_request_line split_request_uri line).
Proof.
  unfold parse_request_line.
  destruct (map bytes_to_str (bytes_split_max 2 line))
    as [|b0 [|b1 [|b2 [|b3 l]]]];
    try apply (keeps_raise _ R_refl).
  destruct (METH_RE_match b0); [|apply (keeps_raise _ R_refl)].
  apply (keeps_bind _ R_trans); [apply keeps_modify, R_method|]. intros _.
  apply (keeps_bind _ R_trans); [apply keeps_modify, R_uri|]. intros _.
  destruct (split_request_uri b1) as [[[p q] f]|];
    [|apply (keeps_raise _ R_refl)].
  apply (keeps_bind _ R_trans); [apply keeps_modify, R_parts|]. intros _.
  destruct (VERSION_RE_match b2) as [[major minor]|];
    [|apply (keeps_raise _ R_refl)].
  destruct (int major); [|apply (keeps_raise _ R_refl)].
  destruct (int minor);
    [apply keeps_modify, R_version | apply (keeps_raise _ R_refl)].
Qed.

End KeepsRequestLine.

Lemma proxy_gate_refl inet_pton m : proxy_gate inet_pton m m.
Proof. unfold proxy_gate. auto. Qed.

Lemma proxy_gate_trans inet_pton m1 m2 m3 :
  proxy_gate inet_pton m1 m2 -> proxy_gate inet_pton m2 m3 ->
  proxy_gate inet_pton m1 m3.
Proof.
  intros (C1 & P1 & N1 & H1) (C2 & P2 & N2 & H2).
  split; [congruence|]. split; [congruence|]. split; [congruence|].
  destruct H2 as [H2|(E & N & A & info & I & K)].
  - destruct H1 as [H1|(E & N & A & info & I & K)].
    + left. congruence.
    + right. split; [exact E|]. split; [exact N|]. split; [exact A|].
      exists info. split; [congruence | exact K].
  - right. rewrite C1, P1 in A. rewrite C1 in E. rewrite N1 in N.
    split; [exact E|]. split; [exact N|]. split; [exact A|].
    exists info. now split.
Qed.

Lemma proxy_gate_block inet_pton m m' :
  block_only m m' -> proxy_gate inet_pton m m'.
Proof.
  intros (u & h & s & b & c & ->). unfold proxy_gate. simpl. auto.
Qed.

Lemma access_check_cases m :
  (proxy_allowed (cfg m) (peer_addr m) = true
   /\ proxy_protocol_access_check m = (Return tt, m))
  \/ exists host port,
       peer_addr m = Inet host port
       /\ proxy_allowed (cfg m) (peer_addr m) = false
       /\ proxy_protocol_access_check m
          = (Raise (ForbiddenProxyRequest host), m).
Proof.
  unfold proxy_protocol_access_check, proxy_allowed, bind, gets.
  destruct (peer_addr m) as [host port|p]; [|now left].
  destruct (str_in (lit "*") (Cfg.proxy_allow_ips (cfg m)));
    [now left|].
  destruct (str_in host (Cfg.proxy_allow_ips (cfg m))); [now left|].
  right. now exists host, port.
Qed.

(** The ProxyInfo that parse_proxy_protocol records has been checked. *)
Lemma parse_proxy_protocol_info inet_pton line m :
  (exists info,
     parse_proxy_protocol inet_pton line m
     = (Return tt, set_proxy_protocol_info (Some info) m)
     /\ proxy_info_ok inet_pton info)
  \/ exists e, parse_proxy_protocol inet_pton line m = (Raise e, m).
Proof.
  destruct (Nat.eq_dec (List.length (str_split line)) 6) as [L|L].
  2:{ right. eexists. now apply parse_proxy_protocol_not_six. }
  destruct (six_items _ L) as (sig & proto & s & d & t4 & t5 & E).
  rewrite (parse_proxy_protocol_six _ _ _ _ _ _ _ _ _ E).
  destruct (proxy_family proto) as [f|] eqn:F; [|right; eauto].
  destruct (existsb (N.eqb 0) s); [right; eauto|].
  destruct (inet_pton f s) eqn:A1; cbn [negb]; [|right; eauto].
  destruct (existsb (N.eqb 0) d); [right; eauto|].
  destruct (inet_pton f d) eqn:A2; cbn [negb]; [|right; eauto].
  destruct (int t4) as [p4|]; [|right; eauto].
  destruct (int t5) as [p5|]; [|right; eauto].
  destruct ((0 <=? p4) && (p4 <=? 65535)
            && ((0 <=? p5) && (p5 <=? 65535))) eqn:P; [left | right; eauto].
  eexists. split; [reflexivity|].
  unfold proxy_info_ok. cbn [info_proxy_protocol client_addr proxy_addr
                              client_port proxy_port].
  split; [now exists f | lia].
Qed.

Lemma keeps_gate_proxy_protocol inet_pton line :
  keeps (proxy_gate inet_pton) (proxy_protocol inet_pton line).
Proof.
  intros m r m' H. unfold proxy_protocol, bind, gets in H.
  destruct (Cfg.proxy_protocol (cfg m)) eqn:E; cbn [negb] in H;
    [|inversion H; apply proxy_gate_refl].
  destruct (req_number m =? 1) eqn:N; cbn [negb] in H;
    [|inversion H; apply proxy_gate_refl].
  destruct (startswith (lit "PROXY") line); cbn [negb] in H;
    [|inversion H; apply proxy_gate_refl].
  destruct (access_check_cases m) as [[A C]|(host & port & _ & _ & C)];
    rewrite C in H; [|inversion H; apply proxy_gate_refl].
  destruct (parse_proxy_protocol_info inet_pton line m)
    as [(info & P & K)|(msg & P)];
    rewrite P in H; [|inversion H; apply proxy_gate_refl].
  inversion H; subst. unfold proxy_gate. cbn.
  split; [reflexivity|]. split; [reflexivity|]. split; [reflexivity|].
  right. split; [exact E|]. split; [lia|]. split; [exact A|].
  now exists info.
Qed.

Lemma keeps_gate_parse split_request_uri inet_pton :
  keeps (proxy_gate inet_pton) (parse split_request_uri inet_pton).
Proof.
  pose proof (proxy_gate_block inet_pton) as B.
  unfold parse.
  repeat first
    [ apply keeps_gate_proxy_protocol
    | apply (keeps_weaken _ _ _ B (keeps_block_get_data _ _))
    | apply (keeps_weaken _ _ _ B (keeps_block_read_line _ _))
    | apply (keeps_weaken _ _ _ B (keeps_block_parse_header_loop _ _))
    | apply (keeps_weaken _ _ _ B (keeps_block_parse_headers _))
    | apply (keeps_weaken _ _ _ B (keeps_block_unreader_unread _))
    | apply keeps_parse_request_line;
        [ apply proxy_gate_refl | apply proxy_gate_trans
        | intros; unfold proxy_gate; simpl; auto .. ]
    | apply keeps_modify; intros ?; apply B, block_only_headers
    | keeps_step (proxy_gate_refl inet_pton) (proxy_gate_trans inet_pton) ].
Qed.

Lemma keeps_gate_Request_init split_request_uri inet_pton c u peer number
      r m' :
  Request_init split_request_uri inet_pton c u peer number = (r, m') ->
  proxy_gate inet_pton (new_request c u peer number) m'.
Proof.
  unfold Request_init.
  revert r m'. generalize (new_request c u peer number).
  change (keeps (proxy_gate inet_pton)
            (unused <- parse split_request_uri inet_pton ;;
             unreader_unread unused ;; Request_set_body_reader)).
  pose proof (proxy_gate_block inet_pton) as B.
  apply (keeps_bind _ (proxy_gate_trans inet_pton));
    [apply keeps_gate_parse|]. intros unused.
  apply (keeps_bind _ (proxy_gate_trans inet_pton));
    [apply (keeps_weaken _ _ _ B (keeps_block_unreader_unread _))|].
  intros _. apply (keeps_weaken _ _ _ B keeps_block_Request_set_body_reader).
Qed.

(** X12: whether making a request returns or raises, the request carries
    a ProxyInfo only if the PROXY line is enabled in the settings, the
    request is the first of its connection and the peer passes the access
    check; the ProxyInfo then has a protocol tag TCP4 or TCP6, two
    addresses that inet_pton takes for that family and two ports from 0 to
    65535. *)
Theorem proxy_info_needs_allowed_first_request
        split_request_uri inet_pton c u peer number r m' info :
  Request_init split_request_uri inet_pton c u peer number = (r, m') ->
  proxy_protocol_info m' = Some info ->
  Cfg.proxy_protocol c = true
  /\ number = 1
  /\ proxy_allowed c peer = true
  /\ proxy_info_ok inet_pton info.
Proof.
  intros H I. apply keeps_gate_Request_init in H as (_ & _ & _ & H).
  cbn [new_request cfg req_number peer_addr proxy_protocol_info] in H.
  destruct H as [H|(E & N & A & info' & I' & K)]; [congruence|].
  rewrite I in I'. inversion I'; subst. auto.
Qed.

Lemma sample_init_proxy_info :
  proxy_protocol_info (snd (sample_init proxy_then_get))
  = Some {| info_proxy_protocol := lit "TCP4";
            client_addr := lit "192.168.0.1"; client_port := 56324;
            proxy_addr := lit "192.168.0.11"; proxy_port := 443 |}.
Proof. vm_compute. reflexivity. Qed.

Lemma sample_init_proxy_pair :
  Request_init uri_as_path inet_pton_ipv4 (sample_cfg 100 8190 false)
    {| unread_buf := []; chunks := [proxy_then_get] |} sample_peer 1
  = (fst (sample_init proxy_then_get), snd (sample_init proxy_then_get)).
Proof. unfold sample_init. apply surjective_pairing. Qed.

Lemma proxy_info_needs_allowed_first_request_witness :
  Cfg.proxy_protocol (sample_cfg 100 8190 false) = true
  /\ 1 = 1
  /\ proxy_allowed (sample_cfg 100 8190 false) sample_peer = true
  /\ proxy_info_ok inet_pton_ipv4
       {| info_proxy_protocol := lit "TCP4";
          client_addr := lit "192.168.0.1"; client_port := 56324;
          proxy_addr := lit "192.168.0.11"; proxy_port := 443 |}.
Proof.
  exact (proxy_info_needs_allowed_first_request
           uri_as_path inet_pton_ipv4 (sample_cfg 100 8190 false)
           {| unread_buf := []; chunks := [proxy_then_get] |} sample_peer 1
           (fst (sample_init proxy_then_get))
           (snd (sample_init proxy_then_get)) _
           sample_init_proxy_pair sample_init_proxy_info).
Defined.

(** *** The attributes of the request line *)

Lemma span_digits_digits s : forallb is_digit (fst (span_digits s)) = true.
Proof.
  induction s as [|c s IH]; simpl; [reflexivity|].
  destruct (is_digit c) eqn:D; [|reflexivity].
  destruct (span_digits s) as [d r]. simpl in *. now rewrite D.
Qed.

Lemma VERSION_RE_match_digits s major minor :
  VERSION_RE_match s = Some (major, minor) ->
  all_digits major = true /\ all_digits minor = true.
Proof.
  unfold VERSION_RE_match.
  destruct (startswith (lit "HTTP/") s); [|discriminate].
  pose proof (span_digits_digits (skipn 5 s)) as D1.
  destruct (span_digits (skipn 5 s)) as [d1 r]. simpl in D1.
  destruct d1 as [|x d1]; [discriminate|].
  destruct r as [|c r]; [discriminate|].
  destruct (N.eqb c 46); [|discriminate].
  pose proof (span_digits_digits r) as D2.
  destruct (span_digits r) as [d2 r']. simpl in D2.
  destruct d2 as [|y d2]; [discriminate|].
  intros H. inversion H; subst. now split.
Qed.

Lemma class_prefix_le cls n s :
  (class_prefix cls n s <= List.length s)%nat.
Proof.
  revert s. induction n as [|n IH]; intros [|c s]; simpl; try lia.
  destruct (cls c); [|lia]. specialize (IH s). lia.
Qed.

Lemma len_upper s : len s <= len (upper s).
Proof.
  unfold len. induction s as [|c s IH]; [reflexivity|].
  unfold upper in *. cbn [flat_map]. rewrite length_app. cbn [List.length].
  assert (1 <= List.length (upper_char c))%nat; [|lia].
  unfold upper_char.
  repeat match goal with |- context [if ?b then _ else _] => destruct b end;
    simpl; lia.
Qed.

Lemma METH_RE_match_length s t : METH_RE_match s = Some t -> 3 <= len s.
Proof.
  unfold METH_RE_match.
  destruct (3 <=? class_prefix METH_RE_class 20 s)%nat eqn:E; [|discriminate].
  intros _. apply Nat.leb_le in E.
  pose proof (class_prefix_le METH_RE_class 20 s). unfold len. lia.
Qed.

(** What parse_request_line has done when it returns. *)
Lemma parse_request_line_returns split_request_uri line m m' :
  parse_request_line split_request_uri line m = (Return tt, m') ->
  request_line_set split_request_uri m'
  /\ exists meth target p q f v,
       m' = set_version v (set_parts p q f (set_uri target
              (set_method meth m))).
Proof.
  unfold parse_request_line.
  destruct (map bytes_to_str (bytes_split_max 2 line))
    as [|b0 [|b1 [|b2 [|b3 l]]]]; try discriminate.
  destruct (METH_RE_match b0) as [t|] eqn:Em; [|discriminate].
  unfold bind, modify, raise.
  destruct (split_request_uri b1) as [[[p q] f]|] eqn:Eu; [|discriminate].
  destruct (VERSION_RE_match b2) as [[major minor]|] eqn:Ev; [|discriminate].
  apply VERSION_RE_match_digits in Ev as [D1 D2].
  destruct (int major) as [a|] eqn:I1; [|discriminate].
  destruct (int minor) as [b|] eqn:I2; [|discriminate].
  apply (int_all_digits_value _ _ D1) in I1 as [-> _].
  apply (int_all_digits_value _ _ D2) in I2 as [-> _].
  intros H. inversion H; subst. split; [|now eauto 7].
  exists (upper b0), b1, p, q, f, (digits_value major), (digits_value minor).
  cbn. split; [reflexivity|].
  split; [pose proof (METH_RE_match_length _ _ Em);
          pose proof (len_upper b0); lia|].
  split; [apply upper_not_lower|].
  split; [reflexivity|]. split; [exact Eu|].
  split; [reflexivity|]. split; [reflexivity|]. split; [reflexivity|].
  split; [reflexivity|]. split; apply digits_value_nonneg.
Qed.

Lemma request_line_set_block split_request_uri m m' :
  block_only m m' ->
  request_line_set split_request_uri m ->
  request_line_set split_request_uri m'.
Proof. now intros (u & h & s & b & c & ->). Qed.

(** When [parse] returns, parse_request_line has returned, and what
    followed it has left its attributes alone. *)
Lemma parse_request_line_set split_request_uri inet_pton m unused m' :
  parse split_request_uri inet_pton m = (Return unused, m') ->
  request_line_set split_request_uri m'.
Proof.
  unfold parse. intros H. unfold bind at 1 in H.
  destruct (get_data [] true m) as [[buf|e|] m1]; [|discriminate..].
  unfold bind at 1 in H. unfold gets at 1 in H. unfold bind at 1 in H.
  destruct (read_line buf (limit_request_line m1) m1)
    as [[[line rbuf]|e|] m2]; [|discriminate..].
  unfold bind at 1 in H.
  destruct (proxy_protocol inet_pton (bytes_to_str line) m2)
    as [[is_proxy|e|] m3]; [|discriminate..].
  unfold bind at 1 in H.
  destruct ((if is_proxy then read_line rbuf (limit_request_line m1)
             else ret (line, rbuf)) m3)
    as [[[line' rbuf']|e|] m4]; [|discriminate..].
  unfold bind at 1 in H.
  destruct (parse_request_line split_request_uri line' m4)
    as [[[]|e|] m5] eqn:L; [|discriminate..].
  apply parse_request_line_returns in L as [L _].
  apply (request_line_set_block _ m5); [|exact L].
  revert H.
  match goal with
  | |- ?c m5 = _ -> _ => assert (K : keeps block_only c)
  end; [|apply K].
  repeat first
    [ apply keeps_block_parse_header_loop
    | apply keeps_block_parse_headers
    | apply keeps_block_unreader_unread
    | apply keeps_modify; intros ?; apply block_only_headers
    | keeps_step block_only_refl block_only_trans ].
Qed.

Lemma Request_init_request_line_set
      split_request_uri inet_pton c u peer number m' :
  Request_init split_request_uri inet_pton c u peer number
  = (Return tt, m') ->
  request_line_set split_request_uri m'.
Proof.
  unfold Request_init. intros H. unfold bind at 1 in H.
  destruct (parse split_request_uri inet_pton (new_request c u peer number))
    as [[unused|e|] m1] eqn:P; [|discriminate..].
  apply parse_request_line_set in P.
  unfold bind at 1 in H. unfold unreader_unread, modify in H.
  apply keeps_block_Request_set_body_reader in H.
  eapply (request_line_set_block split_request_uri) in P;
    [exact P|].
  eapply block_only_trans; [apply block_only_unreader | exact H].
Qed.

(** X13: a request that has been made has its method, its target, the
    path, query and fragment that split_request_uri gives for the target,
    and its version all set; the method has at least three characters and
    no lowercase ASCII letter, and the two numbers of the version are not
    negative. *)
Theorem request_line_attributes
        split_request_uri inet_pton c u peer number m' :
  Request_init split_request_uri inet_pton c u peer number
  = (Return tt, m') ->
  exists meth target p q f a b,
    method m' = Some meth
    /\ 3 <= len meth
    /\ forallb (fun c => negb (in_range 97 122 c)) meth = true
    /\ uri m' = Some target
    /\ split_request_uri target = Some (p, q, f)
    /\ path m' = Some p /\ query m' = Some q /\ fragment m' = Some f
    /\ version m' = Some (a, b) /\ 0 <= a /\ 0 <= b.
Proof. intros H. exact (Request_init_request_line_set _ _ _ _ _ _ _ H). Qed.

Lemma request_line_attributes_witness :
  exists meth target p q f a b,
    method (snd (sample_init pipelined)) = Some meth
    /\ 3 <= len meth
    /\ forallb (fun c => negb (in_range 97 122 c)) meth = true
    /\ uri (snd (sample_init pipelined)) = Some target
    /\ uri_as_path target = Some (p, q, f)
    /\ path (snd (sample_init pipelined)) = Some p
    /\ query (snd (sample_init pipelined)) = Some q
    /\ fragment (snd (sample_init pipelined)) = Some f
    /\ version (snd (sample_init pipelined)) = Some (a, b)
    /\ 0 <= a /\ 0 <= b.
Proof.
  exact (request_line_attributes _ _ _ _ _ _ _
           sample_init_pipelined_returns).
Defined.

(** *** The errors of a request *)

Section RaisesOnly.

Variable P : error -> Prop.

Lemma raises_only_bind {A B} (c : M A) (k : A -> M B) :
  raises_only P c -> (forall a, raises_only P (k a)) ->
  raises_only P (bind c k).
Proof.
  intros Hc Hk m e m' H. unfold bind in H.
  destruct (c m) as [[a|e0|] m1] eqn:E.
  - eapply Hk. exact H.
  - inversion H; subst. eapply Hc. exact E.
  - discriminate.
Qed.

Lemma raises_only_ret {A} (a : A) : raises_only P (ret a).
Proof. intros m e m' H. discriminate. Qed.

Lemma raises_only_gets {A} (f : Message -> A) : raises_only P (gets f).
Proof. intros m e m' H. discriminate. Qed.

Lemma raises_only_modify f : raises_only P (modify f).
Proof. intros m e m' H. discriminate. Qed.

Lemma raises_only_out_of_fuel {A} : raises_only P (@out_of_fuel A).
Proof. intros m e m' H. discriminate. Qed.

Lemma raises_only_raise {A} e : P e -> raises_only P (@raise A e).
Proof. intros He m e' m' H. inversion H; subst. exact He. Qed.

End RaisesOnly.

(** Takes a method apart, down to the errors that it raises. *)
Ltac raises_step :=
  first
    [ apply raises_only_ret
    | apply raises_only_gets
    | apply raises_only_modify
    | apply raises_only_out_of_fuel
    | apply raises_only_bind; [|intros ?]
    | match goal with
      | |- raises_only _ (if ?b then _ else _) => destruct b
      | |- raises_only _ (match ?x with Some _ => _ | None => _ end) =>
          destruct x
      | |- raises_only _ (match ?x with (_, _) => _ end) => destruct x
      | |- raises_only _ (let '(_, _) := ?x in _) => destruct x
      | |- raises_only _ (match ?a with Inet _ _ => _ | Unix _ => _ end) =>
          destruct a
      end ].

Section ParserErrors.

(** A property of the errors that holds of every error but
    [StopIteration] and [TypeError]. *)
Variable P : error -> Prop.
Hypothesis P_parser :
  forall e, e <> StopIteration -> e <> TypeError -> P e.

Lemma raises_parser {A} e :
  e <> StopIteration -> e <> TypeError -> raises_only P (@raise A e).
Proof. intros H1 H2. apply raises_only_raise, P_parser; assumption. Qed.

Lemma raises_get_data buf : raises_only P (get_data buf false).
Proof.
  intros m e m' H. apply get_data_spec in H as (_ & _ & E & _).
  rewrite (E e eq_refl). apply P_parser; discriminate.
Qed.

Lemma raises_read_line_loop fuel :
  forall buf limit, raises_only P (read_line_loop fuel buf limit).
Proof.
  induction fuel as [|fuel IH]; intros buf limit; cbn [read_line_loop];
    repeat first [ apply raises_get_data | apply IH
                 | apply raises_parser; discriminate | raises_step ].
Qed.

Lemma raises_read_line buf limit : raises_only P (read_line buf limit).
Proof.
  intros m e m' H. unfold read_line in H.
  eapply raises_read_line_loop. exact H.
Qed.

Lemma raises_proxy_protocol inet_pton line :
  raises_only P (proxy_protocol inet_pton line).
Proof.
  unfold proxy_protocol, proxy_protocol_access_check.
  repeat first [ apply raises_parser; discriminate | raises_step ].
  intros m e m' H.
  destruct (parse_proxy_protocol_outcome inet_pton line m)
    as [[info E]|[[msg E]|E]]; rewrite E in H; inversion H;
    apply P_parser; discriminate.
Qed.

Lemma raises_parse_request_line split_request_uri line :
  raises_only P (parse_request_line split_request_uri line).
Proof.
  intros m e m' H.
  destruct (parse_request_line split_request_uri line m) as [r m1] eqn:E.
  revert E. unfold parse_request_line.
  destruct (map bytes_to_str (bytes_split_max 2 line))
    as [|b0 [|b1 [|b2 [|b3 l]]]]; unfold bind, modify, raise;
    repeat match goal with
           | |- context [match ?x with Some _ => _ | None => _ end] =>
               destruct x
           | |- context [let '(_, _) := ?x in _] => destruct x
           end;
    intros E; rewrite <- E in H; inversion H;
    apply P_parser; discriminate.
Qed.

Lemma raises_parse_header_loop fuel :
  forall buf, raises_only P (parse_header_loop fuel buf).
Proof.
  induction fuel as [|fuel IH]; intros buf; cbn [parse_header_loop];
    repeat first [ apply raises_get_data | apply IH
                 | apply raises_parser; discriminate | raises_step ].
Qed.

Lemma raises_continuation_lines lines :
  forall n value, raises_only P (continuation_lines lines n value).
Proof.
  induction lines as [|curr lines IH]; intros n value;
    cbn [continuation_lines];
    repeat first [ apply IH | apply raises_parser; discriminate
                 | raises_step ].
Qed.

Lemma raises_header_field curr lines :
  raises_only P (header_field curr lines).
Proof.
  unfold header_field.
  repeat first [ apply raises_continuation_lines
               | apply raises_parser; discriminate | raises_step ].
Qed.

Lemma raises_parse_headers_loop fuel ssh :
  forall lines hs flag,
    raises_only P (parse_headers_loop fuel ssh lines hs flag).
Proof.
  induction fuel as [|fuel IH]; intros [|curr lines] hs flag;
    cbn [parse_headers_loop];
    repeat first [ apply raises_header_field | apply IH
                 | apply raises_parser; discriminate | raises_step ].
  intros m e m' H. rewrite scheme_step_cases in H.
  destruct (derived_scheme ssh _); [|discriminate].
  destruct flag; [|discriminate].
  destruct (str_eqb _ _); inversion H. apply P_parser; discriminate.
Qed.

Lemma raises_parse_headers data : raises_only P (parse_headers data).
Proof.
  unfold parse_headers.
  apply raises_only_bind; [apply raises_only_gets|]. intros ssh.
  apply raises_parse_headers_loop.
Qed.

Lemma raises_scan_headers hs :
  forall c cl, raises_only P (scan_headers hs c cl).
Proof.
  induction hs as [|[n v] hs IH]; intros c cl; cbn [scan_headers].
  - apply raises_only_ret.
  - apply raises_only_bind; [|intros [c' cl']; apply IH].
    unfold scan_header, force_close.
    repeat first [ apply raises_parser; discriminate | raises_step ].
Qed.

(** With a version at hand, the choice of the reader raises no
    [TypeError]. *)
Lemma raises_choose_reader c cl m e m' :
  version m <> None ->
  choose_reader c cl m = (Raise e, m') -> P e.
Proof.
  intros V H.
  assert (E : e <> StopIteration /\ e <> TypeError);
    [|now apply P_parser].
  revert H. unfold choose_reader, get_version, force_close.
  unfold bind, gets, modify, ret, raise.
  destruct c; cbv beta iota;
    [destruct (version m) as [ver|]; [clear V|congruence]|];
    cbv beta iota;
  repeat (match goal with
          | |- context [if ?b then _ else _] => destruct b
          | |- context [match ?x with Some _ => _ | None => _ end] =>
              destruct x
          end; cbv beta iota);
    intros H; inversion H; subst; split; discriminate.
Qed.

Lemma raises_Request_set_body_reader m e m' :
  version m <> None ->
  Request_set_body_reader m = (Raise e, m') -> P e.
Proof.
  intros V H. unfold Request_set_body_reader in H. unfold bind at 1 in H.
  destruct (Message_set_body_reader m) as [[[]|e0|] m1] eqn:E;
    [|inversion H; subst|discriminate].
  - revert H. unfold bind, gets, modify, ret.
    destruct (body m1) as [[]|]; discriminate.
  - clear H. unfold Message_set_body_reader in E.
    unfold bind at 1 in E. unfold gets at 1 in E.
    unfold bind at 1 in E.
    destruct (scan_headers (headers m) false None m)
      as [[[c cl]|e0|] m2] eqn:S; [|inversion E; subst|discriminate].
    + apply keeps_framing_scan_headers in S as (b & c0 & -> & _).
      eapply raises_choose_reader; [|exact E]. exact V.
    + eapply raises_scan_headers. exact S.
Qed.

(** Once the first read has given bytes, what [Request.__init__] raises
    is neither [StopIteration] nor [TypeError]. *)
Lemma raises_after_first_read
      split_request_uri inet_pton c u peer number buf m1 e m' :
  get_data [] true (new_request c u peer number) = (Return buf, m1) ->
  Request_init split_request_uri inet_pton c u peer number
  = (Raise e, m') ->
  P e.
Proof.
  intros G H. unfold Request_init in H. unfold bind at 1 in H.
  destruct (parse split_request_uri inet_pton (new_request c u peer number))
    as [[unused|e0|] m2] eqn:E; [|inversion H; subst|discriminate].
  - apply parse_request_line_set in E
      as (meth & target & p & q & f & a & b & E).
    unfold bind at 1 in H. unfold unreader_unread, modify in H.
    eapply raises_Request_set_body_reader; [|exact H].
    cbn. destruct E as (_ & _ & _ & _ & _ & _ & _ & _ & -> & _).
    discriminate.
  - clear H. unfold parse in E. unfold bind at 1 in E. rewrite G in E.
    revert E.
    match goal with
    | |- ?k m1 = _ -> _ => assert (K : raises_only P k)
    end; [|apply K].
    repeat first
      [ apply raises_read_line
      | apply raises_proxy_protocol
      | apply raises_parse_request_line
      | apply raises_parse_header_loop
      | apply raises_parse_headers
      | unfold unreader_unread; raises_step ].
Qed.

End ParserErrors.

Lemma get_data_first_read m :
  (unread_buf (unreader m) = [] /\ hd [] (chunks (unreader m)) = []
   /\ exists m', get_data [] true m = (Raise StopIteration, m'))
  \/ ((unread_buf (unreader m) <> [] \/ hd [] (chunks (unreader m)) <> [])
      /\ exists buf m', get_data [] true m = (Return buf, m')).
Proof.
  unfold get_data, bind, unreader_read, ret, raise.
  destruct (unread_buf (unreader m)) as [|x b].
  - destruct (chunks (unreader m)) as [|[|y d] rest]; cbn [hd].
    + left. eauto.
    + left. eauto.
    + right. split; [right; discriminate | eauto].
  - right. split; [left; discriminate | eauto].
Qed.

(** X14: making a request raises StopIteration exactly when the byte
    source has nothing to give at the first read (nothing pushed back, and
    no next chunk or an empty one); a source that runs dry later makes it
    raise another error. *)
Theorem stop_iteration_iff_nothing_to_read
        split_request_uri inet_pton c u peer number :
  (exists m',
     Request_init split_request_uri inet_pton c u peer number
     = (Raise StopIteration, m'))
  <-> unread_buf u = [] /\ hd [] (chunks u) = [].
Proof.
  destruct (get_data_first_read (new_request c u peer number))
    as [(A & B & m' & G)|(N & buf & m1 & G)]; cbn [new_request unreader] in *.
  - split; [auto|]. intros _. exists m'.
    unfold Request_init, parse. unfold bind at 1 2. now rewrite G.
  - split.
    + intros [m' H]. exfalso.
      apply (raises_after_first_read (fun e => e <> StopIteration)
               (fun e H1 _ => H1) _ _ _ _ _ _ _ _ _ _ G H).
      reflexivity.
    + intros [A B]. destruct N; contradiction.
Qed.

(** X15: making a request never raises the TypeError of a comparison of
    the version with a tuple while the version is still None: by the time
    set_body_reader compares it, parse_request_line has set it. *)
Theorem request_never_compares_missing_version
        split_request_uri inet_pton c u peer number :
  fst (Request_init split_request_uri inet_pton c u peer number)
  <> Raise TypeError.
Proof.
  destruct (Request_init split_request_uri inet_pton c u peer number)
    as [r m'] eqn:H. cbn [fst]. intros ->.
  destruct (get_data_first_read (new_request c u peer number))
    as [(_ & _ & m1 & G)|(_ & buf & m1 & G)].
  - unfold Request_init, parse in H. unfold bind at 1 2 in H.
    rewrite G in H. discriminate.
  - apply (raises_after_first_read (fun e => e <> TypeError)
             (fun e _ H2 => H2) _ _ _ _ _ _ _ _ _ _ G H).
    reflexivity.
Qed.

(** *** A request that has been made *)

(** X16: should_close can be asked of a request that has been made: it
    returns, it leaves the request as it is, and its answer is True when
    must_close is set. *)
Theorem should_close_of_request
        split_request_uri inet_pton c u peer number m' :
  Request_init split_request_uri inet_pton c u peer number
  = (Return tt, m') ->
  exists b, should_close m' = (Return b, m')
            /\ (must_close m' = true -> b = true).
Proof.
  intros H. apply Request_init_request_line_set in H
    as (meth & target & p & q & f & a & b & H).
  destruct H as (_ & _ & _ & _ & _ & _ & _ & _ & V & _).
  unfold should_close, get_version, bind, gets, ret. cbv beta iota.
  destruct (must_close m'); [now exists true|]. cbv beta iota.
  destruct (connection_header (headers m')) as [x|]; cbv beta iota;
    [|rewrite V; cbv beta iota];
    eexists; (split; [reflexivity | discriminate]).
Qed.

Lemma should_close_of_request_witness :
  exists b,
    should_close (snd (sample_init pipelined))
    = (Return b, snd (sample_init pipelined))
    /\ (must_close (snd (sample_init pipelined)) = true -> b = true).
Proof.
  exact (should_close_of_request _ _ _ _ _ _ _
           sample_init_pipelined_returns).
Defined.

(** *** The number of header fields of a request *)

Lemma source_only_refl m : source_only m m.
Proof. exists (unreader m). now destruct m. Qed.

Lemma source_only_trans m1 m2 m3 :
  source_only m1 m2 -> source_only m2 m3 -> source_only m1 m3.
Proof. intros (u1 & ->) (u2 & ->). now exists u2. Qed.

Lemma keeps_source_unreader_read : keeps source_only unreader_read.
Proof.
  intros m r m' H. unfold unreader_read in H.
  destruct (unread_buf (unreader m));
    [destruct (chunks (unreader m))|]; inversion H;
    first [apply source_only_refl | eexists; reflexivity].
Qed.

Lemma keeps_source_get_data buf stop : keeps source_only (get_data buf stop).
Proof.
  unfold get_data.
  apply (keeps_bind _ source_only_trans); [apply keeps_source_unreader_read|].
  intros [|x data]; keeps_steps source_only_refl source_only_trans.
Qed.

Lemma keeps_source_read_line_loop fuel :
  forall buf limit, keeps source_only (read_line_loop fuel buf limit).
Proof.
  induction fuel as [|fuel IH]; intros buf limit; cbn [read_line_loop];
    repeat first [ apply keeps_source_get_data | apply IH
                 | keeps_step source_only_refl source_only_trans ].
Qed.

Lemma keeps_source_read_line buf limit :
  keeps source_only (read_line buf limit).
Proof.
  intros m r m' H. unfold read_line in H.
  eapply keeps_source_read_line_loop. exact H.
Qed.

Lemma keeps_source_parse_header_loop fuel :
  forall buf, keeps source_only (parse_header_loop fuel buf).
Proof.
  induction fuel as [|fuel IH]; intros buf; cbn [parse_header_loop];
    repeat first [ apply keeps_source_get_data | apply IH
                 | keeps_step source_only_refl source_only_trans ].
Qed.

Section KeepsProxy.

Variable R : Message -> Message -> Prop.
Hypothesis R_refl : forall m, R m m.
Hypothesis R_trans : forall m1 m2 m3, R m1 m2 -> R m2 m3 -> R m1 m3.
Hypothesis R_info : forall i m, R m (set_proxy_protocol_info i m).

Lemma keeps_proxy_protocol inet_pton line :
  keeps R (proxy_protocol inet_pton line).
Proof.
  unfold proxy_protocol, proxy_protocol_access_check.
  keeps_steps R_refl R_trans.
  - match goal with
    | |- keeps _ (match ?a with Inet _ _ => _ | Unix _ => _ end) =>
        destruct a
    end; keeps_steps R_refl R_trans.
  - intros m r m' H.
    destruct (parse_proxy_protocol_outcome inet_pton line m)
      as [[info E]|[[msg E]|E]]; rewrite E in H; inversion H;
      [apply R_info | apply R_refl | apply R_refl].
Qed.

End KeepsProxy.

Lemma fields_within_refl m : fields_within m m.
Proof. unfold fields_within. auto. Qed.

Lemma fields_within_trans m1 m2 m3 :
  fields_within m1 m2 -> fields_within m2 m3 -> fields_within m1 m3.
Proof.
  intros (L1 & H1) (L2 & H2). split; [congruence|].
  destruct H2 as [H2|H2]; [|right; now rewrite <- L1].
  destruct H1 as [H1|H1]; [left; congruence | right; now rewrite H2].
Qed.

Lemma fields_within_source m m' : source_only m m' -> fields_within m m'.
Proof. intros (u & ->). unfold fields_within. simpl. auto. Qed.

Lemma fields_within_framing m m' : framing_only m m' -> fields_within m m'.
Proof. intros (b & c & -> & _). unfold fields_within. simpl. auto. Qed.

Lemma parse_headers_state data m r m' :
  parse_headers data m = (r, m') ->
  m' = m \/ exists s, m' = set_scheme s m.
Proof.
  intros H. unfold parse_headers, bind, gets in H.
  now apply parse_headers_loop_scheme in H as [H _].
Qed.

(** Setting the headers that parse_headers returns keeps the request
    within its limit. *)
Lemma keeps_fields_set_headers {A} data (x : A) :
  keeps fields_within
    (hs <- parse_headers data ;; modify (set_headers hs) ;; ret x).
Proof.
  intros m r m' H. unfold bind at 1 in H.
  destruct (parse_headers data m) as [[hs|e|] m1] eqn:G;
    pose proof (parse_headers_state _ _ _ _ G) as St.
  - apply parse_headers_bounds in G as [_ B].
    unfold bind, modify, ret in H. inversion H; subst.
    split; [destruct St as [->|[s ->]]; reflexivity|].
    right. exact B.
  - inversion H; subst.
    destruct St as [->|[s ->]]; unfold fields_within; simpl; auto.
  - inversion H; subst.
    destruct St as [->|[s ->]]; unfold fields_within; simpl; auto.
Qed.

Lemma keeps_fields_parse split_request_uri inet_pton :
  keeps fields_within (parse split_request_uri inet_pton).
Proof.
  pose proof fields_within_source as S.
  unfold parse.
  repeat first
    [ apply keeps_fields_set_headers
    | apply (keeps_weaken _ _ _ S (keeps_source_get_data _ _))
    | apply (keeps_weaken _ _ _ S (keeps_source_read_line _ _))
    | apply (keeps_weaken _ _ _ S (keeps_source_parse_header_loop _ _))
    | apply keeps_proxy_protocol;
        [ apply fields_within_refl | apply fields_within_trans
        | intros; unfold fields_within; simpl; auto ]
    | apply keeps_parse_request_line;
        [ apply fields_within_refl | apply fields_within_trans
        | intros; unfold fields_within; simpl; auto .. ]
    | apply keeps_modify; intros ?; apply S; eexists; reflexivity
    | keeps_step fields_within_refl fields_within_trans ].
Qed.

Lemma init_limit_request_fields_bounds c :
  1 <= init_limit_request_fields c <= MAX_HEADERS.
Proof.
  unfold init_limit_request_fields, MAX_HEADERS.
  destruct (Cfg.limit_request_fields c <=? 0) eqn:A; cbn [orb]; [lia|].
  destruct (32768 <? Cfg.limit_request_fields c) eqn:B; lia.
Qed.

(** X17: whether making a request returns or raises, the request has no
    more header fields than its limit_request_fields, and that limit is
    at most 32768 whatever the settings say. *)
Theorem request_header_count
        split_request_uri inet_pton c u peer number r m' :
  Request_init split_request_uri inet_pton c u peer number = (r, m') ->
  len (headers m') <= limit_request_fields m'
  /\ limit_request_fields m' <= 32768.
Proof.
  intros H.
  assert (K : fields_within (new_request c u peer number) m').
  { revert H. unfold Request_init. revert r m'.
    generalize (new_request c u peer number).
    change (keeps fields_within
              (unused <- parse split_request_uri inet_pton ;;
               unreader_unread unused ;; Request_set_body_reader)).
    apply (keeps_bind _ fields_within_trans); [apply keeps_fields_parse|].
    intros unused.
    apply (keeps_bind _ fields_within_trans).
    - apply keeps_modify. intros m. apply fields_within_source.
      eexists; reflexivity.
    - intros _. eapply keeps_weaken; [exact fields_within_framing|].
      apply keeps_framing_Request_set_body_reader. }
  destruct K as [L K]. cbn [new_request limit_request_fields headers] in L, K.
  pose proof (init_limit_request_fields_bounds c) as B.
  unfold MAX_HEADERS in B. rewrite L.
  split; [|lia].
  destruct K as [->|K]; [unfold len; simpl; lia | exact K].
Qed.

Lemma request_header_count_witness :
  len (headers (snd (sample_init pipelined)))
  <= limit_request_fields (snd (sample_init pipelined))
  /\ limit_request_fields (snd (sample_init pipelined)) <= 32768.
Proof.
  exact (request_header_count _ _ _ _ _ _ _ _
           sample_init_pipelined_returns).
Defined.

(** *** The length of the target *)

Lemma split_ws_length sp s :
  forall maxsplit cur,
    (List.length (List.concat (split_ws sp maxsplit cur s))
     <= List.length s
        + match cur with Some t => List.length t | None => 0 end)%nat.
Proof.
  induction s as [|c s IH]; intros maxsplit cur.
  - destruct cur as [t|]; simpl; [|lia].
    rewrite app_nil_r, length_rev. lia.
  - cbn [split_ws]. destruct cur as [t|].
    + destruct (sp c).
      * cbn [List.concat]. rewrite length_app, length_rev.
        specialize (IH maxsplit None). simpl in *. lia.
      * specialize (IH maxsplit (Some (c :: t))). simpl in *. lia.
    + destruct (sp c).
      * specialize (IH maxsplit None). simpl in *. lia.
      * destruct maxsplit as [[|k]|].
        -- simpl. rewrite app_nil_r. simpl. lia.
        -- specialize (IH (Some k) (Some [c])). simpl in *. lia.
        -- specialize (IH None (Some [c])). simpl in *. lia.
Qed.

(** The three parts of a request line are no longer than the line. *)
Lemma three_parts_length line b0 b1 b2 :
  bytes_split_max 2 line = [b0; b1; b2] ->
  len b0 + len b1 + len b2 <= len line.
Proof.
  intros H. pose proof (split_ws_length bytes_isspace line (Some 2%nat) None)
    as L.
  unfold bytes_split_max in H. rewrite H in L. simpl in L.
  rewrite !length_app in L. simpl in L. rewrite !Nat.add_0_r in L.
  unfold len. rewrite <- !Nat2Z.inj_add. apply Nat2Z.inj_le.
  rewrite <- Nat.add_assoc. exact L.
Qed.

Lemma parse_request_line_target split_request_uri line m m' :
  parse_request_line split_request_uri line m = (Return tt, m') ->
  exists target,
    uri m' = Some target /\ len target + 3 <= len line
    /\ limit_request_line m' = limit_request_line m.
Proof.
  unfold parse_request_line. unfold bytes_to_str. rewrite map_id.
  destruct (bytes_split_max 2 line)
    as [|b0 [|b1 [|b2 [|b3 l]]]] eqn:B; try discriminate.
  destruct (METH_RE_match b0) as [t|] eqn:Em; [|discriminate].
  unfold bind, modify, raise.
  destruct (split_request_uri b1) as [[[p q] f]|]; [|discriminate].
  destruct (VERSION_RE_match b2) as [[major minor]|]; [|discriminate].
  destruct (int major); [|discriminate].
  destruct (int minor); [|discriminate].
  intros H. inversion H; subst. exists b1. cbn.
  split; [reflexivity|]. split; [|reflexivity].
  pose proof (three_parts_length _ _ _ _ B).
  pose proof (METH_RE_match_length _ _ Em).
  assert (0 <= len b2) by (unfold len; lia).
  change char with N in *. lia.
Qed.

Lemma init_limit_request_line_bounds c :
  0 <= init_limit_request_line c <= MAX_REQUEST_LINE.
Proof.
  unfold init_limit_request_line, MAX_REQUEST_LINE.
  destruct (Cfg.limit_request_line c <? 0) eqn:A; cbn [orb]; [lia|].
  destruct (8190 <=? Cfg.limit_request_line c) eqn:B; lia.
Qed.

Lemma limit_request_line_source m m' :
  source_only m m' -> limit_request_line m' = limit_request_line m.
Proof. now intros (u & ->). Qed.

Lemma limit_request_line_block m m' :
  block_only m m' ->
  limit_request_line m' = limit_request_line m /\ uri m' = uri m.
Proof. now intros (u & h & s & b & c & ->). Qed.

(** When [parse] returns, the target is shorter than a limit on the
    request line that is not 0. *)
Lemma parse_target_length split_request_uri inet_pton m unused m' :
  parse split_request_uri inet_pton m = (Return unused, m') ->
  limit_request_line m' = limit_request_line m
  /\ exists target,
       uri m' = Some target
       /\ (0 < limit_request_line m -> len target < limit_request_line m).
Proof.
  unfold parse. intros H. unfold bind at 1 in H.
  destruct (get_data [] true m) as [[buf|e|] m1] eqn:G1;
    [|discriminate..].
  apply keeps_source_get_data, limit_request_line_source in G1.
  unfold bind at 1 in H. unfold gets at 1 in H. unfold bind at 1 in H.
  destruct (read_line buf (limit_request_line m1) m1)
    as [[[line rbuf]|e|] m2] eqn:G2; [|discriminate..].
  pose proof (keeps_source_read_line _ _ _ _ _ G2) as S2.
  apply limit_request_line_source in S2.
  unfold read_line in G2.
  apply read_line_loop_conserves in G2 as (_ & _ & N2 & _).
  unfold bind at 1 in H.
  destruct (proxy_protocol inet_pton (bytes_to_str line) m2)
    as [[is_proxy|e|] m3] eqn:G3; [|discriminate..].
  apply (keeps_proxy_protocol
           (fun m m' => limit_request_line m' = limit_request_line m))
    in G3; [|reflexivity|congruence|reflexivity].
  unfold bind at 1 in H.
  destruct ((if is_proxy then read_line rbuf (limit_request_line m1)
             else ret (line, rbuf)) m3)
    as [[[line' rbuf']|e|] m4] eqn:G4; [|discriminate..].
  assert (limit_request_line m4 = limit_request_line m1
          /\ (0 < limit_request_line m1 ->
              len line' <= limit_request_line m1)) as [S4 N4].
  { destruct is_proxy.
    - pose proof (keeps_source_read_line _ _ _ _ _ G4) as S4.
      apply limit_request_line_source in S4.
      unfold read_line in G4.
      apply read_line_loop_conserves in G4 as (_ & _ & N4 & _).
      split; [congruence | exact N4].
    - inversion G4; subst. split; [congruence | exact N2]. }
  unfold bind at 1 in H.
  destruct (parse_request_line split_request_uri line' m4)
    as [[[]|e|] m5] eqn:G5; [|discriminate..].
  apply parse_request_line_target in G5 as (target & U5 & T5 & S5).
  revert H.
  match goal with
  | |- ?k m5 = _ -> _ => assert (K : keeps block_only k)
  end.
  { repeat first
      [ apply keeps_block_parse_header_loop
      | apply keeps_block_parse_headers
      | apply keeps_block_unreader_unread
      | apply keeps_modify; intros ?; apply block_only_headers
      | keeps_step block_only_refl block_only_trans ]. }
  intros H. apply K, limit_request_line_block in H as [L U].
  split; [congruence|]. exists target.
  split; [congruence|]. intros P. rewrite <- G1 in *.
  specialize (N4 P). lia.
Qed.

(** X18: the target of a request that has been made is shorter than the
    request's limit_request_line, unless that limit is 0; and the limit
    is at most 8190 whatever the settings say. *)
Theorem request_target_within_limit
        split_request_uri inet_pton c u peer number m' :
  Request_init split_request_uri inet_pton c u peer number
  = (Return tt, m') ->
  limit_request_line m' <= 8190
  /\ exists target,
       uri m' = Some target
       /\ (0 < limit_request_line m' -> len target < limit_request_line m').
Proof.
  unfold Request_init. intros H. unfold bind at 1 in H.
  destruct (parse split_request_uri inet_pton (new_request c u peer number))
    as [[unused|e|] m1] eqn:P; [|discriminate..].
  apply parse_target_length in P as (L1 & target & U1 & T1).
  unfold bind at 1 in H. unfold unreader_unread, modify in H.
  apply keeps_block_Request_set_body_reader, limit_request_line_block in H
    as [L U].
  cbn in L, U. cbn [new_request limit_request_line] in L1, T1.
  pose proof (init_limit_request_line_bounds c) as B.
  unfold MAX_REQUEST_LINE in B.
  split; [lia|]. exists target. split; [congruence|].
  rewrite L, L1. exact T1.
Qed.

Lemma request_target_within_limit_witness :
  limit_request_line (snd (sample_init pipelined)) <= 8190
  /\ exists target,
       uri (snd (sample_init pipelined)) = Some target
       /\ (0 < limit_request_line (snd (sample_init pipelined)) ->
           len target < limit_request_line (snd (sample_init pipelined))).
Proof.
  exact (request_target_within_limit _ _ _ _ _ _ _
           sample_init_pipelined_returns).
Defined.

(** *** A header block written from fields *)

Lemma header_char c :
  HEADER_RE_class c = false ->
  N.eqb c 58 = false /\ N.eqb c 32 = false /\ N.eqb c 9 = false
  /\ N.eqb c 13 = false.
Proof.
  unfold HEADER_RE_class.
  change separators with [40; 41; 60; 62; 64; 44; 59; 58; 91; 93; 61;
                          123; 125]%N.
  cbn [existsb]. intros H.
  repeat split; apply N.eqb_neq; intros ->; discriminate.
Qed.

Lemma header_name_chars (f : char -> bool) n :
  (forall c, HEADER_RE_class c = false -> f c = true) ->
  HEADER_RE_search n = false -> forallb f n = true.
Proof.
  intros Hf. unfold HEADER_RE_search.
  induction n as [|c n IH]; [reflexivity|]. cbn [existsb forallb].
  intros H. apply orb_false_iff in H as [H1 H2].
  now rewrite (Hf c H1), IH.
Qed.

Lemma find_char x a b :
  forallb (fun c => negb (N.eqb x c)) a = true ->
  forall i, find_from [x] (a ++ x :: b) i = i + len a.
Proof.
  induction a as [|c a IH]; intros H i.
  - cbn [app find_from startswith]. rewrite N.eqb_refl. cbn. unfold len.
    simpl. lia.
  - cbn [forallb] in H. apply andb_true_iff in H as [H1 H2].
    apply negb_true_iff in H1.
    cbn [app find_from startswith]. rewrite H1. cbn [andb].
    rewrite (IH H2). unfold len. cbn [List.length]. lia.
Qed.

Lemma split_crlf_last l :
  forallb (fun c => negb (N.eqb c 13)) l = true ->
  forall cur, split_crlf cur l = [rev cur ++ l].
Proof.
  induction l as [|c l IH]; intros H cur.
  - cbn. now rewrite app_nil_r.
  - cbn [forallb] in H. apply andb_true_iff in H as [H1 H2].
    apply negb_true_iff in H1. cbn [split_crlf].
    destruct l as [|d l].
    + cbn [rev]. reflexivity.
    + rewrite H1. cbn [andb]. rewrite (IH H2). cbn [rev].
      now rewrite <- app_assoc.
Qed.

Lemma split_crlf_line l rest :
  forallb (fun c => negb (N.eqb c 13)) l = true ->
  forall cur,
    split_crlf cur (l ++ CRLF ++ rest) = (rev cur ++ l) :: split_crlf [] rest.
Proof.
  induction l as [|c l IH]; intros H cur.
  - cbn. now rewrite app_nil_r.
  - cbn [forallb] in H. apply andb_true_iff in H as [H1 H2].
    apply negb_true_iff in H1.
    change ((c :: l) ++ CRLF ++ rest) with (c :: (l ++ CRLF ++ rest)).
    cbn [split_crlf].
    destruct (l ++ CRLF ++ rest) as [|d s] eqn:E.
    + destruct l; discriminate.
    + rewrite H1. cbn [andb]. rewrite (IH H2). cbn [rev].
      now rewrite <- app_assoc.
Qed.

(** What makes a field canonical, one by one. *)
Lemma canonical_field_spec h :
  canonical_field h = true ->
  upper (fst h) = fst h /\ HEADER_RE_search (fst h) = false
  /\ lstrip (fst h) = fst h /\ rstrip (fst h) = fst h
  /\ lstrip (snd h) = snd h /\ rstrip (snd h) = snd h
  /\ forallb (fun c => negb (N.eqb c 13)) (snd h) = true.
Proof.
  unfold canonical_field. rewrite !andb_true_iff, negb_true_iff.
  intros ((((((A & B) & C) & D) & E) & F) & G).
  repeat split; try assumption; now apply str_eqb_eq.
Qed.

Lemma field_line_no_CR h :
  canonical_field h = true ->
  forallb (fun c => negb (N.eqb c 13)) (field_line h) = true.
Proof.
  intros H. apply canonical_field_spec in H as (_ & B & _ & _ & _ & _ & G).
  unfold field_line. rewrite !forallb_app.
  apply andb_true_iff. split;
    [|apply andb_true_iff; split; [reflexivity | exact G]].
  apply header_name_chars with (2 := B).
  intros c Hc. apply header_char in Hc as (_ & _ & _ & Hc). now rewrite Hc.
Qed.

(** The lines of a block written from canonical fields are the lines of
    the fields. *)
Lemma header_lines_join fields :
  fields <> [] ->
  forallb canonical_field fields = true ->
  header_lines (join_crlf (map field_line fields))
  = map (fun h => field_line h ++ CRLF) fields.
Proof.
  unfold header_lines, bytes_to_str.
  induction fields as [|h fields IH]; [congruence|]. intros _ H.
  cbn [forallb] in H. apply andb_true_iff in H as [H1 H2].
  apply field_line_no_CR in H1.
  cbn [map join_crlf]. destruct fields as [|h' fields].
  - cbn [map]. now rewrite (split_crlf_last _ H1).
  - change (map field_line (h' :: fields))
      with (field_line h' :: map field_line fields).
    cbv iota. rewrite (split_crlf_line _ _ H1). cbn [map rev app].
    f_equal. apply IH; [discriminate | exact H2].
Qed.

Lemma lstrip_by_head p s :
  lstrip_by p s = s -> match s with c :: _ => p c = false | [] => True end.
Proof.
  destruct s as [|c s]; [trivial|]. cbn. destruct (p c); [|reflexivity].
  intros H. exfalso. destruct (lstrip_by_suffix p s) as [pre E].
  rewrite H in E. apply (f_equal (@List.length _)) in E.
  rewrite length_app in E. cbn in E. lia.
Qed.

Lemma rstrip_line_end v : rstrip v = v -> rstrip (v ++ CRLF) = v.
Proof.
  unfold rstrip, rstrip_by. intros H. rewrite rev_app_distr. exact H.
Qed.

Lemma lstrip_value v :
  lstrip v = v -> rstrip v = v ->
  rstrip (lstrip ([32%N] ++ v ++ CRLF)) = v.
Proof.
  intros L R. change (lstrip ([32%N] ++ v ++ CRLF)) with (lstrip (v ++ CRLF)).
  destruct v as [|c v]; [reflexivity|].
  pose proof (lstrip_by_head _ _ L) as H. cbn in H.
  unfold lstrip. cbn [app lstrip_by]. rewrite H.
  now apply rstrip_line_end in R.
Qed.

Lemma name_line_start n rest :
  HEADER_RE_search n = false ->
  starts_with_sp_tab (n ++ 58%N :: rest) = false.
Proof.
  destruct n as [|c n]; [reflexivity|]. unfold HEADER_RE_search.
  cbn [existsb]. intros H. apply orb_false_iff in H as [H _].
  apply header_char in H as (_ & H1 & H2 & _).
  unfold starts_with_sp_tab. change (lit " ") with [32%N].
  cbn [app startswith].
  rewrite (N.eqb_sym 32 c), H1, (N.eqb_sym 9 c), H2. reflexivity.
Qed.

(** header_field on the line of a canonical field, when the line that
    follows is not a continuation line. *)
Lemma header_field_canonical h lines m :
  canonical_field h = true ->
  field_fits (limit_request_field_size m) h = true ->
  match lines with l :: _ => starts_with_sp_tab l = false | [] => True end ->
  header_field (field_line h ++ CRLF) lines m
  = (Return (fst h, snd h, lines), m).
Proof.
  intros C F Nc. destruct h as [n v].
  apply canonical_field_spec in C as (U & B & Ln & Rn & Lv & Rv & G).
  cbn [fst snd] in *. unfold field_fits, field_line in F. cbn [fst snd] in F.
  unfold header_field, field_line. cbn [fst snd].
  pose (colon_space := lit ": "). pose (space := lit " ").
  change (lit ": ") with colon_space.
  assert (Fd : find (lit ":") ((n ++ colon_space ++ v) ++ CRLF)
               = len n).
  { change (lit ":") with [58%N]. unfold find.
    rewrite <- app_assoc.
    change (colon_space ++ v) with (58%N :: space ++ v). cbn [app].
    rewrite find_char; [reflexivity|].
    apply header_name_chars with (2 := B).
    intros c Hc. apply header_char in Hc as (Hc & _).
    now rewrite N.eqb_sym, Hc. }
  rewrite Fd.
  assert (P : (len n <? 0) = false) by (apply Z.ltb_ge; unfold len; lia).
  rewrite P. unfold split_colon. rewrite Fd.
  assert (S1 : slice_to ((n ++ colon_space ++ v) ++ CRLF) (len n) = n).
  { unfold slice_to, len. rewrite Nat2Z.id, <- app_assoc.
    apply firstn_length_app. }
  assert (S2 : slice_from ((n ++ colon_space ++ v) ++ CRLF) (len n + 1)
               = space ++ v ++ CRLF).
  { unfold slice_from, len.
    replace (Z.to_nat (Z.of_nat (List.length n) + 1))
      with (List.length (n ++ [58%N])) by (rewrite length_app; simpl; lia).
    replace ((n ++ colon_space ++ v) ++ CRLF)
      with ((n ++ [58%N]) ++ space ++ v ++ CRLF)
      by (rewrite <- !app_assoc; reflexivity).
    apply skipn_length_app. }
  rewrite S1, S2. unfold bind at 1. unfold gets at 1.
  assert (Nm : (if Cfg.strip_header_spaces (cfg m)
                then upper (rstrip_sp_tab n) else upper n) = n).
  { destruct (Cfg.strip_header_spaces (cfg m)); [|exact U].
    replace (rstrip_sp_tab n) with n; [exact U|].
    unfold rstrip_sp_tab, rstrip_by. rewrite lstrip_by_none.
    - now rewrite rev_involutive.
    - assert (A : forallb (fun c => negb (N.eqb c 32 || N.eqb c 9)) n
                  = true).
      { apply header_name_chars with (2 := B).
        intros c Hc. apply header_char in Hc as (_ & H1 & H2 & _).
        now rewrite H1, H2. }
      rewrite forallb_forall in A. apply forallb_forall.
      intros c Hc. apply A. now apply in_rev. }
  rewrite Nm, B.
  assert (St : strip n = n) by (unfold strip; now rewrite Rn).
  rewrite St.
  assert (Cl : continuation_lines lines
                 (len ((n ++ colon_space ++ v) ++ CRLF))
                 [lstrip (space ++ v ++ CRLF)] m
               = (Return (lines,
                          len ((n ++ colon_space ++ v) ++ CRLF),
                          [lstrip (space ++ v ++ CRLF)]), m)).
  { destruct lines as [|l lines]; [reflexivity|].
    cbn [continuation_lines]. now rewrite Nc. }
  unfold bind at 1. rewrite Cl. cbn [List.concat]. rewrite app_nil_r.
  rewrite (lstrip_value _ Lv Rv : rstrip (lstrip (space ++ v ++ CRLF)) = v).
  unfold bind, gets, ret.
  replace ((limit_request_field_size m
            <? len ((n ++ colon_space ++ v) ++ CRLF))
           && (0 <? limit_request_field_size m)) with false; [reflexivity|].
  symmetry. apply andb_false_iff.
  apply orb_true_iff in F as [F|F].
  - right. apply Z.ltb_ge. lia.
  - left. apply Z.ltb_ge. apply Z.leb_le in F.
    unfold len in *. rewrite length_app. cbn [List.length CRLF].
    change (lit ": ") with colon_space in F. change char with N in *. lia.
Qed.

Lemma field_line_start h rest :
  canonical_field h = true ->
  starts_with_sp_tab (field_line h ++ rest) = false.
Proof.
  intros C. apply canonical_field_spec in C as (_ & B & _).
  unfold field_line. change (lit ": ") with [58%N; 32%N].
  rewrite <- !app_assoc. now apply name_line_start.
Qed.

Lemma parse_headers_loop_canonical ssh fields :
  forall fuel hs flag m,
    (List.length fields <= fuel)%nat ->
    forallb canonical_field fields = true ->
    forallb (field_fits (limit_request_field_size m)) fields = true ->
    len hs + len fields <= limit_request_fields m ->
    (forall h, In h fields -> dict_get (fst h) ssh = None) ->
    parse_headers_loop fuel ssh
      (map (fun h => field_line h ++ CRLF) fields) hs flag m
    = (Return (hs ++ fields), m).
Proof.
  induction fields as [|h fields IH]; intros fuel hs flag m Hf C F L D.
  - destruct fuel; cbn; now rewrite app_nil_r.
  - destruct fuel as [|fuel]; [simpl in Hf; lia|].
    cbn [forallb] in C, F.
    apply andb_true_iff in C as [C1 C2]. apply andb_true_iff in F as [F1 F2].
    cbn [map parse_headers_loop]. unfold bind at 1. unfold gets at 1.
    assert (Lm : (limit_request_fields m <=? len hs) = false).
    { apply Z.leb_gt. unfold len in *. cbn [List.length] in L. lia. }
    rewrite Lm. unfold bind at 1.
    rewrite (header_field_canonical h _ m C1 F1).
    2:{ destruct fields as [|h' fields]; [exact I|]. cbn [map forallb] in *.
        apply andb_true_iff in C2 as [C2 _].
        now apply field_line_start. }
    unfold bind at 1. rewrite scheme_step_cases.
    unfold derived_scheme. cbn [fst snd]. rewrite (D h (or_introl eq_refl)).
    rewrite IH; try assumption.
    + rewrite <- app_assoc. destruct h. reflexivity.
    + simpl in Hf. lia.
    + unfold len in *. rewrite length_app. cbn [List.length] in *. lia.
    + intros h' Hh. apply D. now right.
Qed.

Lemma parse_headers_written fields m :
  fields <> [] ->
  forallb canonical_field fields = true ->
  forallb (field_fits (limit_request_field_size m)) fields = true ->
  len fields <= limit_request_fields m ->
  (forall h, In h fields ->
             dict_get (fst h) (trusted_scheme_headers m) = None) ->
  parse_headers (join_crlf (map field_line fields)) m = (Return fields, m).
Proof.
  intros N C F L D. unfold parse_headers.
  rewrite (header_lines_join fields N C).
  unfold bind, gets. rewrite length_map.
  now apply (parse_headers_loop_canonical _ fields _ []).
Qed.

(** X19: a header block written from canonical fields, one [name: value]
    line for each field and CRLF between the lines, is parsed back into
    those fields, and the request is left as it was: provided there is at
    least one field and no more than limit_request_fields, every line fits
    limit_request_field_size, and no name is a scheme header that this
    pass honours. *)
Theorem parse_headers_round_trip fields m :
  fields <> [] ->
  forallb canonical_field fields = true ->
  forallb (field_fits (limit_request_field_size m)) fields = true ->
  len fields <= limit_request_fields m ->
  (forall h, In h fields ->
             dict_get (fst h) (trusted_scheme_headers m) = None) ->
  parse_headers (join_crlf (map field_line fields)) m = (Return fields, m).
Proof. apply parse_headers_written. Qed.

Lemma parse_headers_round_trip_witness :
  parse_headers (join_crlf (map field_line two_fields))
    untrusted_peer_request
  = (Return two_fields, untrusted_peer_request).
Proof.
  apply (parse_headers_round_trip two_fields untrusted_peer_request).
  - discriminate.
  - reflexivity.
  - reflexivity.
  - vm_compute. discriminate.
  - intros h _. reflexivity.
Defined.

(** *** A request written from its parts *)

Lemma find_skip x p l s :
  forallb (fun c => negb (N.eqb c x)) l = true ->
  forall i, find_from (x :: p) (l ++ s) i = find_from (x :: p) s (i + len l).
Proof.
  induction l as [|c l IH]; intros H i.
  - cbn [app]. f_equal. unfold len. simpl. lia.
  - cbn [forallb] in H. apply andb_true_iff in H as [H1 H2].
    apply negb_true_iff in H1.
    cbn [app find_from startswith]. rewrite N.eqb_sym, H1. cbn [andb].
    rewrite (IH H2). f_equal. unfold len. cbn [List.length]. lia.
Qed.

Lemma find_line_end l s :
  forallb (fun c => negb (N.eqb c 13)) l = true ->
  find CRLF (l ++ CRLF ++ s) = len l.
Proof.
  intros H. unfold find, CRLF. rewrite (find_skip _ _ _ _ H). reflexivity.
Qed.

Lemma slice_to_app (a b : str) : slice_to (a ++ b) (len a) = a.
Proof. unfold slice_to, len. rewrite Nat2Z.id. apply firstn_length_app. Qed.

Lemma slice_from_app (a p b : str) :
  slice_from (a ++ p ++ b) (len a + len p) = b.
Proof.
  unfold slice_from, len. rewrite <- Nat2Z.inj_add, Nat2Z.id.
  rewrite <- length_app, app_assoc. apply skipn_length_app.
Qed.

Lemma find_from_joint x t i :
  N.eqb x 13 = false ->
  find_from (CRLF ++ CRLF) (CRLF ++ x :: t) i
  = find_from (CRLF ++ CRLF) (x :: t) (i + 2).
Proof.
  intros Hx. unfold CRLF. cbn [app find_from startswith].
  rewrite !N.eqb_refl, (N.eqb_sym 13 x), Hx. cbn [andb].
  change (13 =? 10)%N with false. cbn [andb].
  destruct (N.eqb 10 x); cbn [andb]; f_equal; lia.
Qed.

(** The blank line that ends a block of lines is the first one: the
    lines hold no carriage return and are not empty. *)
Lemma find_blank_line lines :
  lines <> [] ->
  Forall (fun l => l <> []
                   /\ forallb (fun c => negb (N.eqb c 13)) l = true) lines ->
  forall s i,
    find_from (CRLF ++ CRLF) (join_crlf lines ++ CRLF ++ CRLF ++ s) i
    = i + len (join_crlf lines).
Proof.
  induction lines as [|l lines IH]; [congruence|]. intros _ H s i.
  inversion H as [|? ? [Hl Hc] Hs]; subst.
  cbn [join_crlf]. destruct lines as [|l' lines].
  - change (CRLF ++ CRLF) with (13%N :: 10%N :: CRLF) at 1.
    rewrite (find_skip _ _ _ _ Hc). reflexivity.
  - rewrite <- !app_assoc.
    change (CRLF ++ CRLF) with (13%N :: 10%N :: CRLF) at 1.
    rewrite (find_skip _ _ _ _ Hc).
    change (13%N :: 10%N :: CRLF) with (CRLF ++ CRLF).
    specialize (IH (ltac:(discriminate)) Hs s (i + len l + 2)).
    inversion Hs as [|? ? [Hl' Hc'] _]; subst.
    destruct l' as [|x l']; [congruence|].
    cbn [forallb] in Hc'. apply andb_true_iff in Hc' as [Hx _].
    apply negb_true_iff in Hx.
    assert (J : exists t, join_crlf ((x :: l') :: lines) = x :: t).
    { cbn [join_crlf]. destruct lines; eexists; reflexivity. }
    destruct J as [t J]. rewrite J in *.
    rewrite <- app_comm_cons. rewrite (find_from_joint _ _ _ Hx).
    rewrite app_comm_cons, IH.
    unfold len. rewrite !length_app. cbn [List.length CRLF].
    change char with N in *. lia.
Qed.

Lemma concat_join (lines : list str) :
  lines <> [] ->
  List.concat (map (fun l => l ++ CRLF) lines) = join_crlf lines ++ CRLF.
Proof.
  induction lines as [|l lines IH]; [congruence|]. intros _.
  cbn [map List.concat join_crlf]. destruct lines as [|l' lines].
  - cbn. now rewrite app_nil_r.
  - rewrite IH by discriminate. now rewrite <- !app_assoc.
Qed.

Lemma split_ws_token sp maxsplit t :
  forallb (fun c => negb (sp c)) t = true ->
  forall cur c rest,
    sp c = true ->
    split_ws sp maxsplit (Some cur) (t ++ c :: rest)
    = (rev cur ++ t) :: split_ws sp maxsplit None rest.
Proof.
  induction t as [|x t IH]; intros H cur c rest Hc.
  - cbn [app split_ws]. rewrite Hc. now rewrite app_nil_r.
  - cbn [forallb] in H. apply andb_true_iff in H as [H1 H2].
    apply negb_true_iff in H1.
    cbn [app split_ws]. rewrite H1. rewrite (IH H2 _ _ _ Hc).
    cbn [rev]. now rewrite <- app_assoc.
Qed.

(** A line of a method, a target and a version, with one space between
    them, splits into the three. *)
Lemma split_three meth target ver :
  meth <> [] -> forallb (fun c => negb (bytes_isspace c)) meth = true ->
  target <> [] -> forallb (fun c => negb (bytes_isspace c)) target = true ->
  match ver with c :: _ => bytes_isspace c = false | [] => False end ->
  bytes_split_max 2 (meth ++ lit " " ++ target ++ lit " " ++ ver)
  = [meth; target; ver].
Proof.
  intros Nm Hm Nt Ht Hv. unfold bytes_split_max.
  change (lit " ") with [32%N].
  destruct meth as [|m0 meth]; [congruence|].
  destruct target as [|t0 target]; [congruence|].
  destruct ver as [|v0 ver]; [contradiction|].
  cbn [forallb] in Hm, Ht.
  apply andb_true_iff in Hm as [Hm0 Hm]. apply negb_true_iff in Hm0.
  apply andb_true_iff in Ht as [Ht0 Ht]. apply negb_true_iff in Ht0.
  cbn [app split_ws]. rewrite Hm0.
  rewrite (split_ws_token _ _ _ Hm) by reflexivity.
  cbn [rev app split_ws]. rewrite Ht0.
  rewrite (split_ws_token _ _ _ Ht) by reflexivity.
  cbn [rev app split_ws]. now rewrite Hv.
Qed.

Lemma span_digits_app d r :
  forallb is_digit d = true ->
  match r with c :: _ => is_digit c = false | [] => True end ->
  span_digits (d ++ r) = (d, r).
Proof.
  induction d as [|c d IH]; intros H Hr.
  - cbn [app]. destruct r as [|c r]; [reflexivity|].
    cbn [span_digits]. now rewrite Hr.
  - cbn [forallb] in H. apply andb_true_iff in H as [H1 H2].
    cbn [app span_digits]. rewrite H1, (IH H2 Hr). reflexivity.
Qed.

Lemma VERSION_RE_match_written major minor :
  all_digits major = true -> all_digits minor = true ->
  VERSION_RE_match (lit "HTTP/" ++ major ++ lit "." ++ minor)
  = Some (major, minor).
Proof.
  intros H1 H2.
  apply all_digits_forallb in H1 as [N1 D1].
  apply all_digits_forallb in H2 as [N2 D2].
  unfold VERSION_RE_match. rewrite startswith_app.
  change (skipn 5 (lit "HTTP/" ++ major ++ lit "." ++ minor))
    with (major ++ 46%N :: minor).
  rewrite (span_digits_app _ _ D1) by reflexivity.
  destruct major as [|x major]; [congruence|].
  rewrite N.eqb_refl.
  rewrite <- (app_nil_r minor) at 1.
  rewrite (span_digits_app _ _ D2) by exact I.
  destruct minor; [congruence | reflexivity].
Qed.

Lemma class_prefix_all cls s :
  forallb cls s = true ->
  forall n, class_prefix cls n s = Nat.min n (List.length s).
Proof.
  induction s as [|c s IH]; intros H n.
  - destruct n; reflexivity.
  - cbn [forallb] in H. apply andb_true_iff in H as [H1 H2].
    destruct n as [|n]; [reflexivity|].
    cbn [class_prefix List.length Nat.min]. now rewrite H1, (IH H2).
Qed.

Lemma METH_RE_match_all meth :
  forallb METH_RE_class meth = true -> 3 <= len meth ->
  METH_RE_match meth <> None.
Proof.
  intros H L. unfold METH_RE_match. rewrite (class_prefix_all _ _ H).
  assert (E : (3 <=? Nat.min 20 (List.length meth))%nat = true).
  { apply Nat.leb_le. unfold len in L. lia. }
  rewrite E. discriminate.
Qed.

Lemma method_char c :
  METH_RE_class c = true ->
  upper_char c = [c] /\ bytes_isspace c = false /\ N.eqb c 13 = false.
Proof.
  unfold METH_RE_class, upper_char, bytes_isspace. intros H.
  assert (R : (36 <= c <= 95)%N) by char_arith.
  assert (A : (in_range 97 122 c
               || in_range 224 254 c && negb (N.eqb c 247))%bool = false).
  { apply orb_false_iff. split; [|apply andb_false_iff; left];
      unfold in_range; apply andb_false_iff; left; apply N.leb_gt; lia. }
  rewrite A.
  assert (B1 : N.eqb c 255 = false) by (apply N.eqb_neq; lia).
  assert (B2 : N.eqb c 181 = false) by (apply N.eqb_neq; lia).
  assert (B3 : N.eqb c 223 = false) by (apply N.eqb_neq; lia).
  rewrite B1, B2, B3. split; [reflexivity|].
  split; [|apply N.eqb_neq; lia].
  apply orb_false_iff. split; [|apply N.eqb_neq; lia].
  unfold in_range. apply andb_false_iff. right. apply N.leb_gt. lia.
Qed.

Lemma method_text meth :
  forallb METH_RE_class meth = true ->
  upper meth = meth
  /\ forallb (fun c => negb (bytes_isspace c)) meth = true
  /\ forallb (fun c => negb (N.eqb c 13)) meth = true.
Proof.
  induction meth as [|c meth IH]; [now repeat split|].
  cbn [forallb]. intros H. apply andb_true_iff in H as [H1 H2].
  destruct (IH H2) as (U & S & R).
  destruct (method_char c H1) as (Uc & Sc & Rc).
  unfold upper in *. cbn [flat_map]. rewrite Uc, U, Sc, Rc, S, R.
  now repeat split.
Qed.

Lemma bind_return {A B} (c : M A) (k : A -> M B) m a m1 :
  c m = (Return a, m1) -> bind c k m = k a m1.
Proof. intros H. unfold bind. now rewrite H. Qed.

Lemma get_data_chunk buf stop m d more :
  unread_buf (unreader m) = [] -> chunks (unreader m) = d :: more ->
  d <> [] ->
  get_data buf stop m
  = (Return (buf ++ d),
     set_unreader {| unread_buf := []; chunks := more |} m).
Proof.
  intros U C N. unfold get_data, bind, unreader_read. rewrite U, C.
  destruct d; [congruence | reflexivity].
Qed.

Lemma read_line_written line rbuf limit m :
  forallb (fun c => negb (N.eqb c 13)) line = true ->
  limit = 0 \/ len line <= limit ->
  read_line (line ++ CRLF ++ rbuf) limit m = (Return (line, rbuf), m).
Proof.
  intros R L. unfold read_line. cbn [read_line_loop].
  rewrite (find_line_end _ _ R).
  assert (P : (0 <=? len line) = true) by (apply Z.leb_le; unfold len; lia).
  rewrite P.
  assert (Q : (limit <? len line) && (0 <? limit) = false).
  { apply andb_false_iff. destruct L as [->|L];
      [right; reflexivity | left; now apply Z.ltb_ge]. }
  rewrite Q. unfold ret. rewrite slice_to_app.
  change 2 with (len CRLF). now rewrite slice_from_app.
Qed.

Lemma parse_request_line_written
      split_request_uri meth target p q f major minor m :
  forallb METH_RE_class meth = true -> 3 <= len meth ->
  target <> [] ->
  forallb (fun c => negb (bytes_isspace c)) target = true ->
  split_request_uri target = Some (p, q, f) ->
  all_digits major = true -> all_digits minor = true ->
  len major <= int_max_str_digits -> len minor <= int_max_str_digits ->
  parse_request_line split_request_uri
    (request_line meth target major minor) m
  = (Return tt,
     set_version (Some (digits_value major, digits_value minor))
       (set_parts (Some p) (Some q) (Some f)
          (set_uri (Some target) (set_method (Some meth) m)))).
Proof.
  intros Hm Lm Nt Ht Hu V1 V2 L1 L2.
  destruct (method_text meth Hm) as (Um & Sm & _).
  assert (Nm : meth <> [])
    by (intros ->; unfold len in Lm; simpl in Lm; lia).
  unfold parse_request_line, request_line, bytes_to_str. rewrite map_id.
  rewrite split_three; try assumption; [|reflexivity].
  pose proof (METH_RE_match_all _ Hm Lm) as Mm.
  destruct (METH_RE_match meth); [|congruence].
  unfold bind, modify. rewrite Um, Hu.
  rewrite (VERSION_RE_match_written _ _ V1 V2).
  now rewrite (int_all_digits _ V1 L1), (int_all_digits _ V2 L2).
Qed.

Lemma request_line_no_CR meth target major minor :
  forallb METH_RE_class meth = true ->
  forallb (fun c => negb (bytes_isspace c)) target = true ->
  all_digits major = true -> all_digits minor = true ->
  forallb (fun c => negb (N.eqb c 13)) (request_line meth target major minor)
  = true.
Proof.
  intros Hm Ht V1 V2.
  destruct (method_text meth Hm) as (_ & _ & Rm).
  apply all_digits_forallb in V1 as [_ D1].
  apply all_digits_forallb in V2 as [_ D2].
  assert (D : forall s, forallb is_digit s = true ->
                        forallb (fun c => negb (N.eqb c 13)) s = true).
  { intros s Hs. rewrite forallb_forall in *. intros c Hc.
    specialize (Hs c Hc). apply negb_true_iff, N.eqb_neq. char_arith. }
  assert (T : forallb (fun c => negb (N.eqb c 13)) target = true).
  { rewrite forallb_forall in *. intros c Hc. specialize (Ht c Hc).
    apply negb_true_iff in Ht. unfold bytes_isspace in Ht.
    apply negb_true_iff, N.eqb_neq. char_arith. }
  unfold request_line. rewrite !forallb_app.
  repeat (apply andb_true_iff; split); auto.
Qed.

Lemma request_no_framing m :
  count_name (lit "CONTENT-LENGTH") (headers m) = 0%nat ->
  count_name (lit "TRANSFER-ENCODING") (headers m) = 0%nat ->
  Request_set_body_reader m
  = (Return tt, set_body (Some (LengthReader 0)) m).
Proof.
  intros H1 H2. unfold Request_set_body_reader.
  erewrite bind_return.
  2:{ rewrite (set_body_reader_after_scan m false None m); [reflexivity|].
      now apply scan_headers_no_framing. }
  reflexivity.
Qed.

Lemma field_lines_ok fields :
  forallb canonical_field fields = true ->
  Forall (fun l => l <> []
                   /\ forallb (fun c => negb (N.eqb c 13)) l = true)
         (map field_line fields).
Proof.
  induction fields as [|h fields IH]; [constructor|].
  cbn [forallb map]. intros H. apply andb_true_iff in H as [H1 H2].
  constructor; [|auto]. split; [|now apply field_line_no_CR].
  unfold field_line. destruct (fst h); discriminate.
Qed.

Lemma blank_line_first (rest : bytes) :
  block_complete (CRLF ++ rest) = true
  /\ str_eqb (slice_to (CRLF ++ rest) 2) CRLF = true
  /\ slice_from (CRLF ++ rest) 2 = rest.
Proof.
  assert (E : str_eqb (slice_to (CRLF ++ rest) 2) CRLF = true)
    by reflexivity.
  unfold block_complete. rewrite E. cbn [negb].
  rewrite andb_false_r. repeat split.
Qed.

Lemma block_written fields (rest : bytes) :
  fields <> [] ->
  forallb canonical_field fields = true ->
  let data := List.concat (map (fun h => field_line h ++ CRLF) fields)
              ++ CRLF ++ rest in
  block_complete data = true
  /\ str_eqb (slice_to data 2) CRLF = false
  /\ slice_to data (find (CRLF ++ CRLF) data)
     = join_crlf (map field_line fields)
  /\ slice_from data (find (CRLF ++ CRLF) data + 4) = rest.
Proof.
  intros N C data.
  assert (E : data = join_crlf (map field_line fields)
                     ++ (CRLF ++ CRLF) ++ rest).
  { unfold data. rewrite map_map with (g := fun l => l ++ CRLF) (f := field_line)
      || rewrite <- (map_map field_line (fun l => l ++ CRLF)).
    rewrite concat_join by (destruct fields; [congruence | discriminate]).
    now rewrite <- !app_assoc. }
  assert (F : find (CRLF ++ CRLF) data = len (join_crlf (map field_line fields))).
  { rewrite E. unfold find. rewrite <- app_assoc.
    rewrite find_blank_line; [reflexivity| |now apply field_lines_ok].
    destruct fields; [congruence | discriminate]. }
  assert (D : str_eqb (slice_to data 2) CRLF = false).
  { rewrite E. destruct fields as [|h fields]; [congruence|].
    cbn [forallb] in C. apply andb_true_iff in C as [C _].
    pose proof (field_line_no_CR h C) as R.
    assert (J : exists x t, join_crlf (map field_line (h :: fields))
                            = x :: t /\ N.eqb x 13 = false).
    { cbn [map join_crlf]. unfold field_line in *.
      destruct (fst h) as [|x n].
      - change (lit ": ") with [58%N; 32%N].
        destruct (map _ fields); eexists _, _; split; reflexivity.
      - cbn [app forallb] in R. apply andb_true_iff in R as [R _].
        apply negb_true_iff in R.
        destruct (map _ fields); eexists _, _; (split; [reflexivity|exact R]). }
    destruct J as (x & t & -> & Hx).
    unfold slice_to. change (Z.to_nat 2) with 2%nat.
    cbn [app firstn]. unfold CRLF at 3. cbn [str_eqb].
    now rewrite Hx. }
  split.
  { unfold block_complete. rewrite F.
    assert (P : (len (join_crlf (map field_line fields)) <? 0) = false)
      by (apply Z.ltb_ge; unfold len; lia).
    now rewrite P. }
  split; [exact D|]. rewrite F. split.
  - rewrite E. apply slice_to_app.
  - rewrite E. change 4 with (len (CRLF ++ CRLF)). apply slice_from_app.
Qed.

(** What [parse] does with a request written from its parts. *)
Lemma parse_written
      split_request_uri inet_pton c peer number
      meth target p q f major minor fields rest more :
  Cfg.proxy_protocol c = false ->
  forallb METH_RE_class meth = true -> 3 <= len meth ->
  target <> [] ->
  forallb (fun c => negb (bytes_isspace c)) target = true ->
  split_request_uri target = Some (p, q, f) ->
  all_digits major = true -> all_digits minor = true ->
  len major <= int_max_str_digits -> len minor <= int_max_str_digits ->
  init_limit_request_line c = 0
  \/ len (request_line meth target major minor)
     <= init_limit_request_line c ->
  forallb canonical_field fields = true ->
  forallb (field_fits (init_limit_request_field_size c)) fields = true ->
  len fields <= init_limit_request_fields c ->
  (forall h, In h fields ->
             dict_get (fst h) (Cfg.secure_scheme_headers c) = None) ->
  let line_set :=
    set_version (Some (digits_value major, digits_value minor))
      (set_parts (Some p) (Some q) (Some f)
         (set_uri (Some target) (set_method (Some meth)
            (new_request c {| unread_buf := []; chunks := more |}
               peer number)))) in
  parse split_request_uri inet_pton
    (new_request c
       {| unread_buf := [];
          chunks := (request_head meth target major minor fields ++ rest)
                    :: more |}
       peer number)
  = match fields with
    | [] =>
        (Return [],
         set_unreader {| unread_buf := rest; chunks := more |} line_set)
    | _ :: _ => (Return rest, set_headers fields line_set)
    end.
Proof.
  intros Hp Hm Lm Nt Ht Hu V1 V2 L1 L2 Hl Hf Hs Hn Hd line_set.
  pose proof (request_line_no_CR _ _ _ _ Hm Ht V1 V2) as Rl.
  unfold parse.
  erewrite bind_return.
  2:{ apply get_data_chunk; [reflexivity | reflexivity |].
      unfold request_head, request_line.
      destruct meth; [unfold len in Lm; simpl in Lm; lia | discriminate]. }
  erewrite bind_return by reflexivity.
  cbn [app]. unfold request_head. rewrite <- !app_assoc.
  erewrite bind_return.
  2:{ apply read_line_written; [exact Rl | exact Hl]. }
  cbv beta iota.
  erewrite bind_return.
  2:{ unfold proxy_protocol. erewrite bind_return by reflexivity.
      cbn [cfg set_unreader new_request]. rewrite Hp. reflexivity. }
  cbv beta iota.
  erewrite bind_return by reflexivity.
  cbv beta iota.
  erewrite bind_return.
  2:{ unfold bytes_to_str.
      apply parse_request_line_written; eassumption. }
  erewrite bind_return by reflexivity.
  match goal with
  | |- bind _ _ ?m = _ => change m with line_set
  end.
  destruct fields as [|h fields].
  - cbn [map List.concat app].
    destruct (blank_line_first rest) as (B1 & B2 & B3).
    erewrite bind_return by (apply parse_header_loop_complete; exact B1).
    rewrite B2, B3. reflexivity.
  - destruct (block_written (h :: fields) rest (ltac:(discriminate)) Hf)
      as (B1 & B2 & B3 & B4).
    erewrite bind_return by (apply parse_header_loop_complete; exact B1).
    rewrite B2, B3, B4.
    erewrite bind_return.
    2:{ apply parse_headers_written; try assumption; [discriminate|].
        intros h' Hh. unfold trusted_scheme_headers.
        destruct (scheme_headers_trusted line_set); [|reflexivity].
        now apply Hd. }
    reflexivity.
Qed.

(** X20: a request written from its parts is read back into those parts.
    When the first chunk of the byte source starts with a request line of
    a method, a target and a version whose two numbers have no more
    digits than [int] converts, one [name: value] line for each of the
    canonical fields, and the blank line, then, with the PROXY line
    disabled, the lines within the limits, no scheme header and no
    Content-Length or Transfer-Encoding among the fields, making the
    request returns: the method, the target, its parts, the version and
    the fields are those written, the body reads 0 bytes, and the bytes
    that followed the blank line are pushed back to the byte source. *)
Theorem request_round_trip
        split_request_uri inet_pton c peer number
        meth target p q f major minor fields rest more :
  Cfg.proxy_protocol c = false ->
  forallb METH_RE_class meth = true -> 3 <= len meth ->
  target <> [] ->
  forallb (fun c => negb (bytes_isspace c)) target = true ->
  split_request_uri target = Some (p, q, f) ->
  all_digits major = true -> all_digits minor = true ->
  len major <= int_max_str_digits -> len minor <= int_max_str_digits ->
  init_limit_request_line c = 0
  \/ len (request_line meth target major minor)
     <= init_limit_request_line c ->
  forallb canonical_field fields = true ->
  forallb (field_fits (init_limit_request_field_size c)) fields = true ->
  len fields <= init_limit_request_fields c ->
  (forall h, In h fields ->
             dict_get (fst h) (Cfg.secure_scheme_headers c) = None) ->
  count_name (lit "CONTENT-LENGTH") fields = 0%nat ->
  count_name (lit "TRANSFER-ENCODING") fields = 0%nat ->
  Request_init split_request_uri inet_pton c
    {| unread_buf := [];
       chunks := (request_head meth target major minor fields ++ rest)
                 :: more |}
    peer number
  = (Return tt,
     {| cfg := c;
        unreader := {| unread_buf := rest; chunks := more |};
        peer_addr := peer; remote_addr := peer;
        version := Some (digits_value major, digits_value minor);
        headers := fields; trailers := [];
        body := Some (LengthReader 0);
        scheme := if Cfg.is_ssl c then lit "https" else lit "http";
        must_close := false;
        limit_request_fields := init_limit_request_fields c;
        limit_request_field_size := init_limit_request_field_size c;
        max_buffer_headers := init_max_buffer_headers c;
        method := Some meth; uri := Some target;
        path := Some p; query := Some q; fragment := Some f;
        limit_request_line := init_limit_request_line c;
        req_number := number; proxy_protocol_info := None |}).
Proof.
  intros Hp Hm Lm Nt Ht Hu V1 V2 L1 L2 Hl Hf Hs Hn Hd C1 C2.
  unfold Request_init.
  pose proof (parse_written split_request_uri inet_pton c peer number
                _ _ _ _ _ _ _ fields rest more
                Hp Hm Lm Nt Ht Hu V1 V2 L1 L2 Hl Hf Hs Hn Hd) as P.
  cbv zeta in P.
  destruct fields as [|h fields]; rewrite (bind_return _ _ _ _ _ P).
  - erewrite bind_return by reflexivity.
    rewrite request_no_framing by reflexivity.
    cbn. now rewrite app_nil_r.
  - erewrite bind_return by reflexivity.
    rewrite request_no_framing by assumption.
    reflexivity.
Qed.

Lemma request_round_trip_witness :
  Request_init uri_as_path inet_pton_ipv4 direct_cfg
    {| unread_buf := [];
       chunks := [request_head (lit "GET") (lit "/a") (lit "1") (lit "1")
                    two_fields ++ lit "next"] |}
    sample_peer 1
  = (Return tt,
     {| cfg := direct_cfg;
        unreader := {| unread_buf := lit "next"; chunks := [] |};
        peer_addr := sample_peer; remote_addr := sample_peer;
        version := Some (digits_value (lit "1"), digits_value (lit "1"));
        headers := two_fields; trailers := [];
        body := Some (LengthReader 0);
        scheme := if Cfg.is_ssl direct_cfg then lit "https" else lit "http";
        must_close := false;
        limit_request_fields := init_limit_request_fields direct_cfg;
        limit_request_field_size := init_limit_request_field_size direct_cfg;
        max_buffer_headers := init_max_buffer_headers direct_cfg;
        method := Some (lit "GET"); uri := Some (lit "/a");
        path := Some (lit "/a"); query := Some []; fragment := Some [];
        limit_request_line := init_limit_request_line direct_cfg;
        req_number := 1; proxy_protocol_info := None |}).
Proof.
  apply (request_round_trip uri_as_path inet_pton_ipv4 direct_cfg
           sample_peer 1 (lit "GET") (lit "/a") (lit "/a") [] []
           (lit "1") (lit "1") two_fields (lit "next") []).
  - reflexivity.
  - reflexivity.
  - vm_compute. discriminate.
  - discriminate.
  - reflexivity.
  - reflexivity.
  - reflexivity.
  - reflexivity.
  - vm_compute. discriminate.
  - vm_compute. discriminate.
  - right. vm_compute. discriminate.
  - reflexivity.
  - reflexivity.
  - vm_compute. discriminate.
  - intros h [<-|[<-|[]]]; reflexivity.
  - reflexivity.
  - reflexivity.
Defined.

(** *** What is left in the byte source *)

Lemma startswith_app_r p x y :
  startswith p x = true -> startswith p (x ++ y) = true.
Proof.
  revert x. induction p as [|c p IH]; intros x H; [reflexivity|].
  destruct x as [|d x]; [discriminate|]. cbn [app startswith] in *.
  apply andb_true_iff in H as [H1 H2]. now rewrite H1, (IH _ H2).
Qed.

Lemma startswith_slice p s :
  startswith p s = true -> slice_to s (len p) = p.
Proof.
  intros H. destruct (startswith_split _ _ H) as [t ->]. apply slice_to_app.
Qed.

(** The first occurrence of a text does not depend on what follows it. *)
Lemma find_from_cut p a b :
  p <> [] ->
  forall i,
    find_from p (a ++ p ++ b) i = i + len a ->
    find_from p (a ++ p) i = i + len a.
Proof.
  intros Hp. induction a as [|c a IH]; intros i H.
  - destruct p as [|x p]; [congruence|].
    change ([] ++ x :: p) with (x :: p). cbn [find_from].
    assert (S : startswith (x :: p) (x :: p) = true).
    { pose proof (startswith_app (x :: p) []) as S.
      now rewrite app_nil_r in S. }
    rewrite S. unfold len. cbn [List.length]. lia.
  - change ((c :: a) ++ p ++ b) with (c :: a ++ p ++ b) in H.
    change ((c :: a) ++ p) with (c :: a ++ p).
    assert (L : len (c :: a) = 1 + len a)
      by (unfold len; cbn [List.length]; lia).
    cbn [find_from] in *.
    destruct (startswith p (c :: a ++ p ++ b)) eqn:S.
    + exfalso. unfold len in *. lia.
    + destruct (startswith p (c :: a ++ p)) eqn:S'.
      * apply (startswith_app_r _ _ b) in S'.
        change ((c :: a ++ p) ++ b) with (c :: (a ++ p) ++ b) in S'.
        rewrite <- app_assoc in S'. congruence.
      * rewrite IH; [lia|]. rewrite H. lia.
Qed.

(** Where [find] finds a text: what precedes the first occurrence holds
    no other one, also none that runs into it. *)
Lemma find_first p s :
  p <> [] -> 0 <= find p s ->
  exists a b,
    s = a ++ p ++ b /\ find p s = len a /\ find p (a ++ p) = len a.
Proof.
  intros Hp H. unfold find in *.
  destruct (find_from_spec p s Hp 0) as [[F _]|(a & b & E & F & _)]; [lia|].
  exists a, b. split; [exact E|]. split; [exact F|].
  apply (find_from_cut p a b Hp 0). now rewrite <- E.
Qed.

Lemma proxy_protocol_returns inet_pton line m b m' :
  proxy_protocol inet_pton line m = (Return b, m') ->
  if b then exists info, m' = set_proxy_protocol_info (Some info) m
  else m' = m.
Proof.
  unfold proxy_protocol, bind, gets. intros H.
  destruct (Cfg.proxy_protocol (cfg m)); cbn [negb] in H;
    [|now inversion H].
  destruct (req_number m =? 1); cbn [negb] in H; [|now inversion H].
  destruct (startswith (lit "PROXY") line); cbn [negb] in H;
    [|now inversion H].
  destruct (access_check_cases m) as [[_ C]|(host & port & _ & _ & C)];
    rewrite C in H; [|discriminate].
  destruct (parse_proxy_protocol_outcome inet_pton line m)
    as [[info E]|[[msg E]|E]]; rewrite E in H; [|discriminate..].
  inversion H; subst. now exists info.
Qed.

Lemma proxy_info_source m m' :
  source_only m m' -> proxy_protocol_info m' = proxy_protocol_info m.
Proof. now intros (u & ->). Qed.

Lemma proxy_info_block m m' :
  block_only m m' -> proxy_protocol_info m' = proxy_protocol_info m.
Proof. now intros (u & h & s & b & c & ->). Qed.

(** What [parse] reads: one line, or two when the first is a PROXY line,
    then the lines of the header block up to the first blank line; it
    returns the bytes that follow the blank line, or pushes them back. *)
Lemma parse_reads split_request_uri inet_pton m unused m' :
  parse split_request_uri inet_pton m = (Return unused, m') ->
  exists lines block,
    source_bytes (unreader m)
    = lines ++ CRLF ++ block ++ CRLF ++ unused ++ source_bytes (unreader m')
    /\ (unused = [] \/ unread_buf (unreader m') = [])
    /\ ((proxy_protocol_info m' = proxy_protocol_info m
         /\ find CRLF lines = -1)
        \/ ((exists info, proxy_protocol_info m' = Some info)
            /\ exists l1 l2,
                 lines = l1 ++ CRLF ++ l2
                 /\ find CRLF l1 = -1 /\ find CRLF l2 = -1))
    /\ (block = []
        \/ exists text,
             block = text ++ CRLF
             /\ startswith CRLF block = false
             /\ find (CRLF ++ CRLF) (block ++ CRLF) = len text).
Proof.
  unfold parse. intros H. unfold bind at 1 in H.
  destruct (get_data [] true m) as [[buf|e|] m1] eqn:G1;
    [|discriminate|discriminate].
  pose proof (proxy_info_source _ _ (keeps_source_get_data _ _ _ _ _ G1))
    as I1.
  apply get_data_conserves in G1 as [C1 U1]. simpl in C1.
  unfold bind at 1 in H. unfold gets at 1 in H.
  unfold bind at 1 in H.
  destruct (read_line buf (limit_request_line m1) m1)
    as [[[line rbuf]|e|] m2] eqn:G2; [|discriminate|discriminate].
  pose proof (proxy_info_source _ _ (keeps_source_read_line _ _ _ _ _ G2))
    as I2.
  unfold read_line in G2.
  apply read_line_loop_conserves in G2 as (N2 & C2 & _ & U2).
  specialize (U2 U1).
  unfold bind at 1 in H.
  destruct (proxy_protocol inet_pton (bytes_to_str line) m2)
    as [[is_proxy|e|] m3] eqn:G3; [|discriminate|discriminate].
  pose proof (keeps_unreader_proxy_protocol _ _ _ _ _ G3) as S3.
  unfold same_unreader in S3.
  apply proxy_protocol_returns in G3.
  unfold bind at 1 in H.
  assert (exists line' rbuf' m4 lines,
            (if is_proxy then read_line rbuf (limit_request_line m1)
             else ret (line, rbuf)) m3 = (Return (line', rbuf'), m4)
            /\ source_bytes (unreader m)
               = lines ++ CRLF ++ rbuf' ++ source_bytes (unreader m4)
            /\ unread_buf (unreader m4) = []
            /\ ((proxy_protocol_info m4 = proxy_protocol_info m
                 /\ find CRLF lines = -1)
                \/ ((exists info, proxy_protocol_info m4 = Some info)
                    /\ exists l1 l2,
                         lines = l1 ++ CRLF ++ l2
                         /\ find CRLF l1 = -1 /\ find CRLF l2 = -1)))
    as (line' & rbuf' & m4 & lines & G4 & C4 & U4 & L4).
  { destruct is_proxy.
    - destruct (read_line rbuf (limit_request_line m1) m3)
        as [[[line' rbuf']|e|] m4] eqn:G4; [|discriminate|discriminate].
      pose proof (proxy_info_source _ _
                    (keeps_source_read_line _ _ _ _ _ G4)) as I4.
      exists line', rbuf', m4, (line ++ CRLF ++ line').
      split; [reflexivity|].
      unfold read_line in G4.
      apply read_line_loop_conserves in G4 as (N4 & C4 & _ & U4).
      rewrite S3 in C4, U4. split; [|split; [auto|]].
      + rewrite <- C1, <- C2. rewrite <- !app_assoc.
        do 2 f_equal. now rewrite <- C4.
      + right. destruct G3 as [info ->]. split.
        * exists info. rewrite I4. reflexivity.
        * now exists line, line'.
    - exists line, rbuf, m3, line. split; [reflexivity|].
      rewrite S3. split; [now rewrite <- C1, <- C2|]. split; [assumption|].
      left. subst m3. split; [congruence | exact N2]. }
  rewrite G4 in H. clear G4.
  unfold bind at 1 in H.
  destruct (parse_request_line split_request_uri line' m4)
    as [[[]|e|] m5] eqn:G5; [|discriminate|discriminate].
  pose proof (keeps_parse_request_line
                (fun m m' => proxy_protocol_info m' = proxy_protocol_info m)
                (fun _ => eq_refl)
                (fun m1 m2 m3 A B => eq_trans B A)
                (fun _ _ => eq_refl) (fun _ _ => eq_refl)
                (fun _ _ _ _ => eq_refl) (fun _ _ => eq_refl)
                _ _ _ _ _ G5) as I5.
  apply keeps_unreader_parse_request_line in G5. unfold same_unreader in G5.
  unfold bind at 1 in H. unfold gets at 1 in H. unfold bind at 1 in H.
  destruct (parse_header_loop (S (pending_reads (unreader m5))) rbuf' m5)
    as [[data|e|] m6] eqn:G6; [|discriminate|discriminate].
  pose proof (proxy_info_source _ _
                (keeps_source_parse_header_loop _ _ _ _ _ G6)) as I6.
  pose proof (parse_header_loop_spec _ _ _ _ _ G6) as (_ & B & _).
  destruct (B data eq_refl) as [B' _]. clear B.
  apply parse_header_loop_conserves in G6 as [C6 U6].
  rewrite G5 in C6, U6. specialize (U6 U4).
  unfold block_complete in B'. apply negb_true_iff in B'.
  assert (L6 : (proxy_protocol_info m6 = proxy_protocol_info m
                /\ find CRLF lines = -1)
               \/ ((exists info, proxy_protocol_info m6 = Some info)
                   /\ exists l1 l2,
                        lines = l1 ++ CRLF ++ l2
                        /\ find CRLF l1 = -1 /\ find CRLF l2 = -1)).
  { rewrite I6, I5. exact L4. }
  exists lines.
  destruct (str_eqb (slice_to data 2) CRLF) eqn:D.
  - unfold bind, unreader_unread, modify, ret in H. inversion H; subst.
    apply str_eqb_eq in D. exists [].
    split; [|split; [now left|split; [exact L6|now left]]].
    assert (Ed : data = CRLF ++ slice_from data 2).
    { rewrite <- D. unfold slice_to, slice_from. symmetry.
      apply firstn_skipn. }
    rewrite C4, <- C6. do 2 f_equal. rewrite Ed at 1.
    unfold source_bytes. cbn [unreader set_unreader unread_buf chunks app].
    rewrite U6. cbn [app]. now rewrite <- !app_assoc.
  - rewrite andb_false_iff in B'. destruct B' as [B'|B']; [|discriminate].
    apply Z.ltb_ge in B'.
    unfold bind at 1 in H.
    destruct (parse_headers (slice_to data (find (CRLF ++ CRLF) data)) m6)
      as [[hs|e|] m7] eqn:G7; [|discriminate|discriminate].
    pose proof (proxy_info_block _ _ (keeps_block_parse_headers _ _ _ _ G7))
      as I7.
    apply keeps_unreader_parse_headers in G7. unfold same_unreader in G7.
    unfold bind, modify, ret in H. inversion H; subst.
    change (13%N :: 10%N :: CRLF) with (CRLF ++ CRLF).
    destruct (find_first (CRLF ++ CRLF) data (ltac:(discriminate)) B')
      as (text & rest & E & F & Fc).
    rewrite F. change 4 with (len (CRLF ++ CRLF)).
    assert (Sf : slice_from data (len text + len (CRLF ++ CRLF)) = rest).
    { rewrite E. apply slice_from_app. }
    rewrite Sf. exists (text ++ CRLF).
    split; [|split; [right; cbn [unreader set_headers]; now rewrite G7|]].
    + cbn [unreader set_headers]. rewrite C4, <- C6, G7. rewrite E at 1.
      now rewrite <- !app_assoc.
    + split.
      * cbn [proxy_protocol_info set_headers]. rewrite I7. exact L6.
      * right. exists text. split; [reflexivity|]. split.
        -- destruct (startswith CRLF (text ++ CRLF)) eqn:S; [|reflexivity].
           exfalso. apply (startswith_app_r _ _ (CRLF ++ rest)) in S.
           rewrite <- app_assoc in S.
           change (CRLF ++ CRLF ++ rest) with ((CRLF ++ CRLF) ++ rest) in S.
           rewrite <- E in S. apply startswith_slice in S.
           change (len CRLF) with 2 in S. rewrite S in D.
           discriminate.
        -- rewrite <- app_assoc. exact Fc.
Qed.

(** X7: when a request has been made, the byte source holds exactly the
    bytes that followed the request's header block.  What the source held
    at first is: the request line (after the PROXY line and its line end,
    when the request carries a ProxyInfo), each without a line end inside;
    a line end; the header block, which is empty or is a text that ends
    with a line end, does not start with one and holds no blank line; the
    line end that makes the first blank line; and what the source holds
    now.  So the remainder is fixed by what the source held: a request
    that came with this one is left as it came. *)
Theorem request_leaves_following_bytes
        split_request_uri inet_pton c u peer number m' :
  Request_init split_request_uri inet_pton c u peer number
  = (Return tt, m') ->
  exists lines block,
    source_bytes u
    = lines ++ CRLF ++ block ++ CRLF ++ source_bytes (unreader m')
    /\ match proxy_protocol_info m' with
       | None => find CRLF lines = -1
       | Some _ =>
           exists proxy_line request_line,
             lines = proxy_line ++ CRLF ++ request_line
             /\ find CRLF proxy_line = -1 /\ find CRLF request_line = -1
       end
    /\ (block = []
        \/ exists text,
             block = text ++ CRLF
             /\ startswith CRLF block = false
             /\ find (CRLF ++ CRLF) (block ++ CRLF) = len text).
Proof.
  unfold Request_init. intros H. unfold bind at 1 in H.
  destruct (parse split_request_uri inet_pton (new_request c u peer number))
    as [[unused|e|] m1] eqn:P; [|discriminate|discriminate].
  apply parse_reads in P as (lines & block & C & U & L & B). simpl in C.
  unfold bind at 1 in H. unfold unreader_unread, modify in H.
  match type of H with
  | Request_set_body_reader ?x = _ => set (m2 := x) in *
  end.
  apply keeps_framing_Request_set_body_reader in H.
  destruct H as (b & c0 & -> & _).
  exists lines, block. split; [|split; [|exact B]].
  - rewrite C. unfold m2, source_bytes. simpl.
    destruct U as [->| ->]; simpl;
      rewrite ?app_nil_r, <- ?app_assoc; reflexivity.
  - cbn [proxy_protocol_info set_body set_must_close m2 set_unreader].
    cbn [new_request proxy_protocol_info] in L.
    destruct L as [[-> L]|[[info ->] L]]; exact L.
Qed.

Lemma request_leaves_following_bytes_witness :
  exists lines block,
    source_bytes {| unread_buf := []; chunks := [pipelined] |}
    = lines ++ CRLF ++ block ++ CRLF
      ++ source_bytes (unreader (snd (sample_init pipelined)))
    /\ match proxy_protocol_info (snd (sample_init pipelined)) with
       | None => find CRLF lines = -1
       | Some _ =>
           exists proxy_line request_line,
             lines = proxy_line ++ CRLF ++ request_line
             /\ find CRLF proxy_line = -1 /\ find CRLF request_line = -1
       end
    /\ (block = []
        \/ exists text,
             block = text ++ CRLF
             /\ startswith CRLF block = false
             /\ find (CRLF ++ CRLF) (block ++ CRLF) = len text).
Proof.
  exact (request_leaves_following_bytes _ _ _ _ _ _ _
           sample_init_pipelined_returns).
Defined.
